(** * Celestial coordinate and view projection engine of [SkyRenderer]

    A shallow embedding of the numerical core of the [SkyRenderer] class
    (sidereal rotation of the catalog, the flat projection strategies, the
    screen projector, the polyline clipper, picking, and the view-state
    mutations made by the input handlers and by the navigation animation),
    together with the properties the specification states about them.

    JavaScript numbers are modelled by [JS.num]: a finite value is an exact
    real number (rounding and overflow of binary64 are abstracted away, and
    there is a single zero), and the three IEEE special values [Infinity],
    [-Infinity] and [NaN] are kept, so that division by zero, [Math.log] of
    zero and comparisons with [NaN] behave as they do in the source. *)

From Stdlib Require Import Reals Lra Lia ZArith List String Bool Machin.
Import ListNotations.

Open Scope R_scope.

(** ** JavaScript numbers *)

Module JS.

Inductive num : Type :=
| Fin (r : R)
| PInf
| NInf
| NaN.

Definition Rltb (a b : R) : bool := if Rlt_dec a b then true else false.
Definition Rleb (a b : R) : bool := if Rle_dec a b then true else false.
Definition Reqb (a b : R) : bool := if Req_dec_T a b then true else false.

Definition isFinite (a : num) : bool :=
  match a with Fin _ => true | _ => false end.

Definition isNaN (a : num) : bool :=
  match a with NaN => true | _ => false end.

(** The infinity whose sign is that of the finite non-zero number [x]. *)
Definition inf_of_sign (x : R) : num := if Rlt_dec 0 x then PInf else NInf.

Definition neg (a : num) : num :=
  match a with
  | Fin x => Fin (- x)
  | PInf => NInf
  | NInf => PInf
  | NaN => NaN
  end.

Definition add (a b : num) : num :=
  match a, b with
  | Fin x, Fin y => Fin (x + y)
  | NaN, _ | _, NaN => NaN
  | PInf, NInf | NInf, PInf => NaN
  | PInf, _ | _, PInf => PInf
  | NInf, _ | _, NInf => NInf
  end.

Definition sub (a b : num) : num := add a (neg b).

Definition mul (a b : num) : num :=
  match a, b with
  | Fin x, Fin y => Fin (x * y)
  | NaN, _ | _, NaN => NaN
  | Fin x, PInf | PInf, Fin x =>
      if Req_dec_T x 0 then NaN else inf_of_sign x
  | Fin x, NInf | NInf, Fin x =>
      if Req_dec_T x 0 then NaN else inf_of_sign (- x)
  | PInf, PInf | NInf, NInf => PInf
  | PInf, NInf | NInf, PInf => NInf
  end.

(** Division; a zero divisor is taken as [+0]. *)
Definition div (a b : num) : num :=
  match a, b with
  | Fin x, Fin y =>
      if Req_dec_T y 0
      then (if Req_dec_T x 0 then NaN else inf_of_sign x)
      else Fin (x / y)
  | NaN, _ | _, NaN => NaN
  | Fin _, PInf | Fin _, NInf => Fin 0
  | PInf, Fin y => if Rle_dec 0 y then PInf else NInf
  | NInf, Fin y => if Rle_dec 0 y then NInf else PInf
  | PInf, PInf | PInf, NInf | NInf, PInf | NInf, NInf => NaN
  end.

(** Truncation toward zero, and the remainder [x - y * trunc (x / y)], which
    has the sign of the dividend: the [%] operator of the language. *)
Definition Rtrunc (x : R) : Z :=
  if Rle_dec 0 x then Int_part x else (- Int_part (- x))%Z.

Definition Rfmod (x y : R) : R := x - IZR (Rtrunc (x / y)) * y.

Definition rem (a b : num) : num :=
  match a, b with
  | Fin x, Fin y => if Req_dec_T y 0 then NaN else Fin (Rfmod x y)
  | Fin x, PInf | Fin x, NInf => Fin x
  | _, _ => NaN
  end.

(** Relational operators: every comparison with [NaN] is false. *)
Definition lt (a b : num) : bool :=
  match a, b with
  | Fin x, Fin y => Rltb x y
  | NaN, _ | _, NaN => false
  | NInf, Fin _ | NInf, PInf | Fin _, PInf => true
  | _, _ => false
  end.

Definition le (a b : num) : bool :=
  match a, b with
  | Fin x, Fin y => Rleb x y
  | NaN, _ | _, NaN => false
  | NInf, _ | _, PInf => true
  | _, _ => false
  end.

Definition gt (a b : num) : bool := lt b a.
Definition ge (a b : num) : bool := le b a.

(** Strict equality [===] and [!==] on numbers. *)
Definition seq (a b : num) : bool :=
  match a, b with
  | Fin x, Fin y => Reqb x y
  | PInf, PInf | NInf, NInf => true
  | _, _ => false
  end.

Definition sneq (a b : num) : bool := negb (seq a b).

(** [Math.max] and [Math.min] of two arguments. *)
Definition max (a b : num) : num :=
  match a, b with
  | Fin x, Fin y => Fin (Rmax x y)
  | NaN, _ | _, NaN => NaN
  | PInf, _ | _, PInf => PInf
  | NInf, c | c, NInf => c
  end.

Definition min (a b : num) : num :=
  match a, b with
  | Fin x, Fin y => Fin (Rmin x y)
  | NaN, _ | _, NaN => NaN
  | NInf, _ | _, NInf => NInf
  | PInf, c | c, PInf => c
  end.

Definition abs (a : num) : num :=
  match a with
  | Fin x => Fin (Rabs x)
  | PInf | NInf => PInf
  | NaN => NaN
  end.

Definition sqrt (a : num) : num :=
  match a with
  | Fin x => if Rlt_dec x 0 then NaN else Fin (R_sqrt.sqrt x)
  | PInf => PInf
  | NInf | NaN => NaN
  end.

Definition sin (a : num) : num :=
  match a with Fin x => Fin (Rtrigo_def.sin x) | _ => NaN end.

Definition cos (a : num) : num :=
  match a with Fin x => Fin (Rtrigo_def.cos x) | _ => NaN end.

(** [Math.tan]; at a pole of the tangent (which no binary64 argument hits)
    the idealised result is [NaN]. *)
Definition tan (a : num) : num :=
  match a with
  | Fin x =>
      if Req_dec_T (Rtrigo_def.cos x) 0 then NaN else Fin (Rtrigo1.tan x)
  | _ => NaN
  end.

Definition log (a : num) : num :=
  match a with
  | Fin x =>
      if Rlt_dec x 0 then NaN
      else if Req_dec_T x 0 then NInf else Fin (ln x)
  | PInf => PInf
  | NInf | NaN => NaN
  end.

(** [Math.pow (a, n)] for a literal natural exponent. *)
Fixpoint pow (a : num) (n : nat) : num :=
  match n with
  | O => Fin 1
  | S k => mul a (pow a k)
  end.

Definition PI : num := Fin Rtrigo1.PI.
Definition ofZ (z : Z) : num := Fin (IZR z).

End JS.

(** ** The parts of gl-matrix the renderer calls

    [mat4] is a column-major array of sixteen numbers, [vec4] an array of
    four.  The functions follow the library's formulas; the claims below
    hold for arbitrary matrices and do not depend on the builders. *)

Module GlMatrix.
Import JS.

Record vec4 : Type := Vec4 { v0 : num; v1 : num; v2 : num; v3 : num }.

Record mat4 : Type := Mat4 {
  m0 : num; m1 : num; m2 : num; m3 : num;
  m4 : num; m5 : num; m6 : num; m7 : num;
  m8 : num; m9 : num; m10 : num; m11 : num;
  m12 : num; m13 : num; m14 : num; m15 : num }.

Definition zero : num := Fin 0.
Definition one : num := Fin 1.

(** [mat4.create ()] and [mat4.identity (out)]. *)
Definition identity : mat4 :=
  Mat4 one zero zero zero
       zero one zero zero
       zero zero one zero
       zero zero zero one.

(** [vec4.transformMat4 (out, a, m)]. *)
Definition transformMat4 (a : vec4) (m : mat4) : vec4 :=
  let x := v0 a in let y := v1 a in let z := v2 a in let w := v3 a in
  Vec4 (add (add (add (mul (m0 m) x) (mul (m4 m) y)) (mul (m8 m) z)) (mul (m12 m) w))
       (add (add (add (mul (m1 m) x) (mul (m5 m) y)) (mul (m9 m) z)) (mul (m13 m) w))
       (add (add (add (mul (m2 m) x) (mul (m6 m) y)) (mul (m10 m) z)) (mul (m14 m) w))
       (add (add (add (mul (m3 m) x) (mul (m7 m) y)) (mul (m11 m) z)) (mul (m15 m) w)).

(** [mat4.translate (out, a, [x, y, z])] with [out === a]. *)
Definition translate (a : mat4) (x y z : num) : mat4 :=
  Mat4 (m0 a) (m1 a) (m2 a) (m3 a)
       (m4 a) (m5 a) (m6 a) (m7 a)
       (m8 a) (m9 a) (m10 a) (m11 a)
       (add (add (add (mul (m0 a) x) (mul (m4 a) y)) (mul (m8 a) z)) (m12 a))
       (add (add (add (mul (m1 a) x) (mul (m5 a) y)) (mul (m9 a) z)) (m13 a))
       (add (add (add (mul (m2 a) x) (mul (m6 a) y)) (mul (m10 a) z)) (m14 a))
       (add (add (add (mul (m3 a) x) (mul (m7 a) y)) (mul (m11 a) z)) (m15 a)).

(** [mat4.scale (out, a, [x, y, z])]. *)
Definition scale (a : mat4) (x y z : num) : mat4 :=
  Mat4 (mul (m0 a) x) (mul (m1 a) x) (mul (m2 a) x) (mul (m3 a) x)
       (mul (m4 a) y) (mul (m5 a) y) (mul (m6 a) y) (mul (m7 a) y)
       (mul (m8 a) z) (mul (m9 a) z) (mul (m10 a) z) (mul (m11 a) z)
       (m12 a) (m13 a) (m14 a) (m15 a).

Definition EPSILON : num := Fin (1 / 1000000).

(** [mat4.rotate (out, a, rad, [x, y, z])] with [out === a]; the matrix is
    left as it is when the axis is shorter than [EPSILON]. *)
Definition rotate (a : mat4) (rad : num) (x y z : num) : mat4 :=
  let len := sqrt (add (add (mul x x) (mul y y)) (mul z z)) in
  if lt len EPSILON then a else
  let len := div one len in
  let x := mul x len in let y := mul y len in let z := mul z len in
  let s := sin rad in let c := cos rad in let t := sub one c in
  let b00 := add (mul (mul x x) t) c in
  let b01 := add (mul (mul y x) t) (mul z s) in
  let b02 := sub (mul (mul z x) t) (mul y s) in
  let b10 := sub (mul (mul x y) t) (mul z s) in
  let b11 := add (mul (mul y y) t) c in
  let b12 := add (mul (mul z y) t) (mul x s) in
  let b20 := add (mul (mul x z) t) (mul y s) in
  let b21 := sub (mul (mul y z) t) (mul x s) in
  let b22 := add (mul (mul z z) t) c in
  let row (p q r : num) (u v w : num) :=
    add (add (mul p u) (mul q v)) (mul r w) in
  Mat4 (row (m0 a) (m4 a) (m8 a) b00 b01 b02)
       (row (m1 a) (m5 a) (m9 a) b00 b01 b02)
       (row (m2 a) (m6 a) (m10 a) b00 b01 b02)
       (row (m3 a) (m7 a) (m11 a) b00 b01 b02)
       (row (m0 a) (m4 a) (m8 a) b10 b11 b12)
       (row (m1 a) (m5 a) (m9 a) b10 b11 b12)
       (row (m2 a) (m6 a) (m10 a) b10 b11 b12)
       (row (m3 a) (m7 a) (m11 a) b10 b11 b12)
       (row (m0 a) (m4 a) (m8 a) b20 b21 b22)
       (row (m1 a) (m5 a) (m9 a) b20 b21 b22)
       (row (m2 a) (m6 a) (m10 a) b20 b21 b22)
       (row (m3 a) (m7 a) (m11 a) b20 b21 b22)
       (m12 a) (m13 a) (m14 a) (m15 a).

(** [mat4.perspective (out, fovy, aspect, near, far)] for a finite [far]. *)
Definition perspective (fovy aspect near far : num) : mat4 :=
  let f := div one (tan (div fovy (Fin 2))) in
  let nf := div one (sub near far) in
  Mat4 (div f aspect) zero zero zero
       zero f zero zero
       zero zero (mul (add far near) nf) (Fin (-1))
       zero zero (mul (mul (mul (Fin 2) far) near) nf) zero.

(** [mat4.ortho (out, left, right, bottom, top, near, far)]. *)
Definition ortho (left right bottom top near far : num) : mat4 :=
  let lr := div one (sub left right) in
  let bt := div one (sub bottom top) in
  let nf := div one (sub near far) in
  Mat4 (mul (Fin (-2)) lr) zero zero zero
       zero (mul (Fin (-2)) bt) zero zero
       zero zero (mul (Fin 2) nf) zero
       (mul (add left right) lr) (mul (add top bottom) bt)
       (mul (add far near) nf) one.

(** Every entry is a finite number. *)
Definition mat4_finite (m : mat4) : bool :=
  isFinite (m0 m) && isFinite (m1 m) && isFinite (m2 m) && isFinite (m3 m)
  && isFinite (m4 m) && isFinite (m5 m) && isFinite (m6 m) && isFinite (m7 m)
  && isFinite (m8 m) && isFinite (m9 m) && isFinite (m10 m)
  && isFinite (m11 m) && isFinite (m12 m) && isFinite (m13 m)
  && isFinite (m14 m) && isFinite (m15 m).

Definition vec4_finite (a : vec4) : bool :=
  isFinite (v0 a) && isFinite (v1 a) && isFinite (v2 a) && isFinite (v3 a).

End GlMatrix.

(** ** The renderer *)

Module Sky.
Import JS GlMatrix.

Declare Scope js_scope.
Delimit Scope js_scope with js.
Bind Scope js_scope with num.
Coercion Fin : R >-> num.

Infix "+" := add : js_scope.
Infix "-" := sub : js_scope.
Infix "*" := mul : js_scope.
Infix "/" := div : js_scope.
Infix "%%" := rem (at level 40, left associativity) : js_scope.
Infix "<?" := lt (at level 70, no associativity) : js_scope.
Infix "<=?" := le (at level 70, no associativity) : js_scope.
Infix ">?" := gt (at level 70, no associativity) : js_scope.

(** *** Data *)

(** The four UTC getters of a [Date]. *)
Record Date : Type := {
  getUTCHours : Z;
  getUTCMinutes : Z;
  getUTCSeconds : Z;
  getUTCMilliseconds : Z }.

(** A catalog record: [ra] in hours, [dec] in degrees. *)
Record Star : Type := {
  id : string;
  ra : num;
  dec : num;
  magnitude : num }.

(** A coordinate triple [{x, y, z}]. *)
Record Point3 : Type := { x : num; y : num; z : num }.

(** [{...star, ...coords}]: the catalog fields with the projected triple. *)
Record TStar : Type := { source : Star; coords : Point3 }.

(** A pixel position [{x, y}]. *)
Record ScreenPoint : Type := { sx : num; sy : num }.

(** An entry of the [activeStars] map (the info window is a DOM node). *)
Record ActiveStar : Type := { star : TStar; timeCreated : Date }.

Record Canvas : Type := {
  width : num;
  height : num;
  clientWidth : num;
  clientHeight : num }.

(** The camera parameters: [rotation], [zoom], [pan], [scale],
    [hammerRotation] and [projectionType]. *)
Record View : Type := {
  rotation_x : num;
  rotation_y : num;
  zoom : num;
  pan_x : num;
  pan_y : num;
  scale : num;
  hammerRotation : num;
  projectionType : string }.

Record Engine : Type := {
  longitude : num;
  canvas : Canvas;
  view : View;
  stars : option (list Star);
  activeStars : list (string * ActiveStar);
  currentRenderTime : option Date;
  lastClickTime : option Date;
  currentModelView : mat4;
  currentProjection : mat4 }.

Definition with_view (e : Engine) (v : View) : Engine :=
  {| longitude := longitude e; canvas := canvas e; view := v;
     stars := stars e; activeStars := activeStars e;
     currentRenderTime := currentRenderTime e;
     lastClickTime := lastClickTime e;
     currentModelView := currentModelView e;
     currentProjection := currentProjection e |}.

Definition with_canvas (e : Engine) (c : Canvas) : Engine :=
  {| longitude := longitude e; canvas := c; view := view e;
     stars := stars e; activeStars := activeStars e;
     currentRenderTime := currentRenderTime e;
     lastClickTime := lastClickTime e;
     currentModelView := currentModelView e;
     currentProjection := currentProjection e |}.

Definition with_stars (e : Engine) (s : option (list Star)) : Engine :=
  {| longitude := longitude e; canvas := canvas e; view := view e;
     stars := s; activeStars := activeStars e;
     currentRenderTime := currentRenderTime e;
     lastClickTime := lastClickTime e;
     currentModelView := currentModelView e;
     currentProjection := currentProjection e |}.

Definition with_activeStars (e : Engine) (a : list (string * ActiveStar))
  : Engine :=
  {| longitude := longitude e; canvas := canvas e; view := view e;
     stars := stars e; activeStars := a;
     currentRenderTime := currentRenderTime e;
     lastClickTime := lastClickTime e;
     currentModelView := currentModelView e;
     currentProjection := currentProjection e |}.

Definition with_currentRenderTime (e : Engine) (t : option Date) : Engine :=
  {| longitude := longitude e; canvas := canvas e; view := view e;
     stars := stars e; activeStars := activeStars e;
     currentRenderTime := t;
     lastClickTime := lastClickTime e;
     currentModelView := currentModelView e;
     currentProjection := currentProjection e |}.

Definition with_lastClickTime (e : Engine) (t : option Date) : Engine :=
  {| longitude := longitude e; canvas := canvas e; view := view e;
     stars := stars e; activeStars := activeStars e;
     currentRenderTime := currentRenderTime e;
     lastClickTime := t;
     currentModelView := currentModelView e;
     currentProjection := currentProjection e |}.

Definition with_matrices (e : Engine) (mv p : mat4) : Engine :=
  {| longitude := longitude e; canvas := canvas e; view := view e;
     stars := stars e; activeStars := activeStars e;
     currentRenderTime := currentRenderTime e;
     lastClickTime := lastClickTime e;
     currentModelView := mv;
     currentProjection := p |}.

Definition with_projectionType (v : View) (t : string) : View :=
  {| rotation_x := rotation_x v; rotation_y := rotation_y v; zoom := zoom v;
     pan_x := pan_x v; pan_y := pan_y v; scale := scale v;
     hammerRotation := hammerRotation v; projectionType := t |}.

Definition with_rotation (v : View) (rx ry : num) : View :=
  {| rotation_x := rx; rotation_y := ry; zoom := zoom v;
     pan_x := pan_x v; pan_y := pan_y v; scale := scale v;
     hammerRotation := hammerRotation v; projectionType := projectionType v |}.

Definition with_zoom (v : View) (zm : num) : View :=
  {| rotation_x := rotation_x v; rotation_y := rotation_y v; zoom := zm;
     pan_x := pan_x v; pan_y := pan_y v; scale := scale v;
     hammerRotation := hammerRotation v; projectionType := projectionType v |}.

Definition with_pan (v : View) (p_x p_y : num) : View :=
  {| rotation_x := rotation_x v; rotation_y := rotation_y v; zoom := zoom v;
     pan_x := p_x; pan_y := p_y; scale := scale v;
     hammerRotation := hammerRotation v; projectionType := projectionType v |}.

Definition with_scale (v : View) (s : num) : View :=
  {| rotation_x := rotation_x v; rotation_y := rotation_y v; zoom := zoom v;
     pan_x := pan_x v; pan_y := pan_y v; scale := s;
     hammerRotation := hammerRotation v; projectionType := projectionType v |}.

Definition with_hammerRotation (v : View) (h : num) : View :=
  {| rotation_x := rotation_x v; rotation_y := rotation_y v; zoom := zoom v;
     pan_x := pan_x v; pan_y := pan_y v; scale := scale v;
     hammerRotation := h; projectionType := projectionType v |}.

(** [this.projectionType === s]. *)
Definition mode_is (e : Engine) (s : string) : bool :=
  String.eqb (projectionType (view e)) s.

(** *** Projection strategies *)

Definition equatorialToStereographic (ra dec : num) : Point3 :=
  let raRad := ((ra * 15) * PI / 180)%js in
  let decRad := (dec * PI / 180)%js in
  let cosDec := cos decRad in
  let k := (2 / (1 + cosDec * cos raRad))%js in
  {| x := (k * cosDec * sin raRad)%js;
     y := (k * sin decRad)%js;
     z := 0 |}.

Definition equatorialToMercator (e : Engine) (ra dec : num) : Point3 :=
  let normalizedRA := (ra * 15)%js in
  let normalizedRA :=
    if mode_is e "mercator"
    then (normalizedRA - (pan_x (view e) * 180 / PI))%js
    else normalizedRA in
  let normalizedRA := (((normalizedRA %% 360) + 360) %% 360)%js in
  let raRad := ((normalizedRA - 180) * PI / 180)%js in
  let decRad := max (min (dec * PI / 180)%js 1.4835) (-1.4835) in
  {| x := raRad;
     y := log (tan (PI / 4 + decRad / 2)%js);
     z := 0 |}.

(** [while (v > 360) v -= 360;] and [while (v < 0) v += 360;], each run for
    at most [fuel] iterations; [None] when the fuel does not suffice. *)
Fixpoint whileAbove360 (fuel : nat) (v : num) : option num :=
  if (v >? 360)%js then
    match fuel with
    | O => None
    | S f => whileAbove360 f (v - 360)%js
    end
  else Some v.

Fixpoint whileBelow0 (fuel : nat) (v : num) : option num :=
  if (v <? 0)%js then
    match fuel with
    | O => None
    | S f => whileBelow0 f (v + 360)%js
    end
  else Some v.

Definition equatorialToHammer (e : Engine) (fuel : nat) (ra dec : num)
  : option Point3 :=
  let normalizedRA := (ra * 15)%js in
  match whileAbove360 fuel normalizedRA with
  | None => None
  | Some normalizedRA =>
  match whileBelow0 fuel normalizedRA with
  | None => None
  | Some normalizedRA =>
    let normalizedRA :=
      if mode_is e "hammer" && sneq (hammerRotation (view e)) 0
      then ((normalizedRA + (hammerRotation (view e) * 180 / PI)) %% 360)%js
      else normalizedRA in
    let raRad := (((normalizedRA + 180) %% 360 - 180) * PI / 180)%js in
    let decRad := (dec * PI / 180)%js in
    let alphaPrime := (raRad / 2)%js in
    let cosAlpha := cos alphaPrime in
    let cosDec := cos decRad in
    let sinDec := sin decRad in
    let denom := sqrt (1 + cosDec * cosAlpha)%js in
    if seq denom 0 then Some {| x := 0; y := 0; z := 0 |}
    else Some {| x := (2 * sqrt 2 * cosDec * sin alphaPrime / denom)%js;
                 y := (sqrt 2 * sinDec / denom)%js;
                 z := 0 |}
  end
  end.



(** *** Catalog transform pipeline *)

(** The decimal UTC hours and the local sidereal time in degrees computed at
    the head of [transformStarsForProjection]. *)
Definition totalHours (t : Date) : num :=
  (ofZ (getUTCHours t) + (ofZ (getUTCMinutes t) / 60)
   + (ofZ (getUTCSeconds t) / 3600)
   + (ofZ (getUTCMilliseconds t) / 3600000))%js.

Definition localSiderealTime (e : Engine) (t : Date) : num :=
  (totalHours t * 15 + longitude e)%js.

(** The value bound to [starRA] for one star. *)
Definition rotatedRA (lst : num) (s : Star) : num :=
  ((ra s * 15 - lst + 360) %% 360)%js.

(** The body of the [stars.map] callback. *)
Definition transformStar (e : Engine) (fuel : nat) (type : string)
  (lst : num) (s : Star) : option TStar :=
  let starRA := rotatedRA lst s in
  let starDec := dec s in
  let coords :=
    if String.eqb type "stereographic" then
      Some (equatorialToStereographic (starRA / 15)%js starDec)
    else if String.eqb type "mercator" then
      Some (equatorialToMercator e (starRA / 15)%js starDec)
    else if String.eqb type "hammer" then
      equatorialToHammer e fuel (starRA / 15)%js starDec
    else
      let raRad := (starRA * PI / 180)%js in
      let decRad := (starDec * PI / 180)%js in
      Some {| x := (cos decRad * cos raRad)%js;
              y := (cos decRad * sin raRad)%js;
              z := sin decRad |} in
  match coords with
  | Some c => Some {| source := s; coords := c |}
  | None => None
  end.

Fixpoint mapOpt {A B : Type} (f : A -> option B) (l : list A)
  : option (list B) :=
  match l with
  | [] => Some []
  | a :: l' =>
      match f a, mapOpt f l' with
      | Some b, Some bs => Some (b :: bs)
      | _, _ => None
      end
  end.

Definition transformStarsForProjection (e : Engine) (fuel : nat)
  (stars : option (list Star)) (type : string) (currentTime : Date)
  : option (list TStar) :=
  match stars with
  | None | Some [] => Some []
  | Some l =>
      let lst := localSiderealTime e currentTime in
      mapOpt (transformStar e fuel type lst) l
  end.

(** *** Screen projector *)

Definition projectPoint (e : Engine) (point : Point3) : option ScreenPoint :=
  let pos := Vec4 (x point) (y point) (z point) 1 in
  let pos := transformMat4 pos (currentModelView e) in
  let pos := transformMat4 pos (currentProjection e) in
  if (v3 pos <=? 0)%js then None
  else Some {| sx := ((v0 pos / v3 pos + 1) * width (canvas e) / 2)%js;
               sy := ((neg (v1 pos) / v3 pos + 1) * height (canvas e) / 2)%js |}.

Definition point_finite (point : Point3) : bool :=
  isFinite (x point) && isFinite (y point) && isFinite (z point).

(** The homogeneous coordinates of a point after the model-view and the
    projection transforms: the [pos] of [projectPoint] before the divide. *)
Definition clipCoords (e : Engine) (point : Point3) : vec4 :=
  transformMat4
    (transformMat4 (Vec4 (x point) (y point) (z point) 1) (currentModelView e))
    (currentProjection e).

(** *** View transforms *)

Definition updateMatrices (e : Engine) : Engine :=
  let v := view e in
  if mode_is e "spherical" then
    let fieldOfView := (60 * PI / 180)%js in
    let aspect := (clientWidth (canvas e) / clientHeight (canvas e))%js in
    let zNear : num := 0.1 in
    let zFar : num := 100 in
    let projectionMatrix := perspective fieldOfView aspect zNear zFar in
    let modelViewMatrix := identity in
    let modelViewMatrix := translate modelViewMatrix 0 0 (-2) in
    let modelViewMatrix := rotate modelViewMatrix (rotation_x v) 1 0 0 in
    let modelViewMatrix := rotate modelViewMatrix (rotation_y v) 0 1 0 in
    let modelViewMatrix :=
      GlMatrix.scale modelViewMatrix (zoom v) (zoom v) (zoom v) in
    with_matrices e modelViewMatrix projectionMatrix
  else
    let aspect := (clientWidth (canvas e) / clientHeight (canvas e))%js in
    let viewWidth : num := 4 in
    let viewHeight := (viewWidth / aspect)%js in
    let projectionMatrix :=
      ortho (neg viewWidth / 2)%js (viewWidth / 2)%js
            (neg viewHeight / 2)%js (viewHeight / 2)%js (-1) 1 in
    let modelViewMatrix := identity in
    let modelViewMatrix :=
      GlMatrix.scale modelViewMatrix (scale v) (scale v) 1 in
    let modelViewMatrix :=
      if negb (mode_is e "mercator")
      then translate modelViewMatrix
             (pan_x v / scale v)%js (pan_y v / scale v)%js 0
      else translate modelViewMatrix 0 (pan_y v / scale v)%js 0 in
    with_matrices e modelViewMatrix projectionMatrix.

Definition resize (e : Engine) : Engine :=
  let c := canvas e in
  let displayWidth := clientWidth c in
  let displayHeight := clientHeight c in
  if sneq (width c) displayWidth || sneq (height c) displayHeight
  then with_canvas e {| width := displayWidth; height := displayHeight;
                        clientWidth := clientWidth c;
                        clientHeight := clientHeight c |}
  else e.

(** *** The [activeStars] map, keyed by star id, in insertion order *)

Fixpoint map_has (k : string) (m : list (string * ActiveStar)) : bool :=
  match m with
  | [] => false
  | (k', _) :: m' => String.eqb k k' || map_has k m'
  end.

Fixpoint map_set (k : string) (a : ActiveStar)
  (m : list (string * ActiveStar)) : list (string * ActiveStar) :=
  match m with
  | [] => [(k, a)]
  | (k', a') :: m' =>
      if String.eqb k k' then (k', a) :: m' else (k', a') :: map_set k a m'
  end.

(** [info.star = transformedStar] on the entry of key [id]. *)
Definition map_retarget (ts : TStar) (m : list (string * ActiveStar))
  : list (string * ActiveStar) :=
  List.map (fun ka =>
         if String.eqb (id (source ts)) (fst ka)
         then (fst ka, {| star := ts; timeCreated := timeCreated (snd ka) |})
         else ka) m.

(** The state written by [updateStarData]; the vertex buffers it fills
    belong to the rendering surface. *)
Definition updateStarData (e : Engine) (fuel : nat)
  (stars : option (list Star)) (currentTime : Date) : option Engine :=
  match stars with
  | None | Some [] => Some e
  | Some l =>
      let e := with_stars e (Some l) in
      match transformStarsForProjection e fuel (Some l)
              (projectionType (view e)) currentTime with
      | None => None
      | Some transformedStars =>
          Some (with_activeStars e
                  (fold_left
                     (fun m ts =>
                        if map_has (id (source ts)) m
                        then map_retarget ts m else m)
                     transformedStars (activeStars e)))
      end
  end.

(** The state written by [render]; what it draws is handed to the rendering
    surface and assigns none of the fields of [Engine].  One piece of state
    that a render does change is left out of [Engine]: [drawGrid] appends a
    hover rectangle to [this.hoverAreas] for every marked point of the
    ecliptic it draws, and nothing empties that list; it is read by the
    tooltip code of the [mousemove] listener only, and no function modelled
    here reads it. *)
Definition render (e : Engine) (fuel : nat) (currentTime : Date)
  : option Engine :=
  let e := with_currentRenderTime e (Some currentTime) in
  let e := resize e in
  let e := updateMatrices e in
  match stars e with
  | Some _ => updateStarData e fuel (stars e) currentTime
  | None => Some e
  end.

(** *** Projection mode *)

(** The values a caller can pass; objects are opaque. *)
Inductive value : Type :=
| VUndefined
| VNull
| VBoolean (b : bool)
| VNumber (n : num)
| VString (s : string)
| VObject (ref : nat).

Definition validTypes : list string :=
  ["spherical"; "stereographic"; "mercator"; "hammer"]%string.

(** [Array.prototype.includes] on an array of strings. *)
Definition includes (l : list string) (v : value) : bool :=
  match v with
  | VString s => existsb (String.eqb s) l
  | _ => false
  end.

Definition setProjection (e : Engine) (fuel : nat) (type : value)
  (now : Date) : option Engine :=
  if includes validTypes type then
    match type with
    | VString s =>
        let e := with_view e (with_projectionType (view e) s) in
        match stars e with
        | Some _ => updateStarData e fuel (stars e) now
        | None => Some e
        end
    | _ => Some e
    end
  else Some e.

(** *** Picking: the [click] listener *)

(** [closestStar], [minDistance] and [closestProjected]. *)
Record Pick : Type := {
  closestStar : option TStar;
  minDistance : num;
  closestProjected : option ScreenPoint }.

Definition pickInit : Pick :=
  {| closestStar := None; minDistance := PInf; closestProjected := None |}.

(** The pixel distance [Math.sqrt (dx * dx + dy * dy)] to the pointer. *)
Definition pixelDistance (mouseX mouseY : num) (projected : ScreenPoint)
  : num :=
  let dx := (sx projected - mouseX)%js in
  let dy := (sy projected - mouseY)%js in
  sqrt (dx * dx + dy * dy)%js.

(** The body of [transformedStars.forEach]. *)
Definition pickStep (e : Engine) (mouseX mouseY : num) (acc : Pick)
  (s : TStar) : Pick :=
  match projectPoint e (coords s) with
  | Some projected =>
      let distance := pixelDistance mouseX mouseY projected in
      if (distance <? minDistance acc)%js
      then {| closestStar := Some s; minDistance := distance;
              closestProjected := Some projected |}
      else acc
  | None => acc
  end.

Definition pickClosest (e : Engine) (mouseX mouseY : num)
  (transformedStars : list TStar) : Pick :=
  fold_left (pickStep e mouseX mouseY) transformedStars pickInit.

Definition threshold : num := 10.

(** The test [minDistance < threshold && closestStar && closestProjected]:
    the star that is hit, with its pixel position, if any. *)
Definition pickHit (p : Pick) : option (TStar * ScreenPoint) :=
  if (minDistance p <? threshold)%js then
    match closestStar p, closestProjected p with
    | Some s, Some q => Some (s, q)
    | _, _ => None
    end
  else None.

(** The star at index [i] of [ts] is on screen at [q], at the finite pixel
    distance [d] from the pointer; no star of [ts] with a finite distance is
    nearer, and every one before index [i] is strictly farther. *)
Definition isFirstNearest (e : Engine) (mouseX mouseY : num)
  (ts : list TStar) (i : nat) (s : TStar) (q : ScreenPoint) (d : R) : Prop :=
  nth_error ts i = Some s /\
  projectPoint e (coords s) = Some q /\
  pixelDistance mouseX mouseY q = Fin d /\
  forall (j : nat) (s' : TStar) (q' : ScreenPoint) (r : R),
    nth_error ts j = Some s' ->
    projectPoint e (coords s') = Some q' ->
    pixelDistance mouseX mouseY q' = Fin r ->
    d <= r /\ ((j < i)%nat -> d < r).

(** The loop invariant of the [forEach]: [l] is the part of the list that
    has been visited. *)
Definition PickInv (e : Engine) (mouseX mouseY : num)
  (l : list TStar) (p : Pick) : Prop :=
  (forall (j : nat) (s' : TStar) (q' : ScreenPoint),
      nth_error l j = Some s' ->
      projectPoint e (coords s') = Some q' ->
      lt (pixelDistance mouseX mouseY q') (minDistance p) = false) /\
  ((closestStar p = None /\ closestProjected p = None /\ minDistance p = PInf)
   \/
   (exists (i : nat) (s : TStar) (q : ScreenPoint),
       nth_error l i = Some s /\
       projectPoint e (coords s) = Some q /\
       closestStar p = Some s /\ closestProjected p = Some q /\
       minDistance p = pixelDistance mouseX mouseY q /\
       forall (j : nat) (s' : TStar) (q' : ScreenPoint),
         (j < i)%nat -> nth_error l j = Some s' ->
         projectPoint e (coords s') = Some q' ->
         le (pixelDistance mouseX mouseY q') (minDistance p) = false)) /\
  minDistance p <> NaN.

(** [this.currentRenderTime || new Date ()]. *)
Definition pickInstant (e : Engine) (now : Date) : Date :=
  match currentRenderTime e with
  | Some t => t
  | None => now
  end.

(** The listener: [now] is the clock when it starts, [renderNow] the clock
    at its final [this.render ()].  The info window it opens on a hit is a
    DOM node and is not part of the state. *)
Definition onClick (e : Engine) (fuel : nat)
  (clientX clientY rectLeft rectTop : num) (now renderNow : Date)
  : option Engine :=
  let mouseX := (clientX - rectLeft)%js in
  let mouseY := (clientY - rectTop)%js in
  match stars e with
  | None => Some e
  | Some _ =>
      let currentTime := pickInstant e now in
      let e := with_lastClickTime e (Some currentTime) in
      match transformStarsForProjection e fuel (stars e)
              (projectionType (view e)) currentTime with
      | None => None
      | Some transformedStars =>
          let e := updateMatrices e in
          match pickHit (pickClosest e mouseX mouseY transformedStars) with
          | Some (s, _) =>
              let e :=
                with_activeStars e
                  (map_set (id (source s))
                     {| star := s; timeCreated := currentTime |}
                     (activeStars e)) in
              render e fuel renderNow
          | None => Some e
          end
      end
  end.

(** *** Dragging: the [mousedown] and [mousemove] listeners *)

(** The variables [isDragging], [lastX] and [lastY] of [bindEvents]. *)
Record Drag : Type := { isDragging : bool; lastX : num; lastY : num }.

Definition onMouseDown (clientX clientY : num) : Drag :=
  {| isDragging := true; lastX := clientX; lastY := clientY |}.

(** The assignments of the [switch (this.projectionType)]. *)
Definition dragView (e : Engine) (deltaX deltaY : num) (shiftKey : bool)
  : View :=
  let v := view e in
  if mode_is e "spherical" then
    with_rotation v (rotation_x v + deltaY * 0.005)%js
                    (rotation_y v + deltaX * 0.005)%js
  else if mode_is e "stereographic" then
    let stereoScaleFactor := (2 / (scale v * width (canvas e)))%js in
    with_pan v (pan_x v + deltaX * stereoScaleFactor)%js
               (pan_y v - deltaY * stereoScaleFactor)%js
  else if mode_is e "hammer" then
    if shiftKey then
      with_hammerRotation v (hammerRotation v + deltaX * 0.005)%js
    else
      let hammerScaleFactor := (2 / (scale v * width (canvas e)))%js in
      with_pan v (pan_x v + deltaX * hammerScaleFactor)%js
                 (pan_y v - deltaY * hammerScaleFactor)%js
  else if mode_is e "mercator" then
    let mercatorScaleFactor := (2 / (scale v * width (canvas e)))%js in
    let p_x := (pan_x v + deltaX * mercatorScaleFactor)%js in
    let newY := (pan_y v - deltaY * mercatorScaleFactor)%js in
    with_pan v p_x (max (min newY (PI / 2)%js) (neg PI / 2)%js)
  else v.

(** The part of the [mousemove] listener after the hover tooltip. *)
Definition onMouseMove (e : Engine) (d : Drag) (fuel : nat)
  (clientX clientY : num) (shiftKey : bool) (renderNow : Date)
  : option (Engine * Drag) :=
  if negb (isDragging d) then Some (e, d)
  else
    let deltaX := (clientX - lastX d)%js in
    let deltaY := (clientY - lastY d)%js in
    let e := with_view e (dragView e deltaX deltaY shiftKey) in
    let d := {| isDragging := isDragging d;
                lastX := clientX; lastY := clientY |} in
    match render e fuel renderNow with
    | Some e' => Some (e', d)
    | None => None
    end.

(** *** Zooming: the [wheel] listener *)

Definition wheelView (e : Engine)
  (deltaY clientX clientY rectLeft rectTop : num) : View :=
  let v := view e in
  if mode_is e "spherical" then
    let zm := (zoom v * (if (deltaY >? 0)%js then 0.9 else 1.1))%js in
    with_zoom v (max 0.1 (min zm 5))
  else
    let zoomFactor : num := if (deltaY >? 0)%js then 0.9 else 1.1 in
    let mouseX := (clientX - rectLeft)%js in
    let mouseY := (clientY - rectTop)%js in
    let ndcX := ((mouseX / width (canvas e)) * 2 - 1)%js in
    let ndcY := (1 - (mouseY / height (canvas e)) * 2)%js in
    let p_x := ((pan_x v - ndcX) * zoomFactor + ndcX)%js in
    let p_y := ((pan_y v - ndcY) * zoomFactor + ndcY)%js in
    let s := (scale v * zoomFactor)%js in
    with_scale (with_pan v p_x p_y) (max 0.1 (min s 10)).

Definition onWheel (e : Engine) (fuel : nat)
  (deltaY clientX clientY rectLeft rectTop : num) (renderNow : Date)
  : option Engine :=
  render (with_view e (wheelView e deltaY clientX clientY rectLeft rectTop))
         fuel renderNow.

(** *** Navigation: [navigateToStar] and its [animate] callback *)

Definition equatorialToCartesian (ra dec : num) : Point3 :=
  let raRad := (ra * PI / 12)%js in
  let decRad := (dec * PI / 180)%js in
  {| x := (cos decRad * cos raRad)%js;
     y := (cos decRad * sin raRad)%js;
     z := sin decRad |}.

(** The constants captured by the [animate] closure.  A target that the
    source leaves [undefined] is [NaN], which is what it becomes in the
    arithmetic of [animate]. *)
Record Animation : Type := {
  startRotX : num; startRotY : num;
  startZoom : num; startScale : num;
  startPanX : num; startPanY : num;
  targetRotX : num; targetRotY : num;
  targetPanX : num; targetPanY : num;
  startTime : num }.

Definition duration : num := 1000.

(** [navigateToStar (star)] for a star that is not null; [performanceNow] is
    the reading of [performance.now ()]. *)
Definition navigateToStar (e : Engine) (s : Star) (performanceNow : num)
  : Animation :=
  let v := view e in
  let raRad := (ra s * PI / 12)%js in
  let decRad := (dec s * PI / 180)%js in
  let '(tRotX, tRotY, tPanX, tPanY) :=
    if mode_is e "spherical" then (neg decRad, neg raRad, Fin 0, Fin 0)
    else
      let c := equatorialToCartesian (ra s) (dec s) in
      match projectPoint e c with
      | Some pos =>
          let canvasWidth := width (canvas e) in
          let canvasHeight := height (canvas e) in
          (rotation_x v, rotation_y v,
           (neg (pos.(sx) - canvasWidth / 2) / (scale v * canvasWidth) * 4)%js,
           ((pos.(sy) - canvasHeight / 2) / (scale v * canvasHeight) * 4)%js)
      | None => (rotation_x v, rotation_y v, NaN, NaN)
      end in
  {| startRotX := rotation_x v; startRotY := rotation_y v;
     startZoom := zoom v; startScale := scale v;
     startPanX := pan_x v; startPanY := pan_y v;
     targetRotX := tRotX; targetRotY := tRotY;
     targetPanX := tPanX; targetPanY := tPanY;
     startTime := performanceNow |}.

(** The assignments of one [animate (currentTime)] call. *)
Definition animateView (a : Animation) (e : Engine) (currentTime : num)
  : View :=
  let v := view e in
  let elapsed := (currentTime - startTime a)%js in
  let progress := min (elapsed / duration)%js 1 in
  let easing := (1 - pow (1 - progress)%js 3)%js in
  let v :=
    if mode_is e "spherical" then
      with_rotation v
        (startRotX a + (targetRotX a - startRotX a) * easing)%js
        (startRotY a + (targetRotY a - startRotY a) * easing)%js
    else
      with_pan v
        (startPanX a + (targetPanX a - startPanX a) * easing)%js
        (startPanY a + (targetPanY a - startPanY a) * easing)%js in
  let v := with_zoom v (startZoom a + (2 - startZoom a) * easing)%js in
  with_scale v (startScale a + (1 - startScale a) * easing)%js.

(** One animation frame: the new state, and whether another frame is
    requested ([progress < 1]). *)
Definition animate (a : Animation) (e : Engine) (fuel : nat)
  (currentTime : num) (renderNow : Date) : option (Engine * bool) :=
  let progress := min ((currentTime - startTime a) / duration)%js 1 in
  let e := with_view e (animateView a e currentTime) in
  let e := updateMatrices e in
  match render e fuel renderNow with
  | Some e' => Some (e', (progress <? 1)%js)
  | None => None
  end.

(** *** Polyline clipper: the path logic of [drawGrid] *)

Inductive PathCmd : Type :=
| BeginPath
| MoveTo (px py : num)
| LineTo (px py : num)
| Stroke.

(** The flag [shouldDraw] for the segment from [lastPos] to [pos]. *)
Definition shouldDraw (type : string) (canvasWidth canvasHeight : num)
  (lastPos : option ScreenPoint) (pos : ScreenPoint) : bool :=
  match lastPos with
  | Some lastPos =>
      let dx := (sx pos - sx lastPos)%js in
      let dy := (sy pos - sy lastPos)%js in
      let distance := sqrt (dx * dx + dy * dy)%js in
      if String.eqb type "hammer" then
        let nx1 := ((sx lastPos / canvasWidth) * 2 - 1)%js in
        let nx2 := ((sx pos / canvasWidth) * 2 - 1)%js in
        let ny1 := ((sy lastPos / canvasHeight) * 2 - 1)%js in
        let ny2 := ((sy pos / canvasHeight) * 2 - 1)%js in
        let r1 := sqrt (nx1 * nx1 + ny1 * ny1)%js in
        let r2 := sqrt (nx2 * nx2 + ny2 * ny2)%js in
        let edgeThreshold : num := 1.15 in
        if (r1 >? edgeThreshold)%js || (r2 >? edgeThreshold)%js
           || (distance >? canvasWidth * 0.4)%js
           || ((nx1 * nx2 <? 0)%js && (abs dx >? canvasWidth * 0.4)%js)
        then false else true
      else if String.eqb type "mercator" then
        if (abs dx >? canvasWidth * 0.8)%js then false else true
      else true
  | None => true
  end.

(** The variables [first] and [lastPos], with the commands issued so far. *)
Record PathState : Type := {
  first : bool;
  lastPos : option ScreenPoint;
  issued : list PathCmd }.

(** One iteration of [line.points.forEach] on the screen position [pos] of
    the point ([None] when [projectPoint] returned null). *)
Definition pathStep (type : string) (canvasWidth canvasHeight : num)
  (st : PathState) (pos : option ScreenPoint) : PathState :=
  match pos with
  | Some p =>
      if first st then
        {| first := false; lastPos := Some p;
           issued := issued st ++ [MoveTo (sx p) (sy p)] |}
      else if shouldDraw type canvasWidth canvasHeight (lastPos st) p then
        {| first := false; lastPos := Some p;
           issued := issued st ++ [LineTo (sx p) (sy p)] |}
      else
        {| first := false; lastPos := Some p;
           issued := issued st ++ [Stroke; BeginPath; MoveTo (sx p) (sy p)] |}
  | None => st
  end.

(** The commands for one grid line, from [ctx.beginPath ()] to the final
    [ctx.stroke ()]. *)
Definition drawPolyline (type : string) (canvasWidth canvasHeight : num)
  (positions : list (option ScreenPoint)) : list PathCmd :=
  issued
    (fold_left (pathStep type canvasWidth canvasHeight) positions
       {| first := true; lastPos := None; issued := [BeginPath] |})
  ++ [Stroke].

(** *** The ranges of the camera parameters *)

(** [zoom] is a number of [[0.1, 5]] and [scale] a number of [[0.1, 10]]. *)
Definition viewInRange (v : View) : Prop :=
  exists zm s : R,
    zoom v = Fin zm /\ 0.1 <= zm <= 5 /\ scale v = Fin s /\ 0.1 <= s <= 10.

(** *** Sample states *)

(** The state the constructor leaves, on a canvas of the given size, before
    any catalog is loaded and before the first [updateMatrices]. *)
Definition constructed (w h : num) : Engine :=
  {| longitude := (-79.3832);
     canvas := {| width := w; height := h;
                  clientWidth := w; clientHeight := h |};
     view := {| rotation_x := 0; rotation_y := 0; zoom := 2;
                pan_x := 0; pan_y := 0; scale := 1;
                hammerRotation := 0; projectionType := "spherical" |};
     stars := None;
     activeStars := [];
     currentRenderTime := None;
     lastClickTime := None;
     currentModelView := identity;
     currentProjection := identity |}.

Definition with_longitude (e : Engine) (l : num) : Engine :=
  {| longitude := l; canvas := canvas e; view := view e;
     stars := stars e; activeStars := activeStars e;
     currentRenderTime := currentRenderTime e;
     lastClickTime := lastClickTime e;
     currentModelView := currentModelView e;
     currentProjection := currentProjection e |}.

Definition inMode (e : Engine) (mode : string) : Engine :=
  with_view e (with_projectionType (view e) mode).

Definition utc (h m s ms : Z) : Date :=
  {| getUTCHours := h; getUTCMinutes := m;
     getUTCSeconds := s; getUTCMilliseconds := ms |}.

Definition catalogStar (name : string) (ra dec : num) : Star :=
  {| id := name; ra := ra; dec := dec; magnitude := 1 |}.

(** A Mercator view of a one-star catalog, last rendered at 00:00 UTC by an
    observer on the Greenwich meridian. *)
Definition clickScenario : Engine :=
  with_currentRenderTime
    (with_stars
       (with_longitude (inMode (constructed 1000 1000) "mercator") 0)
       (Some [catalogStar "s" 12 0]))
    (Some (utc 0 0 0 0)).

(** *** Further parts of the renderer *)

(** The projection switch applied to the special points of the ecliptic in
    [drawGrid]: Cartesian coordinates, replaced by a flat projection when
    [type] names one. *)
Definition specialPointCoords (e : Engine) (fuel : nat) (type : string)
  (raHours decDeg : num) : option Point3 :=
  let coords := equatorialToCartesian raHours decDeg in
  if negb (String.eqb type "spherical") then
    if String.eqb type "stereographic" then
      Some (equatorialToStereographic raHours decDeg)
    else if String.eqb type "mercator" then
      Some (equatorialToMercator e raHours decDeg)
    else if String.eqb type "hammer" then
      equatorialToHammer e fuel raHours decDeg
    else Some coords
  else Some coords.

(** The helper [shouldDrawLine] of [drawHorizon]. *)
Definition shouldDrawLine (e : Engine) (pos1 pos2 : option ScreenPoint)
  : bool :=
  match pos1, pos2 with
  | Some pos1, Some pos2 =>
      let dx := (sx pos2 - sx pos1)%js in
      let dy := (sy pos2 - sy pos1)%js in
      let distance := sqrt (dx * dx + dy * dy)%js in
      let canvasWidth := width (canvas e) in
      let canvasHeight := height (canvas e) in
      if mode_is e "hammer" then
        let nx1 := ((sx pos1 / canvasWidth) * 2 - 1)%js in
        let nx2 := ((sx pos2 / canvasWidth) * 2 - 1)%js in
        let ny1 := ((sy pos1 / canvasHeight) * 2 - 1)%js in
        let ny2 := ((sy pos2 / canvasHeight) * 2 - 1)%js in
        let r1 := sqrt (nx1 * nx1 + ny1 * ny1)%js in
        let r2 := sqrt (nx2 * nx2 + ny2 * ny2)%js in
        let edgeThreshold : num := 1.15 in
        if (r1 >? edgeThreshold)%js || (r2 >? edgeThreshold)%js
           || (distance >? canvasWidth * 0.4)%js
           || ((nx1 * nx2 <? 0)%js && (abs dx >? canvasWidth * 0.4)%js)
        then false else true
      else if mode_is e "mercator" then
        if (abs dx >? canvasWidth * 0.8)%js then false else true
      else true
  | _, _ => false
  end.

(** One iteration of the [forEach] loops of [drawHorizon] (horizon circle,
    altitude circles and azimuth lines share it). *)
Definition horizonPathStep (e : Engine) (st : PathState)
  (pos : option ScreenPoint) : PathState :=
  match pos with
  | Some p =>
      if first st then
        {| first := false; lastPos := Some p;
           issued := issued st ++ [MoveTo (sx p) (sy p)] |}
      else if shouldDrawLine e (lastPos st) (Some p) then
        {| first := false; lastPos := Some p;
           issued := issued st ++ [LineTo (sx p) (sy p)] |}
      else
        {| first := false; lastPos := Some p;
           issued := issued st ++ [Stroke; BeginPath; MoveTo (sx p) (sy p)] |}
  | None => st
  end.

Definition drawHorizonPolyline (e : Engine)
  (positions : list (option ScreenPoint)) : list PathCmd :=
  issued
    (fold_left (horizonPathStep e) positions
       {| first := true; lastPos := None; issued := [BeginPath] |})
  ++ [Stroke].

(** [colorIndexToRGB]: white unless the argument is a number. *)
Definition colorIndexToRGB (colorIndex : value) : num * num * num :=
  match colorIndex with
  | VNumber ci =>
      let r : num := 1 in
      let g : num := 1 in
      let b : num := 1 in
      let '(r, g, b) :=
        if (ci <? 0)%js then
          let g := max 0.2 (1 + ci * 1.2)%js in
          let r := max 0.1 (g * 0.5)%js in
          let b := max 0 (1 - ci)%js in
          let g := max 0 (1 - ci * 0.8)%js in
          (r, g, b)
        else (r, g, b) in
      (max 0 (min 1 r), max 0 (min 1 g), max 0 (min 1 b))
  | _ => (Fin 1, Fin 1, Fin 1)
  end.

(** The [mouseup] and [mouseleave] listeners. *)
Definition onMouseUp (d : Drag) : Drag :=
  {| isDragging := false; lastX := lastX d; lastY := lastY d |}.

(** The [mousemove] listener run on the successive pointer positions
    [moves] of one gesture. *)
Fixpoint dragAlong (e : Engine) (d : Drag) (fuel : nat) (shiftKey : bool)
  (renderNow : Date) (moves : list (num * num)) : option (Engine * Drag) :=
  match moves with
  | [] => Some (e, d)
  | (clientX, clientY) :: rest =>
      match onMouseMove e d fuel clientX clientY shiftKey renderNow with
      | Some (e', d') => dragAlong e' d' fuel shiftKey renderNow rest
      | None => None
      end
  end.

(** *** Reading a command list *)

(** The positions for which [projectPoint] returned a point. *)
Definition projected (positions : list (option ScreenPoint))
  : list ScreenPoint :=
  flat_map (fun pos => match pos with Some p => [p] | None => [] end)
    positions.

(** The points the pen is sent to, in order. *)
Fixpoint penPoints (cmds : list PathCmd) : list ScreenPoint :=
  match cmds with
  | [] => []
  | MoveTo a b :: r => {| sx := a; sy := b |} :: penPoints r
  | LineTo a b :: r => {| sx := a; sy := b |} :: penPoints r
  | _ :: r => penPoints r
  end.

(** A command list is well formed when it is a sequence of sub-paths
    [BeginPath; MoveTo; LineTo ...; Stroke] (or the empty [BeginPath; Stroke]):
    every [LineTo] continues a sub-path that was opened by a [MoveTo]. *)
Inductive PenState : Type := Idle | Begun | Drawing.

Definition penStep (s : option PenState) (c : PathCmd) : option PenState :=
  match s, c with
  | Some Idle, BeginPath => Some Begun
  | Some Begun, MoveTo _ _ => Some Drawing
  | Some Begun, Stroke => Some Idle
  | Some Drawing, LineTo _ _ => Some Drawing
  | Some Drawing, Stroke => Some Idle
  | _, _ => None
  end.

Definition penRun (cmds : list PathCmd) : option PenState :=
  fold_left penStep cmds (Some Idle).

Definition wellFormedPath (cmds : list PathCmd) : bool :=
  match penRun cmds with Some Idle => true | _ => false end.

(** *** The earlier version of the flat projections

    [js/skyRenderer.js] holds the renderer before the sidereal rotation and
    the camera offsets were added; its Mercator and Hammer projections take
    the catalog coordinates as they are. *)

Module Legacy.

Definition equatorialToMercator (ra dec : num) : Point3 :=
  let raRad := ((ra * 15 - 180) * PI / 180)%js in
  let decRad := max (min (dec * PI / 180)%js 1.4835) (-1.4835) in
  {| x := raRad;
     y := log (tan (PI / 4 + decRad / 2)%js);
     z := 0 |}.

Definition equatorialToHammer (ra dec : num) : Point3 :=
  let raRad := ((ra * 15 - 180) * PI / 180)%js in
  let decRad := (dec * PI / 180)%js in
  let cosDecSinRaHalf := (cos decRad * sin (raRad / 2))%js in
  let z := sqrt (1 + cos decRad * cos (raRad / 2)%js)%js in
  {| x := (2 * sqrt 2 * cosDecSinRaHalf / z)%js;
     y := (sqrt 2 * sin decRad / z)%js;
     z := 0 |}.

End Legacy.

End Sky.

(** ** Facts about the number model *)

Module JSFacts.
Import JS.

Lemma Rltb_true_iff (a b : R) : Rltb a b = true <-> a < b.
Proof. unfold Rltb; destruct (Rlt_dec a b); split; intros; auto; discriminate. Qed.

Lemma Rltb_false_iff (a b : R) : Rltb a b = false <-> b <= a.
Proof.
  unfold Rltb; destruct (Rlt_dec a b); split; intros; auto; try discriminate; lra.
Qed.

Lemma Rleb_true_iff (a b : R) : Rleb a b = true <-> a <= b.
Proof. unfold Rleb; destruct (Rle_dec a b); split; intros; auto; discriminate. Qed.

Lemma Rleb_false_iff (a b : R) : Rleb a b = false <-> b < a.
Proof.
  unfold Rleb; destruct (Rle_dec a b); split; intros; auto; try discriminate; lra.
Qed.

Lemma Reqb_true_iff (a b : R) : Reqb a b = true <-> a = b.
Proof. unfold Reqb; destruct (Req_dec_T a b); split; intros; auto; discriminate. Qed.

Lemma Reqb_false_iff (a b : R) : Reqb a b = false <-> a <> b.
Proof.
  unfold Reqb; destruct (Req_dec_T a b); split; intros; auto; try discriminate.
  contradiction.
Qed.

(** Operations on finite operands stay finite when the real operation is
    defined. *)
Lemma div_fin (a b : R) : b <> 0 -> div (Fin a) (Fin b) = Fin (a / b).
Proof. intros Hb; simpl; destruct (Req_dec_T b 0); [contradiction | reflexivity]. Qed.

Lemma div_fin_zero (a : R) : 0 < a -> div (Fin a) (Fin 0) = PInf.
Proof.
  intros Ha; simpl. destruct (Req_dec_T 0 0) as [_ | H]; [| now elim H].
  destruct (Req_dec_T a 0); [lra |].
  unfold inf_of_sign; destruct (Rlt_dec 0 a); [reflexivity | lra].
Qed.

Lemma rem_fin (a b : R) : b <> 0 -> rem (Fin a) (Fin b) = Fin (Rfmod a b).
Proof. intros Hb; simpl; destruct (Req_dec_T b 0); [contradiction | reflexivity]. Qed.

Lemma sqrt_fin (a : R) : 0 <= a -> sqrt (Fin a) = Fin (R_sqrt.sqrt a).
Proof. intros Ha; simpl; destruct (Rlt_dec a 0); [lra | reflexivity]. Qed.

Lemma tan_fin (a : R) :
  Rtrigo_def.cos a <> 0 -> tan (Fin a) = Fin (Rtrigo1.tan a).
Proof.
  intros Ha; simpl.
  destruct (Req_dec_T (Rtrigo_def.cos a) 0); [contradiction | reflexivity].
Qed.

Lemma log_fin (a : R) : 0 < a -> log (Fin a) = Fin (ln a).
Proof.
  intros Ha; simpl. destruct (Rlt_dec a 0); [lra |].
  destruct (Req_dec_T a 0); [lra | reflexivity].
Qed.

(** [NaN] absorbs the arithmetic. *)
Lemma add_NaN_l (a : num) : add NaN a = NaN.
Proof. destruct a; reflexivity. Qed.

Lemma add_NaN_r (a : num) : add a NaN = NaN.
Proof. destruct a; reflexivity. Qed.

Lemma mul_NaN_l (a : num) : mul NaN a = NaN.
Proof. destruct a; reflexivity. Qed.

Lemma mul_NaN_r (a : num) : mul a NaN = NaN.
Proof. destruct a; reflexivity. Qed.

(** Truncation and remainder. *)
Lemma Int_part_bounds (x : R) : IZR (Int_part x) <= x < IZR (Int_part x) + 1.
Proof. destruct (base_Int_part x); lra. Qed.

Lemma Rtrunc_nonneg (x : R) :
  0 <= x -> IZR (Rtrunc x) <= x < IZR (Rtrunc x) + 1.
Proof.
  intros Hx; unfold Rtrunc. destruct (Rle_dec 0 x); [| lra].
  apply Int_part_bounds.
Qed.

Lemma Rtrunc_neg (x : R) :
  x < 0 -> IZR (Rtrunc x) - 1 < x <= IZR (Rtrunc x).
Proof.
  intros Hx; unfold Rtrunc. destruct (Rle_dec 0 x); [lra |].
  rewrite opp_IZR. pose proof (Int_part_bounds (- x)). lra.
Qed.

Lemma Rtrunc_unique (x : R) (k : Z) :
  (0 <= x -> IZR k <= x < IZR k + 1) ->
  (x < 0 -> IZR k - 1 < x <= IZR k) ->
  Rtrunc x = k.
Proof.
  intros Hp Hn.
  destruct (Rle_dec 0 x) as [H | H].
  - pose proof (Rtrunc_nonneg x H) as B. specialize (Hp H).
    destruct (Z.eq_dec (Rtrunc x) k) as [| Hne]; [assumption | exfalso].
    assert (Rtrunc x < k \/ k < Rtrunc x)%Z as [L | L] by lia.
    + assert (Rtrunc x + 1 <= k)%Z as L' by lia.
      apply IZR_le in L'. rewrite plus_IZR in L'. lra.
    + assert (k + 1 <= Rtrunc x)%Z as L' by lia.
      apply IZR_le in L'. rewrite plus_IZR in L'. lra.
  - assert (x < 0) as H' by lra.
    pose proof (Rtrunc_neg x H') as B. specialize (Hn H').
    destruct (Z.eq_dec (Rtrunc x) k) as [| Hne]; [assumption | exfalso].
    assert (Rtrunc x < k \/ k < Rtrunc x)%Z as [L | L] by lia.
    + assert (Rtrunc x <= k - 1)%Z as L' by lia.
      apply IZR_le in L'. rewrite minus_IZR in L'. lra.
    + assert (k <= Rtrunc x - 1)%Z as L' by lia.
      apply IZR_le in L'. rewrite minus_IZR in L'. lra.
Qed.

Lemma Rfmod_nonneg (x y : R) : 0 < y -> 0 <= x -> 0 <= Rfmod x y < y.
Proof.
  intros Hy Hx. unfold Rfmod.
  assert (0 < / y) as Hi by (apply Rinv_0_lt_compat; lra).
  assert (0 <= x / y) as Hq by (unfold Rdiv; nra).
  pose proof (Rtrunc_nonneg (x / y) Hq) as B.
  assert (x = x / y * y) as E by (field; lra).
  set (q := x / y) in *. set (t := IZR (Rtrunc q)) in *.
  rewrite E. split; nra.
Qed.

Lemma Rfmod_neg (x y : R) : 0 < y -> x < 0 -> - y < Rfmod x y <= 0.
Proof.
  intros Hy Hx. unfold Rfmod.
  assert (0 < / y) as Hi by (apply Rinv_0_lt_compat; lra).
  assert (x / y < 0) as Hq by (unfold Rdiv; nra).
  pose proof (Rtrunc_neg (x / y) Hq) as B.
  assert (x = x / y * y) as E by (field; lra).
  set (q := x / y) in *. set (t := IZR (Rtrunc q)) in *.
  rewrite E. split; nra.
Qed.

Lemma Rfmod_bounds (x y : R) : 0 < y -> - y < Rfmod x y < y.
Proof.
  intros Hy. destruct (Rle_dec 0 x).
  - pose proof (Rfmod_nonneg x y Hy ltac:(assumption)). lra.
  - pose proof (Rfmod_neg x y Hy ltac:(lra)). lra.
Qed.

Lemma Rfmod_eq (x y : R) (k : Z) :
  0 < y ->
  (0 <= x -> IZR k * y <= x < (IZR k + 1) * y) ->
  (x < 0 -> (IZR k - 1) * y < x <= IZR k * y) ->
  Rfmod x y = x - IZR k * y.
Proof.
  intros Hy Hp Hn. unfold Rfmod.
  assert (x = x / y * y) as E by (field; lra).
  assert (/ y > 0) as Hi by (apply Rinv_0_lt_compat; lra).
  rewrite (Rtrunc_unique (x / y) k); [reflexivity | |].
  - intros Hq. assert (0 <= x) as Hx by (rewrite E; nra).
    specialize (Hp Hx). set (q := x / y) in *. split; nra.
  - intros Hq. assert (x < 0) as Hx by (rewrite E; nra).
    specialize (Hn Hx). set (q := x / y) in *. split; nra.
Qed.

Lemma Rfmod_small (x y : R) : 0 < y -> - y < x < y -> Rfmod x y = x.
Proof.
  intros Hy Hx. rewrite (Rfmod_eq x y 0 Hy); [lra | intros; lra | intros; lra].
Qed.

(** The idiom [((v % 360) + 360) % 360] lands in [[0, 360)]. *)
Lemma Rfmod_twice_range (v : R) :
  0 <= Rfmod (Rfmod v 360 + 360) 360 < 360.
Proof.
  pose proof (Rfmod_bounds v 360 ltac:(lra)).
  apply Rfmod_nonneg; lra.
Qed.

(** Bounds on [PI] from the Machin-like series of the library. *)
Lemma PI_lower : 3.14153 < Rtrigo1.PI.
Proof.
  pose proof (PI_2_3_7_ineq 2) as [H _].
  unfold sum_f_R0, tg_alt, PI_2_3_7_tg, Ratan_seq in H.
  simpl in H. lra.
Qed.

Lemma PI_upper : Rtrigo1.PI < 3.1416.
Proof.
  pose proof (PI_2_3_7_ineq 2) as [_ H].
  unfold sum_f_R0, tg_alt, PI_2_3_7_tg, Ratan_seq in H.
  simpl in H. lra.
Qed.

End JSFacts.

(** ** Facts about the renderer *)

Import Sky JSFacts.

Abbreviation Fin := JS.Fin.
Abbreviation NaN := JS.NaN.
Abbreviation PInf := JS.PInf.
Abbreviation NInf := JS.NInf.

(** *** The pipeline always returns: one unit of fuel is enough *)

Lemma totalHours_fin (t : Date) :
  totalHours t =
  Fin (IZR (getUTCHours t) + IZR (getUTCMinutes t) / 60
       + IZR (getUTCSeconds t) / 3600
       + IZR (getUTCMilliseconds t) / 3600000).
Proof.
  unfold totalHours, JS.ofZ. rewrite !div_fin by lra. reflexivity.
Qed.

Lemma localSiderealTime_fin (e : Engine) (t : Date) (l : R) :
  longitude e = Fin l ->
  localSiderealTime e t =
  Fin ((IZR (getUTCHours t) + IZR (getUTCMinutes t) / 60
        + IZR (getUTCSeconds t) / 3600
        + IZR (getUTCMilliseconds t) / 3600000) * 15 + l).
Proof.
  intros Hl. unfold localSiderealTime. rewrite totalHours_fin, Hl. reflexivity.
Qed.

Lemma rotatedRA_fin (lst r : R) (s : Star) :
  ra s = Fin r ->
  rotatedRA (Fin lst) s = Fin (JS.Rfmod (r * 15 - lst + 360) 360).
Proof.
  intros Hr. unfold rotatedRA. rewrite Hr. cbn [JS.mul JS.sub JS.add JS.neg].
  rewrite rem_fin by lra. reflexivity.
Qed.

(** Whatever the inputs, [starRA] is [NaN] or lies strictly between -360 and
    360. *)
Lemma rotatedRA_cases (lst : JS.num) (s : Star) :
  rotatedRA lst s = NaN \/
  exists r, rotatedRA lst s = Fin r /\ -360 < r < 360.
Proof.
  unfold rotatedRA.
  destruct (JS.add (JS.sub (JS.mul (ra s) (Fin 15)) lst) (Fin 360)) as [v | | |];
    try (left; reflexivity).
  right. rewrite rem_fin by lra. eexists; split; [reflexivity |].
  apply Rfmod_bounds; lra.
Qed.

Lemma whileAbove360_done (fuel : nat) (v : JS.num) :
  JS.gt v (Fin 360) = false -> whileAbove360 fuel v = Some v.
Proof. intros H. destruct fuel; cbn [whileAbove360 whileBelow0]; rewrite H; reflexivity. Qed.

Lemma whileBelow0_done (fuel : nat) (v : JS.num) :
  JS.lt v (Fin 0) = false -> whileBelow0 fuel v = Some v.
Proof. intros H. destruct fuel; cbn [whileAbove360 whileBelow0]; rewrite H; reflexivity. Qed.

Lemma hammer_of_rotated_total (e : Engine) (fuel : nat) (v dec : JS.num) :
  v = NaN \/ (exists r, v = Fin r /\ -360 < r < 360) ->
  exists p, equatorialToHammer e (S fuel) (JS.div v (Fin 15)) dec = Some p.
Proof.
  intros [-> | (r & -> & Hr)]; unfold equatorialToHammer.
  - cbn [JS.div JS.mul]. rewrite whileAbove360_done by reflexivity.
    rewrite whileBelow0_done by reflexivity.
    destruct (JS.seq _ _); eexists; reflexivity.
  - rewrite div_fin by lra. cbn [JS.mul].
    rewrite whileAbove360_done
      by (unfold JS.gt; cbn [JS.lt]; apply Rltb_false_iff; lra).
    destruct (Rlt_dec (r / 15 * 15) 0) as [Hn | Hn].
    + cbn [whileBelow0 JS.lt].
      rewrite (proj2 (Rltb_true_iff _ _) Hn).
      rewrite whileBelow0_done
        by (cbn [JS.add JS.lt]; apply Rltb_false_iff; lra).
      destruct (JS.seq _ _); eexists; reflexivity.
    + rewrite whileBelow0_done
        by (cbn [JS.lt]; apply Rltb_false_iff; lra).
      destruct (JS.seq _ _); eexists; reflexivity.
Qed.

Lemma transformStar_total (e : Engine) (fuel : nat) (type : string)
  (lst : JS.num) (s : Star) :
  exists ts, transformStar e (S fuel) type lst s = Some ts /\ source ts = s.
Proof.
  unfold transformStar.
  destruct (String.eqb type "stereographic");
    [eexists; split; reflexivity |].
  destruct (String.eqb type "mercator");
    [eexists; split; reflexivity |].
  destruct (String.eqb type "hammer");
    [| eexists; split; reflexivity].
  destruct (hammer_of_rotated_total e fuel (rotatedRA lst s) (dec s)) as [p Hp].
  { destruct (rotatedRA_cases lst s); auto. }
  rewrite Hp. eexists; split; reflexivity.
Qed.

Lemma mapOpt_total {A B : Type} (f : A -> option B) (l : list A) :
  (forall a, exists b, f a = Some b) ->
  exists bs, mapOpt f l = Some bs /\ List.length bs = List.length l.
Proof.
  intros Hf. induction l as [| a l IH]; simpl.
  - exists []. split; reflexivity.
  - destruct (Hf a) as [b ->]. destruct IH as (bs & -> & Hlen).
    exists (b :: bs). split; [reflexivity | simpl; congruence].
Qed.

Lemma transformStarsForProjection_total (e : Engine) (fuel : nat)
  (l : option (list Star)) (type : string) (t : Date) :
  exists ts, transformStarsForProjection e (S fuel) l type t = Some ts.
Proof.
  unfold transformStarsForProjection.
  destruct l as [[| s l] |]; try (eexists; reflexivity).
  destruct (mapOpt_total (transformStar e (S fuel) type (localSiderealTime e t))
              (s :: l)) as (bs & Hbs & _).
  { intros a. destruct (transformStar_total e fuel type
                          (localSiderealTime e t) a) as (ts & H & _).
    eauto. }
  eauto.
Qed.

(** *** The two normalisation loops of [equatorialToHammer] *)

Lemma nat_above (x : R) : exists k : nat, x <= INR k.
Proof.
  destruct (archimed x) as [Hup _].
  exists (Z.to_nat (up x)).
  destruct (Z_lt_le_dec (up x) 0) as [Hneg | Hpos].
  - apply IZR_lt in Hneg. pose proof (pos_INR (Z.to_nat (up x))). lra.
  - rewrite INR_IZR_INZ, Z2Nat.id by assumption. lra.
Qed.

Lemma whileAbove360_fin (k : nat) :
  forall (x : R) (fuel : nat),
    x <= 360 * (INR k + 1) -> (k <= fuel)%nat ->
    exists (y : R) (j : Z),
      whileAbove360 fuel (Fin x) = Some (Fin y) /\
      x = y + 360 * IZR j /\ y <= 360 /\ (0 <= x -> 0 <= y).
Proof.
  induction k as [| k IH]; intros x fuel Hx Hfuel.
  - exists x, 0%Z. simpl in Hx.
    rewrite whileAbove360_done
      by (unfold JS.gt; cbn [JS.lt]; apply Rltb_false_iff; lra).
    repeat split; try lra.
  - destruct (Rlt_dec 360 x) as [Hgt | Hle].
    + destruct fuel as [| fuel]; [lia |].
      cbn [whileAbove360]. unfold JS.gt; cbn [JS.lt].
      rewrite (proj2 (Rltb_true_iff _ _) Hgt).
      cbn [JS.sub JS.add JS.neg].
      rewrite S_INR in Hx.
      destruct (IH (x + - 360) fuel ltac:(lra) ltac:(lia))
        as (y & j & Hw & Hc & Hy & Hp).
      exists y, (j + 1)%Z. rewrite plus_IZR.
      repeat split; try assumption; try lra;
        intros _; apply Hp; lra.
    + exists x, 0%Z.
      rewrite whileAbove360_done
        by (unfold JS.gt; cbn [JS.lt]; apply Rltb_false_iff; lra).
      repeat split; try lra.
Qed.

Lemma whileBelow0_fin (k : nat) :
  forall (x : R) (fuel : nat),
    - (360 * INR k) <= x -> (k <= fuel)%nat ->
    exists (y : R) (j : Z),
      whileBelow0 fuel (Fin x) = Some (Fin y) /\
      x = y + 360 * IZR j /\ 0 <= y /\ (x <= 360 -> y <= 360).
Proof.
  induction k as [| k IH]; intros x fuel Hx Hfuel.
  - exists x, 0%Z. simpl in Hx.
    rewrite whileBelow0_done by (cbn [JS.lt]; apply Rltb_false_iff; lra).
    repeat split; try lra.
  - destruct (Rlt_dec x 0) as [Hlt | Hge].
    + destruct fuel as [| fuel]; [lia |].
      cbn [whileBelow0 JS.lt].
      rewrite (proj2 (Rltb_true_iff _ _) Hlt).
      cbn [JS.add].
      rewrite S_INR in Hx.
      destruct (IH (x + 360) fuel ltac:(lra) ltac:(lia))
        as (y & j & Hw & Hc & Hy & Hp).
      exists y, (j - 1)%Z. rewrite minus_IZR.
      repeat split; try assumption; try lra;
        intros _; apply Hp; lra.
    + exists x, 0%Z.
      rewrite whileBelow0_done by (cbn [JS.lt]; apply Rltb_false_iff; lra).
      repeat split; try lra.
Qed.

(** Both loops in sequence: for a finite argument there is an amount of fuel
    from which they return, with a value in [[0, 360]] that differs from the
    argument by a whole number of turns. *)
Lemma normalisation_loops (x : R) :
  exists fuel0 : nat, forall fuel, (fuel0 <= fuel)%nat ->
    exists (y z : R) (j : Z),
      whileAbove360 fuel (Fin x) = Some (Fin y) /\
      whileBelow0 fuel (Fin y) = Some (Fin z) /\
      x = z + 360 * IZR j /\ 0 <= z <= 360.
Proof.
  destruct (nat_above (Rabs x / 360)) as [k Hk].
  assert (Rabs x <= 360 * INR k) as Hk'.
  { apply Rmult_le_compat_l with (r := 360) in Hk; [| lra].
    replace (360 * (Rabs x / 360)) with (Rabs x) in Hk by (field; lra).
    exact Hk. }
  pose proof (Rle_abs x) as Ha. pose proof (Rle_abs (- x)) as Hb.
  rewrite Rabs_Ropp in Hb.
  exists k. intros fuel Hfuel.
  destruct (whileAbove360_fin k x fuel ltac:(lra) Hfuel)
    as (y & j1 & Hw1 & Hc1 & Hy & Hp).
  assert (- (360 * INR k) <= y) as Hlow.
  { destruct (Rle_dec 0 x) as [Hx | Hx].
    - specialize (Hp Hx). pose proof (pos_INR k). lra.
    - assert (y = x) as ->; [| lra].
      rewrite whileAbove360_done in Hw1
        by (unfold JS.gt; cbn [JS.lt]; apply Rltb_false_iff; lra).
      congruence. }
  destruct (whileBelow0_fin k y fuel Hlow Hfuel)
    as (z & j2 & Hw2 & Hc2 & Hz & Hq).
  exists y, z, (j1 + j2)%Z. rewrite plus_IZR.
  repeat split; try assumption; try lra; apply Hq; exact Hy.
Qed.







(** *** Evaluating the arithmetic on finite operands *)

Lemma add_fin (a b : R) : JS.add (Fin a) (Fin b) = Fin (a + b).
Proof. reflexivity. Qed.

Lemma sub_fin (a b : R) : JS.sub (Fin a) (Fin b) = Fin (a - b).
Proof. reflexivity. Qed.

Lemma mul_fin (a b : R) : JS.mul (Fin a) (Fin b) = Fin (a * b).
Proof. reflexivity. Qed.

Lemma neg_fin (a : R) : JS.neg (Fin a) = Fin (- a).
Proof. reflexivity. Qed.

Lemma cos_fin (a : R) : JS.cos (Fin a) = Fin (cos a).
Proof. reflexivity. Qed.

Lemma sin_fin (a : R) : JS.sin (Fin a) = Fin (sin a).
Proof. reflexivity. Qed.

Lemma abs_fin (a : R) : JS.abs (Fin a) = Fin (Rabs a).
Proof. reflexivity. Qed.

Lemma max_fin (a b : R) : JS.max (Fin a) (Fin b) = Fin (Rmax a b).
Proof. reflexivity. Qed.

Lemma min_fin (a b : R) : JS.min (Fin a) (Fin b) = Fin (Rmin a b).
Proof. reflexivity. Qed.

Lemma sum_squares_nonneg (a b : R) : 0 <= a * a + b * b.
Proof. nra. Qed.

Ltac js_side :=
  first [ assumption | lra | apply PI_neq0 | (pose proof PI_RGT_0; lra)
        | apply sum_squares_nonneg ].

Create Rewrite HintDb js_fin.
#[local] Hint Rewrite add_fin sub_fin mul_fin neg_fin cos_fin sin_fin
  abs_fin max_fin min_fin : js_fin.
#[local] Hint Rewrite div_fin rem_fin sqrt_fin using js_side : js_fin.

Ltac js_fin :=
  unfold JS.PI, JS.ofZ; cbn [JS.pow]; autorewrite with js_fin.

(** *** Hammer-Aitoff *)

Lemma hammer_radicand_nonneg (a b : R) : 0 <= 1 + cos a * cos b.
Proof. pose proof (COS_bound a). pose proof (COS_bound b). nra. Qed.

(** The result of [equatorialToHammer] once the two loops have returned. *)
Lemma hammer_after_loops (e : Engine) (fuel : nat) (a d h y z : R) :
  hammerRotation (view e) = Fin h ->
  whileAbove360 fuel (Fin (a * 15)) = Some (Fin y) ->
  whileBelow0 fuel (Fin y) = Some (Fin z) ->
  let turned :=
    if mode_is e "hammer" && JS.sneq (Fin h) (Fin 0)
    then JS.Rfmod (z + h * 180 / PI) 360 else z in
  let n := JS.Rfmod (turned + 180) 360 - 180 in
  let alpha := n * PI / 180 / 2 in
  let delta := d * PI / 180 in
  let denom := sqrt (1 + cos delta * cos alpha) in
  equatorialToHammer e fuel (Fin a) (Fin d) =
  Some (if Req_dec_T denom 0
        then {| x := Fin 0; y := Fin 0; z := Fin 0 |}
        else {| x := Fin (2 * sqrt 2 * cos delta * sin alpha / denom);
                y := Fin (sqrt 2 * sin delta / denom);
                z := Fin 0 |}).
Proof.
  intros Hh Hw1 Hw2 turned n alpha delta denom.
  unfold equatorialToHammer. cbn [JS.mul]. rewrite Hw1, Hw2, Hh.
  assert ((if mode_is e "hammer" && JS.sneq (Fin h) (Fin 0)
           then JS.rem (JS.add (Fin z)
                          (JS.div (JS.mul (Fin h) (Fin 180)) JS.PI)) (Fin 360)
           else Fin z) = Fin turned) as ->.
  { unfold turned. destruct (mode_is e "hammer" && JS.sneq (Fin h) (Fin 0));
      [js_fin |]; reflexivity. }
  subst n alpha delta denom. js_fin.
  rewrite sqrt_fin by apply hammer_radicand_nonneg.
  cbn [JS.seq]. unfold JS.Reqb.
  match goal with
  | |- context [Req_dec_T ?u 0] => destruct (Req_dec_T u 0) as [Hz | Hnz]
  end; [reflexivity |].
  js_fin. reflexivity.
Qed.







(** The guard is not dead code: at ra = 0 h, dec = 180 degrees the
    denominator is [sqrt (1 + cos PI * cos 0) = 0] and the origin is
    returned. *)
Example hammer_guard_at_dec_180 :
  equatorialToHammer (inMode (constructed (Fin 1000) (Fin 1000)) "hammer")
    0 (Fin 0) (Fin 180)
  = Some {| x := Fin 0; y := Fin 0; z := Fin 0 |}.
Proof.
  set (e := inMode (constructed (Fin 1000) (Fin 1000)) "hammer").
  pose proof (hammer_after_loops e 0 0 180 0 (0 * 15) (0 * 15)
                eq_refl) as E.
  rewrite whileAbove360_done in E
    by (unfold JS.gt; cbn [JS.lt]; apply Rltb_false_iff; lra).
  rewrite whileBelow0_done in E
    by (cbn [JS.lt]; apply Rltb_false_iff; lra).
  specialize (E eq_refl eq_refl). cbv zeta in E.
  assert (JS.sneq (Fin 0) (Fin 0) = false) as Hs.
  { unfold JS.sneq. cbn [JS.seq].
    rewrite (proj2 (Reqb_true_iff 0 0) eq_refl). reflexivity. }
  rewrite Hs, andb_false_r in E.
  assert (JS.Rfmod (0 * 15 + 180) 360 - 180 = 0) as Hn
    by (rewrite Rfmod_small; lra).
  rewrite Hn in E.
  replace (0 * PI / 180 / 2) with 0 in E by lra.
  replace (180 * PI / 180) with PI in E by (field; lra).
  rewrite cos_PI, cos_0 in E.
  replace (1 + -1 * 1) with 0 in E by lra.
  rewrite sqrt_0 in E.
  destruct (Req_dec_T 0 0) as [_ | H00]; [exact E | now elim H00].
Qed.


(** *** Stereographic *)

Lemma projectPoint_NaN (e : Engine) (c : JS.num) :
  projectPoint e {| x := NaN; y := NaN; z := c |}
  = Some {| sx := NaN; sy := NaN |}.
Proof.
  unfold projectPoint, GlMatrix.transformMat4. cbv zeta.
  cbn [x y z GlMatrix.v0 GlMatrix.v1 GlMatrix.v2 GlMatrix.v3].
  rewrite !mul_NaN_r, !add_NaN_r, !add_NaN_l.
  cbn [JS.le JS.neg JS.div JS.add].
  rewrite !mul_NaN_l. reflexivity.
Qed.

(** C7, at the failing input: [equatorialToStereographic] has no guard, so
    at ra = 12 h, dec = 0, where [cos dec * cos ra = -1], the factor [k] is
    [2 / 0], an infinity, and the components [x] and [y] are not finite; no
    sentinel is returned, and [projectPoint] passes the point on as a
    position whose coordinates are [NaN], whatever the matrices. *)
Theorem equatorialToStereographic_antipode_not_finite :
  JS.div (Fin 2) (Fin (1 + cos (0 * PI / 180) * cos (12 * 15 * PI / 180)))
    = PInf /\
  equatorialToStereographic (Fin 12) (Fin 0)
    = {| x := NaN; y := NaN; z := Fin 0 |} /\
  forall e : Engine,
    projectPoint e (equatorialToStereographic (Fin 12) (Fin 0))
    = Some {| sx := NaN; sy := NaN |}.
Proof.
  assert (12 * 15 * PI / 180 = PI) as Hra by (field; lra).
  assert (0 * PI / 180 = 0) as Hdec by lra.
  assert (JS.div (Fin 2)
            (Fin (1 + cos (0 * PI / 180) * cos (12 * 15 * PI / 180))) = PInf)
    as Hk.
  { rewrite Hra, Hdec, cos_0, cos_PI.
    replace (1 + 1 * -1) with 0 by lra. apply div_fin_zero. lra. }
  assert (equatorialToStereographic (Fin 12) (Fin 0)
          = {| x := NaN; y := NaN; z := Fin 0 |}) as Hs.
  { unfold equatorialToStereographic. js_fin. rewrite Hk.
    rewrite Hra, Hdec, cos_0, sin_0, sin_PI.
    cbn [JS.mul]. unfold JS.inf_of_sign.
    destruct (Req_dec_T 1 0) as [H10 | _]; [lra |].
    destruct (Rlt_dec 0 1) as [_ | H01]; [| lra].
    cbn [JS.mul].
    destruct (Req_dec_T 0 0) as [_ | H00]; [reflexivity | now elim H00]. }
  split; [exact Hk |]. split; [exact Hs |].
  intros e. rewrite Hs. apply projectPoint_NaN.
Qed.

(** *** Mercator *)

Lemma mercator_angle_range (c : R) :
  -1.4835 <= c <= 1.4835 -> 0 < PI / 4 + c / 2 < PI / 2.
Proof. intros Hc. pose proof PI_lower. lra. Qed.

Lemma clamp_range (v lo hi : R) :
  lo <= hi -> lo <= Rmax (Rmin v hi) lo <= hi.
Proof.
  intros H. unfold Rmax, Rmin.
  destruct (Rle_dec v hi); destruct (Rle_dec _ lo); lra.
Qed.

Lemma clamp_above (v lo hi : R) :
  lo <= hi -> hi <= v -> Rmax (Rmin v hi) lo = hi.
Proof.
  intros H Hv. unfold Rmax, Rmin.
  destruct (Rle_dec v hi); destruct (Rle_dec _ lo); lra.
Qed.

(** The value of [equatorialToMercator] on finite arguments. *)
Lemma equatorialToMercator_fin (e : Engine) (a d p : R) :
  pan_x (view e) = Fin p ->
  equatorialToMercator e (Fin a) (Fin d)
  = {| x := Fin ((JS.Rfmod
                    (JS.Rfmod (if mode_is e "mercator"
                               then a * 15 - p * 180 / PI else a * 15) 360
                     + 360) 360 - 180) * PI / 180);
       y := Fin (ln (tan (PI / 4
                          + Rmax (Rmin (d * PI / 180) 1.4835) (-1.4835) / 2)));
       z := Fin 0 |}.
Proof.
  intros Hp. unfold equatorialToMercator. rewrite Hp.
  pose proof (clamp_range (d * PI / 180) (-1.4835) 1.4835 ltac:(lra)) as Hc.
  apply mercator_angle_range in Hc.
  assert ((if mode_is e "mercator"
           then JS.sub (JS.mul (Fin a) (Fin 15))
                  (JS.div (JS.mul (Fin p) (Fin 180)) JS.PI)
           else JS.mul (Fin a) (Fin 15))
          = Fin (if mode_is e "mercator"
                 then a * 15 - p * 180 / PI else a * 15)) as ->.
  { destruct (mode_is e "mercator"); js_fin; reflexivity. }
  js_fin.
  rewrite tan_fin
    by (apply Rgt_not_eq, cos_gt_0; pose proof PI_RGT_0; lra).
  rewrite log_fin by (apply tan_gt_0; lra).
  reflexivity.
Qed.

(** C6: [equatorialToMercator] subtracts the pan offset (in degrees) from
    [ra * 15] when Mercator is the active mode, brings the result into
    [[0, 360)], clamps the declination to +-1.4835 rad and returns
    [y = ln (tan (PI / 4 + dec / 2))], a finite triple; a declination of 89
    degrees gives exactly the point that 85 degrees gives. *)
Theorem equatorialToMercator_wrap_and_clamp (e : Engine) (a d p : R) :
  pan_x (view e) = Fin p ->
  let shifted := if mode_is e "mercator" then a * 15 - p * 180 / PI
                 else a * 15 in
  let n := JS.Rfmod (JS.Rfmod shifted 360 + 360) 360 in
  let decRad := Rmax (Rmin (d * PI / 180) 1.4835) (-1.4835) in
  0 <= n < 360 /\
  -1.4835 <= decRad <= 1.4835 /\
  equatorialToMercator e (Fin a) (Fin d)
    = {| x := Fin ((n - 180) * PI / 180);
         y := Fin (ln (tan (PI / 4 + decRad / 2)));
         z := Fin 0 |} /\
  equatorialToMercator e (Fin a) (Fin 89)
    = equatorialToMercator e (Fin a) (Fin 85).
Proof.
  intros Hp shifted n decRad.
  split; [apply Rfmod_twice_range |].
  split; [apply clamp_range; lra |].
  split; [apply equatorialToMercator_fin; exact Hp |].
  rewrite (equatorialToMercator_fin e a 89 p Hp).
  rewrite (equatorialToMercator_fin e a 85 p Hp).
  pose proof PI_lower.
  rewrite 2 clamp_above by lra. reflexivity.
Qed.

(** Witness: Mercator mode panned by half a radian, a point at 3 h, 40
    degrees. *)
Lemma equatorialToMercator_wrap_and_clamp_witness :
  let e := with_view (constructed (Fin 1000) (Fin 1000))
             (with_pan
                (with_projectionType (view (constructed (Fin 1000) (Fin 1000)))
                   "mercator") (Fin 0.5) (Fin 0)) in
  pan_x (view e) = Fin 0.5 /\
  equatorialToMercator e (Fin 3) (Fin 89)
    = equatorialToMercator e (Fin 3) (Fin 85).
Proof.
  intros e. split; [reflexivity |].
  apply (equatorialToMercator_wrap_and_clamp e 3 40 0.5). reflexivity.
Defined.

(** *** Sidereal rotation *)

(** C1, at the failing input: an observer at longitude 140 E at 22:00 UTC
    has a local sidereal time of 470 degrees, and for a star at ra = 1 h the
    expression [(ra * 15 - lst + 360) % 360] is -95, outside [[0, 360)]; that
    value, divided by 15, is what the projection receives. *)
Theorem rotatedRA_negative_when_lst_exceeds_ra_by_a_turn :
  let e := with_longitude (constructed (Fin 1000) (Fin 1000)) (Fin 140) in
  let t := utc 22 0 0 0 in
  let s := catalogStar "s" (Fin 1) (Fin 0) in
  localSiderealTime e t = Fin 470 /\
  rotatedRA (localSiderealTime e t) s = Fin (-95) /\
  transformStarsForProjection e 1 (Some [s]) "mercator" t
    = Some [ {| source := s;
                coords := equatorialToMercator e
                            (JS.div (Fin (-95)) (Fin 15)) (Fin 0) |} ].
Proof.
  intros e t s.
  assert (localSiderealTime e t = Fin 470) as Hlst.
  { rewrite (localSiderealTime_fin e t 140) by reflexivity.
    cbn [t utc getUTCHours getUTCMinutes getUTCSeconds getUTCMilliseconds].
    f_equal. lra. }
  assert (rotatedRA (Fin 470) s = Fin (-95)) as Hra.
  { rewrite (rotatedRA_fin 470 1) by reflexivity.
    f_equal. rewrite Rfmod_small; lra. }
  split; [exact Hlst |]. split; [rewrite Hlst; exact Hra |].
  unfold transformStarsForProjection. rewrite Hlst.
  cbn [mapOpt]. unfold transformStar. rewrite Hra.
  reflexivity.
Qed.

(** In general the value is finite and strictly between -360 and 360; it is
    non-negative exactly as long as [lst] does not exceed [ra * 15 + 360]. *)
Lemma rotatedRA_sign (lst r : R) (s : Star) :
  ra s = Fin r ->
  exists v : R,
    rotatedRA (Fin lst) s = Fin v /\
    v = JS.Rfmod (r * 15 - lst + 360) 360 /\
    -360 < v < 360 /\
    (lst <= r * 15 + 360 -> 0 <= v) /\
    (r * 15 + 360 < lst -> v <= 0).
Proof.
  intros Hr. exists (JS.Rfmod (r * 15 - lst + 360) 360).
  split; [apply rotatedRA_fin; exact Hr |]. split; [reflexivity |].
  split; [apply Rfmod_bounds; lra |]. split; intros H.
  - apply Rfmod_nonneg; lra.
  - apply Rfmod_neg; lra.
Qed.

(** *** Screen projector *)

Lemma isFinite_Fin (a : JS.num) :
  JS.isFinite a = true -> exists r : R, a = Fin r.
Proof. destruct a; try discriminate. eauto. Qed.

Lemma transformMat4_finite (a : GlMatrix.vec4) (m : GlMatrix.mat4) :
  GlMatrix.vec4_finite a = true -> GlMatrix.mat4_finite m = true ->
  GlMatrix.vec4_finite (GlMatrix.transformMat4 a m) = true.
Proof.
  unfold GlMatrix.vec4_finite, GlMatrix.mat4_finite.
  intros Ha Hm.
  repeat match goal with
         | H : _ && _ = true |- _ => apply andb_prop in H; destruct H
         end.
  repeat match goal with
         | H : JS.isFinite ?u = true |- _ =>
             apply isFinite_Fin in H; destruct H as [? H]
         end.
  unfold GlMatrix.transformMat4. cbv zeta.
  cbn [GlMatrix.v0 GlMatrix.v1 GlMatrix.v2 GlMatrix.v3].
  repeat match goal with H : _ = Fin _ |- _ => rewrite H; clear H end.
  reflexivity.
Qed.

Lemma projectPoint_unfold (e : Engine) (p : Point3) :
  projectPoint e p =
  let pos := clipCoords e p in
  if JS.le (GlMatrix.v3 pos) (Fin 0) then None
  else Some {| sx := JS.div (JS.mul (JS.add (JS.div (GlMatrix.v0 pos)
                                               (GlMatrix.v3 pos)) (Fin 1))
                              (width (canvas e))) (Fin 2);
               sy := JS.div (JS.mul (JS.add (JS.div (JS.neg (GlMatrix.v1 pos))
                                               (GlMatrix.v3 pos)) (Fin 1))
                              (height (canvas e))) (Fin 2) |}.
Proof. reflexivity. Qed.

Lemma clipCoords_finite (e : Engine) (p : Point3) :
  GlMatrix.mat4_finite (currentModelView e) = true ->
  GlMatrix.mat4_finite (currentProjection e) = true ->
  point_finite p = true ->
  exists cx cy cz cw : R,
    clipCoords e p = GlMatrix.Vec4 (Fin cx) (Fin cy) (Fin cz) (Fin cw).
Proof.
  intros Hmv Hpr Hp. unfold clipCoords.
  assert (GlMatrix.vec4_finite
            (GlMatrix.Vec4 (x p) (y p) (z p) (Fin 1)) = true) as H0.
  { unfold point_finite in Hp. unfold GlMatrix.vec4_finite.
    cbn [GlMatrix.v0 GlMatrix.v1 GlMatrix.v2 GlMatrix.v3 JS.isFinite].
    rewrite Hp. reflexivity. }
  pose proof (transformMat4_finite _ _
                (transformMat4_finite _ _ H0 Hmv) Hpr) as H2.
  destruct (GlMatrix.transformMat4 _ (currentProjection e)) as [c0 c1 c2 c3].
  unfold GlMatrix.vec4_finite in H2.
  cbn [GlMatrix.v0 GlMatrix.v1 GlMatrix.v2 GlMatrix.v3] in H2.
  repeat match goal with
         | H : _ && _ = true |- _ => apply andb_prop in H; destruct H
         end.
  repeat match goal with
         | H : JS.isFinite ?u = true |- _ =>
             apply isFinite_Fin in H; destruct H as [? ->]
         end.
  eauto.
Qed.

(** C3: [projectPoint] returns null exactly when the homogeneous [w] of the
    point after the model-view and the projection transforms satisfies
    [w <= 0]; and when the point, the two matrices and the canvas size are
    finite, [w] is a real number, null is returned exactly when [w <= 0], and
    for [w > 0] the result is the finite pixel position
    [((x / w + 1) * W / 2, (- y / w + 1) * H / 2)]. *)
Theorem projectPoint_null_iff_w_not_positive (e : Engine) (p : Point3) :
  (projectPoint e p = None
   <-> JS.le (GlMatrix.v3 (clipCoords e p)) (Fin 0) = true) /\
  (forall W H : R,
      GlMatrix.mat4_finite (currentModelView e) = true ->
      GlMatrix.mat4_finite (currentProjection e) = true ->
      point_finite p = true ->
      width (canvas e) = Fin W -> height (canvas e) = Fin H ->
      exists cx cy cz cw : R,
        clipCoords e p = GlMatrix.Vec4 (Fin cx) (Fin cy) (Fin cz) (Fin cw) /\
        (projectPoint e p = None <-> cw <= 0) /\
        (0 < cw ->
         projectPoint e p
         = Some {| sx := Fin ((cx / cw + 1) * W / 2);
                   sy := Fin ((- cy / cw + 1) * H / 2) |})).
Proof.
  split.
  - rewrite projectPoint_unfold. cbv zeta.
    destruct (JS.le (GlMatrix.v3 (clipCoords e p)) (Fin 0));
      split; intros; congruence.
  - intros W H Hmv Hpr Hp HW HH.
    destruct (clipCoords_finite e p Hmv Hpr Hp) as (cx & cy & cz & cw & Hc).
    exists cx, cy, cz, cw. split; [exact Hc |].
    rewrite projectPoint_unfold, Hc, HW, HH. cbv zeta.
    cbn [GlMatrix.v0 GlMatrix.v1 GlMatrix.v3 JS.le]. unfold JS.Rleb.
    destruct (Rle_dec cw 0) as [Hle | Hgt].
    + split; [split; auto | intros; lra].
    + split; [split; [discriminate | intros; lra] |].
      intros _. js_fin. reflexivity.
Qed.

(** Witness: identity transforms on a 1000 x 1000 canvas send (0.5, 0.5, 0)
    to the pixel (750, 250). *)
Lemma projectPoint_null_iff_w_not_positive_witness :
  let e := constructed (Fin 1000) (Fin 1000) in
  let p := {| x := Fin 0.5; y := Fin 0.5; z := Fin 0 |} in
  exists cx cy cz cw : R,
    clipCoords e p = GlMatrix.Vec4 (Fin cx) (Fin cy) (Fin cz) (Fin cw) /\
    (projectPoint e p = None <-> cw <= 0) /\
    (0 < cw ->
     projectPoint e p
     = Some {| sx := Fin ((cx / cw + 1) * 1000 / 2);
               sy := Fin ((- cy / cw + 1) * 1000 / 2) |}).
Proof.
  intros e p.
  apply (proj2 (projectPoint_null_iff_w_not_positive e p) 1000 1000);
    reflexivity.
Defined.

(** *** Redrawing leaves the camera parameters alone *)

Lemma view_updateMatrices (e : Engine) : view (updateMatrices e) = view e.
Proof. unfold updateMatrices. destruct (mode_is e "spherical"); reflexivity. Qed.

Lemma view_resize (e : Engine) : view (resize e) = view e.
Proof. unfold resize. destruct (_ || _); reflexivity. Qed.

Lemma updateStarData_total (e : Engine) (fuel : nat)
  (l : option (list Star)) (t : Date) :
  exists e', updateStarData e (S fuel) l t = Some e' /\ view e' = view e.
Proof.
  unfold updateStarData. destruct l as [[| s l] |]; try (eexists; split; reflexivity).
  destruct (transformStarsForProjection_total
              (with_stars e (Some (s :: l))) fuel (Some (s :: l))
              (projectionType (view (with_stars e (Some (s :: l))))) t)
    as [ts Hts].
  rewrite Hts. eexists; split; reflexivity.
Qed.

Lemma render_total (e : Engine) (fuel : nat) (t : Date) :
  exists e', render e (S fuel) t = Some e' /\ view e' = view e.
Proof.
  unfold render.
  set (e1 := updateMatrices (resize (with_currentRenderTime e (Some t)))).
  assert (view e1 = view e) as Hv.
  { unfold e1. rewrite view_updateMatrices, view_resize. reflexivity. }
  destruct (stars e1).
  - destruct (updateStarData_total e1 fuel (Some l) t) as (e' & He' & Hv').
    exists e'. split; [exact He' | congruence].
  - exists e1. split; [reflexivity | exact Hv].
Qed.

(** *** Projection mode *)

Lemma includes_validTypes (type : value) :
  includes validTypes type = true <->
  exists s : string, type = VString s /\ In s validTypes.
Proof.
  unfold includes. split.
  - destruct type; try discriminate. intros H.
    apply existsb_exists in H. destruct H as (t & Hin & Heq).
    apply String.eqb_eq in Heq. subst. eauto.
  - intros (s & -> & Hin). apply existsb_exists.
    exists s. split; [exact Hin | apply String.eqb_refl].
Qed.

(** C9: a [setProjection] call whose argument is not one of the four mode
    strings returns (whatever the fuel) and leaves the whole state as it was;
    a call with one of the four makes it the active mode and changes no other
    camera parameter. *)
Theorem setProjection_invalid_is_noop (e : Engine) (fuel : nat)
  (type : value) (now : Date) :
  ((forall s : string, In s validTypes -> type <> VString s) ->
   setProjection e fuel type now = Some e) /\
  (forall s : string, In s validTypes -> type = VString s ->
   exists e', setProjection e (S fuel) type now = Some e' /\
              view e' = with_projectionType (view e) s /\
              projectionType (view e') = s).
Proof.
  split.
  - intros Hout. unfold setProjection.
    destruct (includes validTypes type) eqn:Hinc; [| reflexivity].
    apply includes_validTypes in Hinc. destruct Hinc as (s & -> & Hin).
    elim (Hout s Hin). reflexivity.
  - intros s Hin ->. unfold setProjection.
    rewrite (proj2 (includes_validTypes (VString s))) by eauto.
    set (e1 := with_view e (with_projectionType (view e) s)).
    destruct (stars e1).
    + destruct (updateStarData_total e1 fuel (Some l) now) as (e' & He' & Hv).
      exists e'. split; [exact He' |]. rewrite Hv. split; reflexivity.
    + exists e1. split; [reflexivity |]. split; reflexivity.
Qed.

(** Witness: the number 3, the misspelt ["Hammer"], and the valid
    ["mercator"], on the constructed state. *)
Lemma setProjection_invalid_is_noop_witness :
  let e := constructed (Fin 1000) (Fin 1000) in
  setProjection e 0 (VNumber (Fin 3)) (utc 0 0 0 0) = Some e /\
  setProjection e 0 (VString "Hammer") (utc 0 0 0 0) = Some e /\
  exists e', setProjection e 1 (VString "mercator") (utc 0 0 0 0) = Some e' /\
             view e' = with_projectionType (view e) "mercator" /\
             projectionType (view e') = "mercator"%string.
Proof.
  intros e. split; [| split].
  - apply (proj1 (setProjection_invalid_is_noop e 0 (VNumber (Fin 3))
                    (utc 0 0 0 0))).
    intros s _ H. discriminate H.
  - apply (proj1 (setProjection_invalid_is_noop e 0 (VString "Hammer")
                    (utc 0 0 0 0))).
    intros s Hin H. injection H as <-.
    simpl in Hin. repeat destruct Hin as [Hin | Hin]; try discriminate Hin.
    exact Hin.
  - apply (proj2 (setProjection_invalid_is_noop e 0 (VString "mercator")
                    (utc 0 0 0 0)) "mercator"%string).
    + simpl. auto.
    + reflexivity.
Defined.

(** *** Dragging in Mercator mode *)

Lemma mode_is_eq (e : Engine) (s : string) :
  mode_is e s = true -> projectionType (view e) = s.
Proof. unfold mode_is. apply String.eqb_eq. Qed.

Lemma dragView_mercator (e : Engine) (shiftKey : bool)
  (p_x p_y s w dx dy : R) :
  mode_is e "mercator" = true ->
  pan_x (view e) = Fin p_x -> pan_y (view e) = Fin p_y ->
  scale (view e) = Fin s -> width (canvas e) = Fin w -> s * w <> 0 ->
  dragView e (Fin dx) (Fin dy) shiftKey
  = with_pan (view e)
      (Fin (p_x + dx * (2 / (s * w))))
      (Fin (Rmax (Rmin (p_y - dy * (2 / (s * w))) (PI / 2)) (- PI / 2))).
Proof.
  intros Hm Hx Hy Hs Hw Hsw.
  unfold dragView. unfold mode_is in *.
  apply String.eqb_eq in Hm. rewrite Hm. cbn [String.eqb Ascii.eqb Bool.eqb].
  cbv iota. rewrite Hx, Hy, Hs, Hw. js_fin. reflexivity.
Qed.

(** C10: in Mercator mode a drag step, for every finite prior pan and every
    pointer displacement (on a canvas of non-zero width, at a non-zero
    scale), leaves [pan.y] in [[-PI/2, PI/2]], namely at the clamped
    [pan.y - deltaY * factor]; [pan.x] becomes [pan.x + deltaX * factor]
    unclamped, and a suitable displacement takes it to any value at all. *)
Theorem mercator_drag_clamps_pan_y_only (e : Engine) (d : Drag)
  (fuel : nat) (shiftKey : bool) (now : Date)
  (p_x p_y s w lx ly cx cy : R) :
  mode_is e "mercator" = true ->
  pan_x (view e) = Fin p_x -> pan_y (view e) = Fin p_y ->
  scale (view e) = Fin s -> width (canvas e) = Fin w -> s * w <> 0 ->
  isDragging d = true -> lastX d = Fin lx -> lastY d = Fin ly ->
  (exists (e' : Engine) (d' : Drag) (y' : R),
      onMouseMove e d (S fuel) (Fin cx) (Fin cy) shiftKey now = Some (e', d') /\
      pan_y (view e') = Fin y' /\ - PI / 2 <= y' <= PI / 2 /\
      y' = Rmax (Rmin (p_y - (cy - ly) * (2 / (s * w))) (PI / 2)) (- PI / 2) /\
      pan_x (view e') = Fin (p_x + (cx - lx) * (2 / (s * w)))) /\
  (forall target : R, exists (cx' : R) (e' : Engine) (d' : Drag),
      onMouseMove e d (S fuel) (Fin cx') (Fin cy) shiftKey now = Some (e', d') /\
      pan_x (view e') = Fin target).
Proof.
  intros Hm Hx Hy Hs Hw Hsw Hd Hlx Hly.
  assert (forall c : R, exists (e' : Engine) (d' : Drag),
    onMouseMove e d (S fuel) (Fin c) (Fin cy) shiftKey now = Some (e', d') /\
    view e' = with_pan (view e)
      (Fin (p_x + (c - lx) * (2 / (s * w))))
      (Fin (Rmax (Rmin (p_y - (cy - ly) * (2 / (s * w))) (PI / 2))
              (- PI / 2)))) as Hstep.
  { intros c. unfold onMouseMove. rewrite Hd, Hlx, Hly. cbn [negb].
    rewrite !sub_fin.
    rewrite (dragView_mercator e shiftKey p_x p_y s w) by assumption.
    match goal with
    | |- context [render ?e1 (S fuel) now] =>
        destruct (render_total e1 fuel now) as (e' & He' & Hv)
    end.
    rewrite He'. eexists; eexists; split; [reflexivity |]. exact Hv. }
  split.
  - destruct (Hstep cx) as (e' & d' & He' & Hv).
    exists e', d'; eexists. split; [exact He' |]. rewrite Hv.
    cbn [pan_x pan_y with_pan]. split; [reflexivity |].
    split; [| split; reflexivity].
    replace (- PI / 2) with (- (PI / 2)) by lra.
    apply clamp_range. pose proof PI_RGT_0. lra.
  - intros target.
    destruct (Hstep (lx + (target - p_x) * (s * w) / 2)) as (e' & d' & He' & Hv).
    eexists; exists e', d'. split; [exact He' |]. rewrite Hv.
    cbn [pan_x with_pan]. f_equal. field.
    split; intros ->; apply Hsw; ring.
Qed.

(** Witness: the constructed state switched to Mercator, a drag of 30 pixels
    right and 4000 pixels down, far past the clamp. *)
Lemma mercator_drag_clamps_pan_y_only_witness :
  let e := inMode (constructed (Fin 1000) (Fin 1000)) "mercator" in
  let d := onMouseDown (Fin 100) (Fin 100) in
  exists (e' : Engine) (d' : Drag) (y' : R),
    onMouseMove e d 1 (Fin 130) (Fin 4100) false (utc 0 0 0 0)
      = Some (e', d') /\
    pan_y (view e') = Fin y' /\ - PI / 2 <= y' <= PI / 2 /\
    y' = Rmax (Rmin (0 - (4100 - 100) * (2 / (1 * 1000))) (PI / 2))
           (- PI / 2) /\
    pan_x (view e') = Fin (0 + (130 - 100) * (2 / (1 * 1000))).
Proof.
  intros e d.
  apply (proj1 (mercator_drag_clamps_pan_y_only e d 0 false (utc 0 0 0 0)
                  0 0 1 1000 100 100 130 4100
                  eq_refl eq_refl eq_refl eq_refl eq_refl
                  ltac:(lra) eq_refl eq_refl eq_refl)).
Defined.

(** *** Zoom and scale *)

Lemma clamp_range_max_min (v lo hi : R) :
  lo <= hi -> lo <= Rmax lo (Rmin v hi) <= hi.
Proof.
  intros H. unfold Rmax, Rmin.
  destruct (Rle_dec v hi); destruct (Rle_dec lo _); lra.
Qed.

Lemma wheelView_in_range (e : Engine)
  (deltaY clientX clientY rectLeft rectTop : JS.num) :
  viewInRange (view e) ->
  viewInRange (wheelView e deltaY clientX clientY rectLeft rectTop).
Proof.
  intros (zm & s & Hz & Hzr & Hs & Hsr). unfold wheelView.
  destruct (mode_is e "spherical").
  - rewrite Hz.
    exists (Rmax 0.1 (Rmin (zm * (if JS.gt deltaY (Fin 0) then 0.9 else 1.1)) 5)), s.
    split; [destruct (JS.gt deltaY (Fin 0)); reflexivity |].
    split; [apply clamp_range_max_min; lra |].
    split; [exact Hs | exact Hsr].
  - rewrite Hs.
    exists zm, (Rmax 0.1 (Rmin (s * (if JS.gt deltaY (Fin 0) then 0.9 else 1.1)) 10)).
    split; [exact Hz |]. split; [exact Hzr |].
    split; [destruct (JS.gt deltaY (Fin 0)); reflexivity |].
    apply clamp_range_max_min; lra.
Qed.

(** The eased progress of [animate], for finite times. *)
Lemma easing_fin (t0 t : R) :
  JS.sub (Fin 1)
    (JS.pow (JS.sub (Fin 1)
               (JS.min (JS.div (JS.sub (Fin t) (Fin t0)) duration) (Fin 1))) 3)
  = Fin (1 - (1 - Rmin ((t - t0) / 1000) 1)
             * ((1 - Rmin ((t - t0) / 1000) 1)
                * ((1 - Rmin ((t - t0) / 1000) 1) * 1))).
Proof. unfold duration. js_fin. reflexivity. Qed.

Lemma easing_unit_interval (t0 t : R) :
  t0 <= t ->
  let q := 1 - Rmin ((t - t0) / 1000) 1 in
  0 <= 1 - q * (q * (q * 1)) <= 1.
Proof.
  intros Ht q.
  assert (0 <= q <= 1) as Hq.
  { unfold q, Rmin. destruct (Rle_dec ((t - t0) / 1000) 1); lra. }
  assert (0 <= q * q <= 1) as Hq2 by nra.
  assert (0 <= q * (q * q) <= 1) as Hq3 by nra.
  lra.
Qed.

Lemma zoom_animateView (a : Animation) (e : Engine) (t : JS.num) :
  zoom (animateView a e t)
  = JS.add (startZoom a)
      (JS.mul (JS.sub (Fin 2) (startZoom a))
         (JS.sub (Fin 1)
            (JS.pow (JS.sub (Fin 1)
                       (JS.min (JS.div (JS.sub t (startTime a)) duration)
                          (Fin 1))) 3))).
Proof. unfold animateView. destruct (mode_is e "spherical"); reflexivity. Qed.

Lemma scale_animateView (a : Animation) (e : Engine) (t : JS.num) :
  scale (animateView a e t)
  = JS.add (startScale a)
      (JS.mul (JS.sub (Fin 1) (startScale a))
         (JS.sub (Fin 1)
            (JS.pow (JS.sub (Fin 1)
                       (JS.min (JS.div (JS.sub t (startTime a)) duration)
                          (Fin 1))) 3))).
Proof. unfold animateView. destruct (mode_is e "spherical"); reflexivity. Qed.

Lemma animateView_in_range (a : Animation) (e : Engine) (z0 s0 t0 t : R) :
  startZoom a = Fin z0 -> 0.1 <= z0 <= 5 ->
  startScale a = Fin s0 -> 0.1 <= s0 <= 10 ->
  startTime a = Fin t0 -> t0 <= t ->
  viewInRange (animateView a e (Fin t)).
Proof.
  intros Hz Hzr Hs Hsr Ht0 Ht.
  pose proof (easing_unit_interval t0 t Ht) as HE. cbv zeta in HE.
  unfold viewInRange.
  rewrite zoom_animateView, scale_animateView, Hz, Hs, Ht0, easing_fin.
  js_fin.
  set (E := 1 - (1 - Rmin ((t - t0) / 1000) 1)
                * ((1 - Rmin ((t - t0) / 1000) 1)
                   * ((1 - Rmin ((t - t0) / 1000) 1) * 1))) in *.
  exists (z0 + (2 - z0) * E), (s0 + (1 - s0) * E).
  split; [reflexivity |]. split; [nra |]. split; [reflexivity | nra].
Qed.

(** X23: the paths that keep the ranges.  A wheel event in either kind of
    mode keeps [zoom] in [[0.1, 5]] and [scale] in [[0.1, 10]];
    [navigateToStar] freezes the current [zoom] and [scale] as the start of
    its animation; and every [animate] call of an animation started from an
    in-range state, whose timestamp is not earlier than the start time of
    the animation, leaves them in range, whatever happened to the state in
    between. *)
Theorem zoom_and_scale_stay_in_range (e : Engine) :
  viewInRange (view e) ->
  (forall (fuel : nat) (deltaY clientX clientY rectLeft rectTop : JS.num)
          (now : Date),
      exists e',
        onWheel e (S fuel) deltaY clientX clientY rectLeft rectTop now
          = Some e' /\
        viewInRange (view e')) /\
  (forall (s : Star) (t0 t : R) (current : Engine) (fuel : nat) (now : Date),
      t0 <= t ->
      let a := navigateToStar e s (Fin t0) in
      startZoom a = zoom (view e) /\ startScale a = scale (view e) /\
      exists (e' : Engine) (again : bool),
        animate a current (S fuel) (Fin t) now = Some (e', again) /\
        viewInRange (view e')).
Proof.
  intros Hin. split.
  - intros fuel deltaY clientX clientY rectLeft rectTop now.
    unfold onWheel.
    match goal with
    | |- context [render ?e1 (S fuel) now] =>
        destruct (render_total e1 fuel now) as (e' & He' & Hv)
    end.
    exists e'. split; [exact He' |]. rewrite Hv.
    apply wheelView_in_range. exact Hin.
  - intros s t0 t current fuel now Ht a.
    assert (startZoom a = zoom (view e) /\ startScale a = scale (view e)
            /\ startTime a = Fin t0) as (Hz & Hs & Ht0).
    { unfold a, navigateToStar.
      destruct (mode_is e "spherical"); [repeat split |].
      destruct (projectPoint e _); repeat split. }
    split; [exact Hz |]. split; [exact Hs |].
    destruct Hin as (z0 & s0 & Hz0 & Hzr & Hs0 & Hsr).
    unfold animate.
    match goal with
    | |- context [render ?e1 (S fuel) now] =>
        destruct (render_total e1 fuel now) as (e' & He' & Hv)
    end.
    rewrite He'. eexists; eexists; split; [reflexivity |].
    rewrite Hv, view_updateMatrices. cbn [view with_view].
    apply (animateView_in_range a current z0 s0 t0 t); congruence.
Qed.

Lemma constructed_in_range (w h : JS.num) :
  viewInRange (view (constructed w h)).
Proof. exists 2, 1. cbn. repeat split; lra. Qed.

(** Witness: on the constructed state, a wheel notch, and the frame half a
    second into an animation towards a star. *)
Lemma zoom_and_scale_stay_in_range_witness :
  let e := constructed (Fin 1000) (Fin 1000) in
  let a := navigateToStar e (catalogStar "s" (Fin 6) (Fin 30)) (Fin 1000) in
  viewInRange (view e) /\
  (exists e',
      onWheel e 1 (Fin 120) (Fin 10) (Fin 10) (Fin 0) (Fin 0) (utc 0 0 0 0)
        = Some e' /\
      viewInRange (view e')) /\
  (1000 <= 1500 /\
   exists (e' : Engine) (again : bool),
     animate a e 1 (Fin 1500) (utc 0 0 0 0) = Some (e', again) /\
     viewInRange (view e')).
Proof.
  intros e a.
  pose proof (constructed_in_range (Fin 1000) (Fin 1000)) as Hin.
  split; [exact Hin |]. split.
  - apply (proj1 (zoom_and_scale_stay_in_range e Hin)).
  - split; [lra |].
    apply (proj2 (zoom_and_scale_stay_in_range e Hin)
             (catalogStar "s" (Fin 6) (Fin 30)) 1000 1500 e 0%nat
             (utc 0 0 0 0)).
    lra.
Defined.

(** C8, at the failing input: [animate] bounds [progress] from above only,
    [Math.min (elapsed / duration, 1)], and does not clamp what it assigns,
    unlike the wheel listener.  An animation started from the in-range zoom
    5 at time 1000 whose frame carries the timestamp 990 has progress -0.01,
    an eased progress of [1 - 1.01^3 < 0], and sets [zoom] to 5.090903,
    above 5. *)
Lemma animate_before_start_time_leaves_range :
  let e0 := constructed (Fin 1000) (Fin 1000) in
  let e := with_view e0 (with_zoom (view e0) (Fin 5)) in
  let a := navigateToStar e (catalogStar "s" (Fin 6) (Fin 30)) (Fin 1000) in
  viewInRange (view e) /\
  exists (e' : Engine) (again : bool),
    animate a e 1 (Fin 990) (utc 0 0 0 0) = Some (e', again) /\
    zoom (view e') = Fin 5.090903 /\
    ~ viewInRange (view e').
Proof.
  intros e0 e a.
  split; [exists 5, 1; cbn; repeat split; lra |].
  unfold animate.
  match goal with
  | |- context [render ?e1 1 ?now] =>
      destruct (render_total e1 0 now) as (e' & He' & Hv)
  end.
  rewrite He'. exists e'; eexists. split; [reflexivity |].
  rewrite view_updateMatrices in Hv. cbn [view with_view] in Hv.
  assert (zoom (view e') = Fin 5.090903) as Hz.
  { rewrite Hv, zoom_animateView.
    change (startZoom a) with (Fin 5). change (startTime a) with (Fin 1000).
    rewrite easing_fin. js_fin. f_equal.
    unfold Rmin. destruct (Rle_dec ((990 - 1000) / 1000) 1); lra. }
  split; [exact Hz |].
  intros (zm & s & Hzm & Hr & _). rewrite Hz in Hzm.
  injection Hzm as <-. lra.
Qed.

(** *** Polyline clipper *)

Lemma abs_le_hypot (dx dy : R) : Rabs dx <= sqrt (dx * dx + dy * dy).
Proof.
  rewrite <- sqrt_Rsqr_abs. apply sqrt_le_1; unfold Rsqr; nra.
Qed.

Lemma if_false_true (b : bool) :
  (if b then false else true) = false <-> b = true.
Proof. destruct b; split; intros; congruence. Qed.

Lemma shouldDraw_hammer (W H x1 y1 x2 y2 : R) :
  W <> 0 -> H <> 0 ->
  shouldDraw "hammer" (Fin W) (Fin H)
    (Some {| sx := Fin x1; sy := Fin y1 |}) {| sx := Fin x2; sy := Fin y2 |}
  = false
  <-> (1.15 < sqrt ((x1 / W * 2 - 1) * (x1 / W * 2 - 1)
                    + (y1 / H * 2 - 1) * (y1 / H * 2 - 1))
       \/ 1.15 < sqrt ((x2 / W * 2 - 1) * (x2 / W * 2 - 1)
                       + (y2 / H * 2 - 1) * (y2 / H * 2 - 1))
       \/ W * 0.4 < sqrt ((x2 - x1) * (x2 - x1) + (y2 - y1) * (y2 - y1))
       \/ ((x1 / W * 2 - 1) * (x2 / W * 2 - 1) < 0
           /\ W * 0.4 < Rabs (x2 - x1))).
Proof.
  intros HW HH. unfold shouldDraw. cbn [sx sy String.eqb Ascii.eqb Bool.eqb].
  cbv iota. js_fin. unfold JS.gt. cbn [JS.lt].
  rewrite if_false_true, !orb_true_iff, andb_true_iff, !Rltb_true_iff.
  tauto.
Qed.

Lemma shouldDraw_mercator (W H x1 y1 x2 y2 : R) :
  shouldDraw "mercator" (Fin W) (Fin H)
    (Some {| sx := Fin x1; sy := Fin y1 |}) {| sx := Fin x2; sy := Fin y2 |}
  = false
  <-> W * 0.8 < Rabs (x2 - x1).
Proof.
  unfold shouldDraw. cbn [sx sy String.eqb Ascii.eqb Bool.eqb].
  cbv iota. js_fin. unfold JS.gt. cbn [JS.lt].
  rewrite if_false_true, Rltb_true_iff. tauto.
Qed.

Lemma shouldDraw_other (type : string) (W H : JS.num)
  (p1 : option ScreenPoint) (p2 : ScreenPoint) :
  type <> "hammer"%string -> type <> "mercator"%string ->
  shouldDraw type W H p1 p2 = true.
Proof.
  intros Hh Hm. unfold shouldDraw. destruct p1; [| reflexivity].
  apply String.eqb_neq in Hh. apply String.eqb_neq in Hm.
  rewrite Hh, Hm. reflexivity.
Qed.

(** C5, as the code has it: for two consecutive on-screen points [p1], [p2]
    of a polyline on a canvas of positive size, the connecting segment is
    suppressed (the path is stroked and a new sub-path begun at [p2],
    instead of a [lineTo]) exactly when, in Hammer mode, the normalised
    distance of [p1] or of [p2] from the centre exceeds 1.15, or the pixel
    length exceeds 0.4 W, or the points lie in opposite horizontal halves
    with [|dx| > 0.4 W]; in Mercator mode, [|dx| > 0.8 W]; never in another
    mode.  The comparisons are strict, so a value exactly on a threshold
    does not trigger its condition: with both radii at most 1.15 and the
    length at most 0.4 W the segment is connected.  Radii 1.2 and 1.2
    suppress it; with radii 0.5 and 0.5 it is connected exactly when its
    length is at most 0.4 W. *)
Theorem polyline_segment_suppressed_iff (type : string)
  (W H x1 y1 x2 y2 : R) (st : PathState) :
  0 < W -> 0 < H ->
  let p1 := {| sx := Fin x1; sy := Fin y1 |} in
  let p2 := {| sx := Fin x2; sy := Fin y2 |} in
  let nx1 := x1 / W * 2 - 1 in
  let nx2 := x2 / W * 2 - 1 in
  let r1 := sqrt (nx1 * nx1 + (y1 / H * 2 - 1) * (y1 / H * 2 - 1)) in
  let r2 := sqrt (nx2 * nx2 + (y2 / H * 2 - 1) * (y2 / H * 2 - 1)) in
  let len := sqrt ((x2 - x1) * (x2 - x1) + (y2 - y1) * (y2 - y1)) in
  let draw := shouldDraw type (Fin W) (Fin H) (Some p1) p2 in
  (draw = false <->
     (type = "hammer"%string /\
      (1.15 < r1 \/ 1.15 < r2 \/ W * 0.4 < len \/
       (nx1 * nx2 < 0 /\ W * 0.4 < Rabs (x2 - x1)))) \/
     (type = "mercator"%string /\ W * 0.8 < Rabs (x2 - x1))) /\
  (first st = false -> lastPos st = Some p1 ->
   issued (pathStep type (Fin W) (Fin H) st (Some p2))
   = issued st ++ (if draw then [LineTo (Fin x2) (Fin y2)]
                   else [Stroke; BeginPath; MoveTo (Fin x2) (Fin y2)])) /\
  (type = "hammer"%string ->
   r1 <= 1.15 -> r2 <= 1.15 -> len <= W * 0.4 -> draw = true) /\
  (type = "hammer"%string -> r1 = 1.2 -> r2 = 1.2 -> draw = false) /\
  (type = "hammer"%string -> r1 = 0.5 -> r2 = 0.5 ->
   (draw = false <-> W * 0.4 < len)).
Proof.
  intros HW HH p1 p2 nx1 nx2 r1 r2 len draw.
  assert (draw = false <->
     (type = "hammer"%string /\
      (1.15 < r1 \/ 1.15 < r2 \/ W * 0.4 < len \/
       (nx1 * nx2 < 0 /\ W * 0.4 < Rabs (x2 - x1)))) \/
     (type = "mercator"%string /\ W * 0.8 < Rabs (x2 - x1))) as Hiff.
  { unfold draw, p1, p2. destruct (string_dec type "hammer") as [-> | Hnh].
    - rewrite (shouldDraw_hammer W H x1 y1 x2 y2) by lra.
      fold nx1 nx2 r1 r2 len. split.
      + intros Hc. left. split; [reflexivity | exact Hc].
      + intros [[_ Hc] | [Hd _]]; [exact Hc | discriminate Hd].
    - destruct (string_dec type "mercator") as [-> | Hnm].
      + rewrite (shouldDraw_mercator W H x1 y1 x2 y2). split.
        * intros Hc. right. split; [reflexivity | exact Hc].
        * intros [[Hd _] | [_ Hc]]; [discriminate Hd | exact Hc].
      + rewrite shouldDraw_other by assumption. split.
        * discriminate.
        * intros [[Hd _] | [Hd _]]; contradiction. }
  pose proof (abs_le_hypot (x2 - x1) (y2 - y1)) as Habs. fold len in Habs.
  split; [exact Hiff |]. split; [| split; [| split]].
  - intros Hf Hl. unfold pathStep. rewrite Hf, Hl. fold draw.
    destruct draw; reflexivity.
  - intros Ht H1 H2 Hlen. destruct draw; [reflexivity |].
    destruct (proj1 Hiff eq_refl) as [[_ Hc] | [Hd _]];
      [| rewrite Ht in Hd; discriminate Hd].
    destruct Hc as [Hc | [Hc | [Hc | [_ Hc]]]]; lra.
  - intros Ht H1 H2. apply Hiff. left. split; [exact Ht | left; lra].
  - intros Ht H1 H2. rewrite Hiff. split.
    + intros [[_ Hc] | [Hd _]]; [| rewrite Ht in Hd; discriminate Hd].
      destruct Hc as [Hc | [Hc | [Hc | [_ Hc]]]]; lra.
    + intros Hc. left. split; [exact Ht | right; right; left; exact Hc].
Qed.

(** Witness, on a 1000 x 1000 canvas in Hammer mode: the points (750, 500)
    and (500, 750), both at normalised radius 0.5, are connected; the points
    (1100, 500) and (500, 1100), both at radius 1.2, are not. *)
Lemma polyline_segment_suppressed_iff_witness :
  (0 < 1000 /\ 0 < 1000) /\
  shouldDraw "hammer" (Fin 1000) (Fin 1000)
    (Some {| sx := Fin 750; sy := Fin 500 |}) {| sx := Fin 500; sy := Fin 750 |}
  = true /\
  shouldDraw "hammer" (Fin 1000) (Fin 1000)
    (Some {| sx := Fin 1100; sy := Fin 500 |})
    {| sx := Fin 500; sy := Fin 1100 |}
  = false.
Proof.
  pose (st := {| first := false; lastPos := None; issued := [] |}).
  assert (forall a b c : R, 0 <= c -> a * a + b * b = c * c ->
                            sqrt (a * a + b * b) = c) as Hsq.
  { intros a b c Hc ->. apply sqrt_square. exact Hc. }
  split; [split; lra |]. split.
  - apply (proj1 (proj2 (proj2 (polyline_segment_suppressed_iff "hammer"
                                  1000 1000 750 500 500 750 st
                                  ltac:(lra) ltac:(lra)))));
      [reflexivity | | |].
    + rewrite (Hsq _ _ 0.5); lra.
    + rewrite (Hsq _ _ 0.5); lra.
    + replace (1000 * 0.4) with (sqrt (400 * 400))
        by (rewrite sqrt_square; lra).
      apply sqrt_le_1; lra.
  - apply (proj1 (proj2 (proj2 (proj2 (polyline_segment_suppressed_iff "hammer"
                                  1000 1000 1100 500 500 1100 st
                                  ltac:(lra) ltac:(lra))))));
      [reflexivity | |].
    + apply (Hsq _ _ 1.2); lra.
    + apply (Hsq _ _ 1.2); lra.
Defined.

(** C5, counterexample: on a 1000 x 1000 canvas in Hammer mode the points
    (250, 500) and (750, 500) both lie at the normalised radius 0.5, and the
    segment between them, 500 pixels long, is not connected: the length rule
    suppresses it and the polyline is drawn as two sub-paths. *)
Lemma hammer_radii_one_half_not_connected :
  sqrt ((250 / 1000 * 2 - 1) * (250 / 1000 * 2 - 1)
        + (500 / 1000 * 2 - 1) * (500 / 1000 * 2 - 1)) = 0.5 /\
  sqrt ((750 / 1000 * 2 - 1) * (750 / 1000 * 2 - 1)
        + (500 / 1000 * 2 - 1) * (500 / 1000 * 2 - 1)) = 0.5 /\
  shouldDraw "hammer" (Fin 1000) (Fin 1000)
    (Some {| sx := Fin 250; sy := Fin 500 |}) {| sx := Fin 750; sy := Fin 500 |}
  = false /\
  drawPolyline "hammer" (Fin 1000) (Fin 1000)
    [Some {| sx := Fin 250; sy := Fin 500 |};
     Some {| sx := Fin 750; sy := Fin 500 |}]
  = [BeginPath; MoveTo (Fin 250) (Fin 500); Stroke;
     BeginPath; MoveTo (Fin 750) (Fin 500); Stroke].
Proof.
  assert (forall a b c : R, 0 <= c -> a * a + b * b = c * c ->
                            sqrt (a * a + b * b) = c) as Hsq.
  { intros a b c Hc ->. apply sqrt_square. exact Hc. }
  assert (shouldDraw "hammer" (Fin 1000) (Fin 1000)
            (Some {| sx := Fin 250; sy := Fin 500 |})
            {| sx := Fin 750; sy := Fin 500 |} = false) as Hcut.
  { apply (shouldDraw_hammer 1000 1000 250 500 750 500); [lra | lra |].
    right. right. left. rewrite (Hsq _ _ 500); lra. }
  split; [apply Hsq; lra |]. split; [apply Hsq; lra |].
  split; [exact Hcut |].
  unfold drawPolyline. cbn [fold_left pathStep first lastPos issued].
  rewrite Hcut. reflexivity.
Qed.

(** *** Picking *)

Lemma lt_trans_not (a b c : JS.num) :
  JS.lt a b = true -> JS.lt c b = false -> JS.le c a = false.
Proof.
  destruct a as [x | | |], b as [y | | |], c as [u | | |];
    cbn [JS.lt JS.le]; try discriminate; try reflexivity; intros H1 H2.
  apply Rltb_true_iff in H1. apply Rltb_false_iff in H2.
  apply Rleb_false_iff. lra.
Qed.

Lemma sqrt_not_NInf (a : JS.num) : JS.sqrt a <> NInf.
Proof.
  destruct a as [x | | |]; cbn [JS.sqrt]; try discriminate.
  destruct (Rlt_dec x 0); discriminate.
Qed.

Lemma lt_irrefl (a : JS.num) : JS.lt a a = false.
Proof.
  destruct a; cbn [JS.lt]; try reflexivity. apply Rltb_false_iff. lra.
Qed.

Lemma lt_asym_false (a b : JS.num) : JS.lt a b = true -> JS.lt b a = false.
Proof.
  destruct a, b; cbn [JS.lt]; try discriminate; try reflexivity.
  intros H. apply Rltb_true_iff in H. apply Rltb_false_iff. lra.
Qed.

Lemma lt_false_trans (a b c : JS.num) :
  JS.lt a b = true -> JS.lt c b = false -> JS.lt c a = false.
Proof.
  destruct a as [x | | |], b as [y | | |], c as [u | | |];
    cbn [JS.lt]; try discriminate; try reflexivity; intros H1 H2.
  apply Rltb_true_iff in H1. apply Rltb_false_iff in H2.
  apply Rltb_false_iff. lra.
Qed.

Lemma nth_error_snoc {A : Type} (l : list A) (a b : A) (j : nat) :
  nth_error (l ++ [a]) j = Some b ->
  ((j < List.length l)%nat /\ nth_error l j = Some b)
  \/ (j = List.length l /\ b = a).
Proof.
  intros H. destruct (Nat.lt_ge_cases j (List.length l)) as [Hlt | Hge].
  - left. split; [exact Hlt |]. rewrite nth_error_app1 in H; assumption.
  - right. rewrite nth_error_app2 in H by exact Hge.
    destruct (j - List.length l)%nat as [| k] eqn:Hk.
    + cbn in H. injection H as <-. split; [lia | reflexivity].
    + cbn in H. destruct k; discriminate H.
Qed.

Lemma lt_true_not_NaN (a b : JS.num) : JS.lt a b = true -> a <> NaN.
Proof. intros H ->. discriminate H. Qed.

Lemma pickStep_inv (e : Engine) (mouseX mouseY : JS.num)
  (l : list TStar) (p : Pick) (s : TStar) :
  PickInv e mouseX mouseY l p ->
  PickInv e mouseX mouseY (l ++ [s]) (pickStep e mouseX mouseY p s).
Proof.
  intros (Hall & Hsel & Hnan).
  assert (forall i s0,
    nth_error l i = Some s0 ->
    (forall j s' q', (j < i)%nat -> nth_error l j = Some s' ->
       projectPoint e (coords s') = Some q' ->
       JS.le (pixelDistance mouseX mouseY q') (minDistance p) = false) ->
    nth_error (l ++ [s]) i = Some s0 /\
    (forall j s' q', (j < i)%nat -> nth_error (l ++ [s]) j = Some s' ->
       projectPoint e (coords s') = Some q' ->
       JS.le (pixelDistance mouseX mouseY q') (minDistance p) = false))
    as Hkeep.
  { intros i s0 Hi Hbefore.
    assert (i < List.length l)%nat as Hil
        by (apply nth_error_Some; congruence).
    split; [rewrite nth_error_app1 by exact Hil; exact Hi |].
    intros j s' q' Hj Hn Hq'.
    rewrite nth_error_app1 in Hn by lia.
    apply (Hbefore j s' q'); assumption. }
  assert (forall d,
    (forall q, projectPoint e (coords s) = Some q ->
               JS.lt (pixelDistance mouseX mouseY q) d = false) ->
    (forall j s' q', nth_error l j = Some s' ->
       projectPoint e (coords s') = Some q' ->
       JS.lt (pixelDistance mouseX mouseY q') d = false) ->
    forall j s' q', nth_error (l ++ [s]) j = Some s' ->
       projectPoint e (coords s') = Some q' ->
       JS.lt (pixelDistance mouseX mouseY q') d = false) as Hsnoc.
  { intros d Hnew Hold j s' q' Hj Hq'.
    destruct (nth_error_snoc _ _ _ _ Hj) as [[_ Hj'] | [_ ->]].
    - apply (Hold j s' q'); assumption.
    - apply Hnew. exact Hq'. }
  unfold pickStep.
  destruct (projectPoint e (coords s)) as [q |] eqn:Hq.
  - destruct (JS.lt (pixelDistance mouseX mouseY q) (minDistance p)) eqn:Hlt.
    + (* the new star is strictly nearer *)
      split; [| split]; cbn [minDistance closestStar closestProjected].
      * apply Hsnoc.
        -- intros q0 H0. injection H0 as <-. apply lt_irrefl.
        -- intros j s' q' Hj Hq'.
           apply (lt_false_trans _ (minDistance p)); [exact Hlt |].
           apply (Hall j s' q'); assumption.
      * right. exists (List.length l), s, q.
        split; [rewrite nth_error_app2, Nat.sub_diag by lia; reflexivity |].
        repeat (split; [reflexivity || exact Hq |]).
        intros j s' q' Hj Hn Hq'.
        rewrite nth_error_app1 in Hn by exact Hj.
        apply (lt_trans_not _ (minDistance p)); [exact Hlt |].
        apply (Hall j s' q'); assumption.
      * apply (lt_true_not_NaN _ _ Hlt).
    + (* the accumulator is kept *)
      split; [| split; [| exact Hnan]].
      * apply Hsnoc; [| exact Hall].
        intros q0 H0. injection H0 as <-. exact Hlt.
      * destruct Hsel
          as [Hnone | (i & s0 & q0 & Hi & Hq0 & Hc & Hp & Hm & Hbefore)];
          [left; exact Hnone | right].
        exists i, s0, q0.
        destruct (Hkeep i s0 Hi Hbefore) as [Hi' Hbefore'].
        repeat (split; [assumption |]). exact Hbefore'.
  - (* the star has no screen position *)
    split; [| split; [| exact Hnan]].
    + apply Hsnoc; [| exact Hall]. intros q0 H0. discriminate H0.
    + destruct Hsel
        as [Hnone | (i & s0 & q0 & Hi & Hq0 & Hc & Hp & Hm & Hbefore)];
        [left; exact Hnone | right].
      exists i, s0, q0.
      destruct (Hkeep i s0 Hi Hbefore) as [Hi' Hbefore'].
      repeat (split; [assumption |]). exact Hbefore'.
Qed.

Lemma pickFold_inv (e : Engine) (mouseX mouseY : JS.num)
  (rest : list TStar) :
  forall (visited : list TStar) (p : Pick),
    PickInv e mouseX mouseY visited p ->
    PickInv e mouseX mouseY (visited ++ rest)
      (fold_left (pickStep e mouseX mouseY) rest p).
Proof.
  induction rest as [| s rest IH]; intros visited p Hinv; cbn [fold_left].
  - rewrite app_nil_r. exact Hinv.
  - replace (visited ++ s :: rest) with ((visited ++ [s]) ++ rest)
      by (rewrite <- app_assoc; reflexivity).
    apply IH. apply pickStep_inv. exact Hinv.
Qed.

Lemma pickClosest_inv (e : Engine) (mouseX mouseY : JS.num)
  (ts : list TStar) :
  PickInv e mouseX mouseY ts (pickClosest e mouseX mouseY ts).
Proof.
  unfold pickClosest. apply (pickFold_inv e mouseX mouseY ts [] pickInit).
  split; [| split].
  - intros j s' q' Hj. destruct j; discriminate Hj.
  - left. repeat split.
  - discriminate.
Qed.

(** The result of the fold, read as the specification puts it. *)
Lemma pickHit_first_nearest (e : Engine) (mouseX mouseY : JS.num)
  (ts : list TStar) :
  match pickHit (pickClosest e mouseX mouseY ts) with
  | Some (s, q) =>
      exists (i : nat) (d : R),
        isFirstNearest e mouseX mouseY ts i s q d /\ d < 10
  | None =>
      forall (j : nat) (s' : TStar) (q' : ScreenPoint) (r : R),
        nth_error ts j = Some s' ->
        projectPoint e (coords s') = Some q' ->
        pixelDistance mouseX mouseY q' = Fin r ->
        10 <= r
  end.
Proof.
  destruct (pickClosest_inv e mouseX mouseY ts) as (Hall & Hsel & Hnan).
  set (p := pickClosest e mouseX mouseY ts) in *.
  unfold pickHit, threshold.
  destruct (JS.lt (minDistance p) (Fin 10)) eqn:Hlt.
  - destruct Hsel
      as [(Hc & Hp & Hm) | (i & s & q & Hi & Hq & Hc & Hp & Hm & Hbefore)].
    + rewrite Hm in Hlt. discriminate Hlt.
    + rewrite Hc, Hp. rewrite Hm in Hlt, Hall, Hbefore.
      destruct (pixelDistance mouseX mouseY q) as [d | | |] eqn:Hd;
        try discriminate Hlt.
      2: { unfold pixelDistance in Hd. elim (sqrt_not_NInf _ Hd). }
      exists i, d. cbn [JS.lt] in Hlt. apply Rltb_true_iff in Hlt.
      split; [| exact Hlt].
      repeat (split; [assumption |]).
      intros j s' q' r Hj Hq' Hr. split.
      * specialize (Hall j s' q' Hj Hq'). rewrite Hr in Hall.
        cbn [JS.lt] in Hall. apply Rltb_false_iff in Hall. exact Hall.
      * intros Hji. specialize (Hbefore j s' q' Hji Hj Hq').
        rewrite Hr in Hbefore. cbn [JS.le] in Hbefore.
        apply Rleb_false_iff in Hbefore. exact Hbefore.
  - intros j s' q' r Hj Hq' Hr.
    specialize (Hall j s' q' Hj Hq'). rewrite Hr in Hall.
    destruct (minDistance p) as [m | | |]; cbn [JS.lt] in Hall, Hlt;
      try discriminate; [| congruence].
    apply Rltb_false_iff in Hall. apply Rltb_false_iff in Hlt. lra.
Qed.

(** The listener, step by step, when a catalog is loaded. *)
Lemma onClick_steps (e0 : Engine) (fuel : nat)
  (clientX clientY rectLeft rectTop : JS.num) (now renderNow : Date)
  (l : list Star) :
  stars e0 = Some l ->
  let t := pickInstant e0 now in
  let e1 := with_lastClickTime e0 (Some t) in
  let e2 := updateMatrices e1 in
  exists ts : list TStar,
    transformStarsForProjection e1 (S fuel) (Some l)
      (projectionType (view e0)) t = Some ts /\
    List.length ts = List.length l /\
    onClick e0 (S fuel) clientX clientY rectLeft rectTop now renderNow
    = match pickHit (pickClosest e2 (JS.sub clientX rectLeft)
                       (JS.sub clientY rectTop) ts) with
      | Some (s, _) =>
          render
            (with_activeStars e2
               (map_set (id (source s))
                  {| star := s; timeCreated := t |} (activeStars e0)))
            (S fuel) renderNow
      | None => Some e2
      end /\
    activeStars e2 = activeStars e0 /\ view e2 = view e0 /\
    stars e2 = stars e0 /\ canvas e2 = canvas e0 /\
    lastClickTime e2 = Some t.
Proof.
  intros Hl t e1 e2.
  destruct (transformStarsForProjection_total e1 fuel (Some l)
              (projectionType (view e0)) t) as [ts Hts].
  exists ts. split; [exact Hts |].
  assert (List.length ts = List.length l) as Hlen.
  { unfold transformStarsForProjection in Hts.
    destruct l as [| s l]; [injection Hts as <-; reflexivity |].
    destruct (mapOpt_total
                (transformStar e1 (S fuel) (projectionType (view e0))
                   (localSiderealTime e1 t)) (s :: l)) as (bs & Hbs & Hn).
    { intros a. destruct (transformStar_total e1 fuel
                            (projectionType (view e0))
                            (localSiderealTime e1 t) a) as (b & Hb & _).
      eauto. }
    congruence. }
  split; [exact Hlen |].
  assert (activeStars e2 = activeStars e0 /\ view e2 = view e0 /\
          stars e2 = stars e0 /\ canvas e2 = canvas e0 /\
          lastClickTime e2 = Some t) as Hsame.
  { unfold e2, updateMatrices.
    destruct (mode_is e1 "spherical"); repeat split. }
  split; [| exact Hsame].
  unfold onClick. rewrite Hl.
  fold t. fold e1.
  change (stars e1) with (stars e0). rewrite Hl.
  change (projectionType (view e1)) with (projectionType (view e0)).
  rewrite Hts. fold e2.
  destruct (pickHit _) as [[s q] |]; [| reflexivity].
  rewrite (proj1 Hsame). reflexivity.
Qed.

(** C4, as the code has it: the click listener transforms the whole star
    list at the instant of the last render (at the clock of the event only
    when nothing has been rendered yet), projects every star, and keeps the
    star of least pixel distance to the pointer, the first one in list order
    among equals; that star is hit exactly when its distance is below 10
    pixels.  On a hit the star is entered in [activeStars] and the scene is
    redrawn; otherwise nothing is selected: [activeStars], the camera, the
    catalog and the canvas are as before, while the pick instant is noted in
    [lastClickTime] and the matrices are recomputed. *)
Theorem click_picks_first_nearest_star_below_threshold (e0 : Engine) :
  (forall (e : Engine) (mouseX mouseY : JS.num) (ts : list TStar),
      match pickHit (pickClosest e mouseX mouseY ts) with
      | Some (s, q) =>
          exists (i : nat) (d : R),
            isFirstNearest e mouseX mouseY ts i s q d /\ d < 10
      | None =>
          forall (j : nat) (s' : TStar) (q' : ScreenPoint) (r : R),
            nth_error ts j = Some s' ->
            projectPoint e (coords s') = Some q' ->
            pixelDistance mouseX mouseY q' = Fin r ->
            10 <= r
      end) /\
  (forall t : Date, currentRenderTime e0 = Some t ->
      forall now : Date, pickInstant e0 now = t) /\
  (currentRenderTime e0 = None -> forall now : Date, pickInstant e0 now = now) /\
  (forall (fuel : nat) (clientX clientY rectLeft rectTop : JS.num)
          (now renderNow : Date) (l : list Star),
      stars e0 = Some l ->
      let t := pickInstant e0 now in
      let e1 := with_lastClickTime e0 (Some t) in
      let e2 := updateMatrices e1 in
      exists ts : list TStar,
        transformStarsForProjection e1 (S fuel) (Some l)
          (projectionType (view e0)) t = Some ts /\
        List.length ts = List.length l /\
        onClick e0 (S fuel) clientX clientY rectLeft rectTop now renderNow
        = match pickHit (pickClosest e2 (JS.sub clientX rectLeft)
                           (JS.sub clientY rectTop) ts) with
          | Some (s, _) =>
              render
                (with_activeStars e2
                   (map_set (id (source s))
                      {| star := s; timeCreated := t |} (activeStars e0)))
                (S fuel) renderNow
          | None => Some e2
          end /\
        activeStars e2 = activeStars e0 /\ view e2 = view e0 /\
        stars e2 = stars e0 /\ canvas e2 = canvas e0 /\
        lastClickTime e2 = Some t).
Proof.
  split; [intros e mouseX mouseY ts; apply pickHit_first_nearest |].
  split; [intros t Ht now; unfold pickInstant; rewrite Ht; reflexivity |].
  split; [intros Ht now; unfold pickInstant; rewrite Ht; reflexivity |].
  intros fuel clientX clientY rectLeft rectTop now renderNow l Hl.
  apply onClick_steps. exact Hl.
Qed.

(** The scenario of the specification: two stars drawn at the pixels
    (100, 100) and (500, 500) of a 1000 x 1000 canvas. *)
Lemma projectPoint_constructed (W H a b c : R) :
  projectPoint (constructed (Fin W) (Fin H))
    {| x := Fin a; y := Fin b; z := Fin c |}
  = Some {| sx := Fin ((a + 1) * W / 2); sy := Fin ((- b + 1) * H / 2) |}.
Proof.
  rewrite projectPoint_unfold. unfold clipCoords, GlMatrix.transformMat4.
  cbv zeta.
  cbn [constructed currentModelView currentProjection canvas width height
       x y z GlMatrix.identity GlMatrix.zero GlMatrix.one
       GlMatrix.v0 GlMatrix.v1 GlMatrix.v2 GlMatrix.v3
       GlMatrix.m0 GlMatrix.m1 GlMatrix.m2 GlMatrix.m3
       GlMatrix.m4 GlMatrix.m5 GlMatrix.m6 GlMatrix.m7
       GlMatrix.m8 GlMatrix.m9 GlMatrix.m10 GlMatrix.m11
       GlMatrix.m12 GlMatrix.m13 GlMatrix.m14 GlMatrix.m15].
  unfold GlMatrix.zero, GlMatrix.one.
  js_fin. cbn [JS.le]. unfold JS.Rleb.
  match goal with
  | |- context [Rle_dec ?u 0] => destruct (Rle_dec u 0) as [Hle | _]
  end; [lra |].
  js_fin. do 2 f_equal; f_equal; field.
Qed.

Lemma pixelDistance_fin (mx my a b : R) :
  pixelDistance (Fin mx) (Fin my) {| sx := Fin a; sy := Fin b |}
  = Fin (sqrt ((a - mx) * (a - mx) + (b - my) * (b - my))).
Proof. unfold pixelDistance. cbn [sx sy]. js_fin. reflexivity. Qed.

Example pick_scenario_hit :
  let e := constructed (Fin 1000) (Fin 1000) in
  let s1 := {| source := catalogStar "first" (Fin 0) (Fin 0);
               coords := {| x := Fin (-0.8); y := Fin 0.8; z := Fin 0 |} |} in
  let s2 := {| source := catalogStar "second" (Fin 0) (Fin 0);
               coords := {| x := Fin 0; y := Fin 0; z := Fin 0 |} |} in
  projectPoint e (coords s1) = Some {| sx := Fin 100; sy := Fin 100 |} /\
  projectPoint e (coords s2) = Some {| sx := Fin 500; sy := Fin 500 |} /\
  pickHit (pickClosest e (Fin 103) (Fin 102) [s1; s2])
    = Some (s1, {| sx := Fin 100; sy := Fin 100 |}) /\
  pickHit (pickClosest e (Fin 300) (Fin 300) [s1; s2]) = None.
Proof.
  intros e s1 s2.
  assert (projectPoint e (coords s1) = Some {| sx := Fin 100; sy := Fin 100 |})
    as H1.
  { unfold e, s1. cbn [coords]. rewrite projectPoint_constructed.
    do 2 f_equal; f_equal; lra. }
  assert (projectPoint e (coords s2) = Some {| sx := Fin 500; sy := Fin 500 |})
    as H2.
  { unfold e, s2. cbn [coords]. rewrite projectPoint_constructed.
    do 2 f_equal; f_equal; lra. }
  assert (forall a : R, 0 <= a -> a * a < 100 -> sqrt (a * a) < 10) as Hs.
  { intros a Ha Hlt. rewrite sqrt_square by exact Ha. nra. }
  split; [exact H1 |]. split; [exact H2 |]. split.
  - unfold pickClosest. cbn [fold_left]. unfold pickStep.
    rewrite H1, H2, !pixelDistance_fin. cbn [pickInit minDistance JS.lt].
    rewrite (proj2 (Rltb_false_iff _ _)).
    2: { apply sqrt_le_1; lra. }
    unfold pickHit, threshold. cbn [minDistance closestStar closestProjected JS.lt].
    rewrite (proj2 (Rltb_true_iff _ _)); [reflexivity |].
    replace 10 with (sqrt (10 * 10)) by (apply sqrt_square; lra).
    apply sqrt_lt_1; lra.
  - unfold pickClosest. cbn [fold_left]. unfold pickStep.
    rewrite H1, H2, !pixelDistance_fin. cbn [pickInit minDistance JS.lt].
    rewrite (proj2 (Rltb_false_iff _ _)).
    2: { apply sqrt_le_1; lra. }
    unfold pickHit, threshold. cbn [minDistance closestStar closestProjected JS.lt].
    rewrite (proj2 (Rltb_false_iff _ _)); [reflexivity |].
    replace 10 with (sqrt (10 * 10)) by (apply sqrt_square; lra).
    apply sqrt_le_1; lra.
Qed.

(** Witness: the scenario above, and a click on the constructed state once
    a catalog of one star is loaded. *)
Lemma click_picks_first_nearest_star_below_threshold_witness :
  let e := constructed (Fin 1000) (Fin 1000) in
  let l := [catalogStar "s" (Fin 6) (Fin 30)] in
  let e0 := with_stars e (Some l) in
  stars e0 = Some l /\
  exists ts : list TStar,
    transformStarsForProjection
      (with_lastClickTime e0 (Some (pickInstant e0 (utc 1 2 3 4)))) 1 (Some l)
      (projectionType (view e0)) (pickInstant e0 (utc 1 2 3 4)) = Some ts /\
    List.length ts = List.length l.
Proof.
  intros e l e0. split; [reflexivity |].
  destruct (proj2 (proj2 (proj2
                (click_picks_first_nearest_star_below_threshold e0)))
              0%nat (Fin 10) (Fin 10) (Fin 0) (Fin 0)
              (utc 1 2 3 4) (utc 1 2 3 5) l eq_refl)
    as (ts & Hts & Hlen & _).
  exists ts. split; assumption.
Defined.

(** *** The click scenario, evaluated *)

Lemma projectPoint_clickScenario (e : Engine) (a b : R) :
  view e = view clickScenario -> canvas e = canvas clickScenario ->
  projectPoint (updateMatrices e) {| x := Fin a; y := Fin b; z := Fin 0 |}
  = Some {| sx := Fin ((a / 2 + 1) * 1000 / 2);
            sy := Fin ((- b / 2 + 1) * 1000 / 2) |}.
Proof.
  intros Hv Hc. rewrite projectPoint_unfold.
  unfold clipCoords, updateMatrices, mode_is. rewrite Hv, Hc.
  cbn [clickScenario with_currentRenderTime with_stars with_longitude inMode
       with_view with_projectionType constructed view canvas projectionType
       String.eqb Ascii.eqb Bool.eqb negb
       scale pan_y pan_x clientWidth clientHeight width height
       with_matrices currentModelView currentProjection
       GlMatrix.translate GlMatrix.scale GlMatrix.identity GlMatrix.ortho
       GlMatrix.transformMat4 x y z
       GlMatrix.v0 GlMatrix.v1 GlMatrix.v2 GlMatrix.v3
       GlMatrix.m0 GlMatrix.m1 GlMatrix.m2 GlMatrix.m3
       GlMatrix.m4 GlMatrix.m5 GlMatrix.m6 GlMatrix.m7
       GlMatrix.m8 GlMatrix.m9 GlMatrix.m10 GlMatrix.m11
       GlMatrix.m12 GlMatrix.m13 GlMatrix.m14 GlMatrix.m15].
  cbv iota zeta. unfold GlMatrix.zero, GlMatrix.one.
  js_fin. rewrite Hc.
  cbn [clickScenario with_currentRenderTime with_stars with_longitude inMode
       with_view constructed canvas width height].
  cbn [JS.le]. unfold JS.Rleb.
  match goal with
  | |- context [Rle_dec ?u 0] => destruct (Rle_dec u 0) as [Hle | _]
  end; [lra |].
  js_fin. do 2 f_equal; f_equal; field.
Qed.

Lemma transform_clickScenario (e : Engine) (h : Z) :
  longitude e = Fin 0 -> view e = view clickScenario ->
  (0 <= h <= 12)%Z ->
  transformStarsForProjection e 1 (Some [catalogStar "s" (Fin 12) (Fin 0)])
    "mercator" (utc h 0 0 0)
  = Some [ {| source := catalogStar "s" (Fin 12) (Fin 0);
              coords := {| x := Fin (- IZR h * PI / 12);
                           y := Fin 0; z := Fin 0 |} |} ].
Proof.
  intros Hlon Hv [Hh0 Hh12]. apply IZR_le in Hh0. apply IZR_le in Hh12.
  unfold transformStarsForProjection. cbn [mapOpt]. unfold transformStar.
  cbn [String.eqb Ascii.eqb Bool.eqb]. cbv iota.
  rewrite (localSiderealTime_fin e _ 0 Hlon).
  cbn [utc getUTCHours getUTCMinutes getUTCSeconds getUTCMilliseconds].
  rewrite (rotatedRA_fin _ 12) by reflexivity.
  assert (JS.Rfmod
            (12 * 15 - ((IZR h + 0 / 60 + 0 / 3600 + 0 / 3600000) * 15 + 0)
             + 360) 360 = 180 - 15 * IZR h) as ->.
  { rewrite (Rfmod_eq _ 360 1); [lra | lra | intros; lra | intros; lra]. }
  cbn [dec catalogStar]. rewrite div_fin by lra.
  rewrite (equatorialToMercator_fin e _ 0 0)
    by (rewrite Hv; reflexivity).
  assert (mode_is e "mercator" = true) as ->
    by (unfold mode_is; rewrite Hv; reflexivity).
  assert (JS.Rfmod
            (JS.Rfmod ((180 - 15 * IZR h) / 15 * 15 - 0 * 180 / PI) 360
             + 360) 360 = 180 - 15 * IZR h) as ->.
  { replace ((180 - 15 * IZR h) / 15 * 15 - 0 * 180 / PI)
      with (180 - 15 * IZR h) by (field; apply PI_neq0).
    rewrite (Rfmod_small (180 - 15 * IZR h)) by lra.
    rewrite (Rfmod_eq _ 360 1); [lra | lra | intros; lra | intros; lra]. }
  assert (Rmax (Rmin (0 * PI / 180) 1.4835) (-1.4835) = 0) as ->.
  { unfold Rmax, Rmin.
    destruct (Rle_dec (0 * PI / 180) 1.4835);
      destruct (Rle_dec _ (-1.4835)); lra. }
  replace (PI / 4 + 0 / 2) with (PI / 4) by lra.
  rewrite tan_PI4, ln_1.
  do 5 f_equal. field.
Qed.

Lemma pick_single (e : Engine) (mx my a b : R) (s : TStar) :
  projectPoint e (coords s) = Some {| sx := Fin a; sy := Fin b |} ->
  pickHit (pickClosest e (Fin mx) (Fin my) [s])
  = if Rlt_dec (sqrt ((a - mx) * (a - mx) + (b - my) * (b - my))) 10
    then Some (s, {| sx := Fin a; sy := Fin b |}) else None.
Proof.
  intros Hp. unfold pickClosest. cbn [fold_left]. unfold pickStep.
  rewrite Hp, pixelDistance_fin. cbn [pickInit minDistance JS.lt].
  unfold pickHit, threshold.
  cbn [minDistance closestStar closestProjected JS.lt]. unfold JS.Rltb.
  destruct (Rlt_dec _ 10); reflexivity.
Qed.

(** C4, counterexample: the view was last rendered at 00:00 UTC and shows
    the star at the pixel (500, 500); the click comes at 06:00 UTC, when the
    pipeline puts the star at x = -PI/2, some 393 pixels to the left.  A pick
    at the instant of the event finds nothing under the pointer at
    (500, 500); the listener transforms at 00:00 instead and registers the
    hit.  And a click at (0, 0), which hits nothing, still writes
    [lastClickTime]. *)
Lemma click_transforms_at_last_render_not_at_event :
  let e := clickScenario in
  let rendered := utc 0 0 0 0 in
  let now := utc 6 0 0 0 in
  let e2 := updateMatrices (with_lastClickTime e (Some rendered)) in
  let shown := {| source := catalogStar "s" (Fin 12) (Fin 0);
                  coords := {| x := Fin 0; y := Fin 0; z := Fin 0 |} |} in
  let moved := {| source := catalogStar "s" (Fin 12) (Fin 0);
                  coords := {| x := Fin (- (PI / 2)); y := Fin 0;
                               z := Fin 0 |} |} in
  currentRenderTime e = Some rendered /\
  transformStarsForProjection e 1 (stars e) "mercator" now = Some [moved] /\
  pickHit (pickClosest e2 (Fin (500 - 0)) (Fin (500 - 0)) [moved]) = None /\
  onClick e 1 (Fin 500) (Fin 500) (Fin 0) (Fin 0) now now
    = render (with_activeStars e2
                [("s"%string, {| star := shown; timeCreated := rendered |})])
        1 now /\
  onClick e 1 (Fin 0) (Fin 0) (Fin 0) (Fin 0) now now = Some e2 /\
  lastClickTime e = None /\ lastClickTime e2 = Some rendered.
Proof.
  intros e rendered now e2 shown moved.
  set (e1 := with_lastClickTime e (Some rendered)).
  assert (transformStarsForProjection e1 1
            (Some [catalogStar "s" (Fin 12) (Fin 0)]) "mercator" rendered
          = Some [shown]) as Hshown.
  { unfold rendered. rewrite (transform_clickScenario e1 0) by
      (reflexivity || lia).
    unfold shown. do 5 f_equal. lra. }
  assert (transformStarsForProjection e 1
            (Some [catalogStar "s" (Fin 12) (Fin 0)]) "mercator" now
          = Some [moved]) as Hmoved.
  { unfold now. rewrite (transform_clickScenario e 6) by
      (reflexivity || lia).
    unfold moved. do 5 f_equal. lra. }
  assert (projectPoint e2 (coords shown)
          = Some {| sx := Fin ((0 / 2 + 1) * 1000 / 2);
                    sy := Fin ((- 0 / 2 + 1) * 1000 / 2) |}) as Hp0
    by (apply (projectPoint_clickScenario e1 0 0); reflexivity).
  assert (projectPoint e2 (coords moved)
          = Some {| sx := Fin ((- (PI / 2) / 2 + 1) * 1000 / 2);
                    sy := Fin ((- 0 / 2 + 1) * 1000 / 2) |}) as Hp6
    by (apply (projectPoint_clickScenario e1 (- (PI / 2)) 0); reflexivity).
  assert (forall u : R, 100 <= u -> ~ sqrt u < 10) as Hfar.
  { intros u Hu Hlt.
    assert (sqrt (10 * 10) <= sqrt u) as Hle by (apply sqrt_le_1; lra).
    rewrite sqrt_square in Hle by lra. lra. }
  split; [reflexivity |]. split; [exact Hmoved |]. split.
  { rewrite (pick_single e2 _ _ _ _ moved Hp6).
    destruct (Rlt_dec _ 10) as [Hlt | _]; [| reflexivity].
    exfalso. revert Hlt. apply Hfar. pose proof PI_lower. nra. }
  split.
  - destruct (onClick_steps e 0 (Fin 500) (Fin 500) (Fin 0) (Fin 0) now now
                [catalogStar "s" (Fin 12) (Fin 0)] eq_refl)
      as (ts & Hts & _ & Hon & _).
    change (pickInstant e now) with rendered in Hts, Hon.
    change (with_lastClickTime e (Some rendered)) with e1 in Hts, Hon.
    change (projectionType (view e)) with "mercator"%string in Hts.
    rewrite Hshown in Hts. injection Hts as <-.
    rewrite Hon. fold e2. rewrite sub_fin.
    rewrite (pick_single e2 _ _ _ _ shown Hp0).
    destruct (Rlt_dec _ 10) as [_ | Hn]; [reflexivity |].
    exfalso. apply Hn.
    match goal with |- sqrt ?u < 10 => replace u with 0 by lra end.
    rewrite sqrt_0. lra.
  - split; [| split; reflexivity].
    destruct (onClick_steps e 0 (Fin 0) (Fin 0) (Fin 0) (Fin 0) now now
                [catalogStar "s" (Fin 12) (Fin 0)] eq_refl)
      as (ts & Hts & _ & Hon & _).
    change (pickInstant e now) with rendered in Hts, Hon.
    change (with_lastClickTime e (Some rendered)) with e1 in Hts, Hon.
    change (projectionType (view e)) with "mercator"%string in Hts.
    rewrite Hshown in Hts. injection Hts as <-.
    rewrite Hon. fold e2. rewrite sub_fin.
    rewrite (pick_single e2 _ _ _ _ shown Hp0).
    destruct (Rlt_dec _ 10) as [Hlt | _]; [| reflexivity].
    exfalso. revert Hlt. apply Hfar. lra.
Qed.

(** ** Further properties of the renderer *)

(** *** The pipeline keeps the catalog *)

Lemma mapOpt_inverse {A B : Type} (f : A -> option B) (g : B -> A)
  (l : list A) (bs : list B) :
  (forall a b, f a = Some b -> g b = a) ->
  mapOpt f l = Some bs -> List.map g bs = l.
Proof.
  intros Hfg. revert bs. induction l as [| a l IH]; intros bs H; cbn in H.
  - injection H as <-. reflexivity.
  - destruct (f a) as [b |] eqn:Hb; [| discriminate H].
    destruct (mapOpt f l) as [bs' |]; [| discriminate H].
    injection H as <-. cbn. rewrite (Hfg a b Hb), (IH bs' eq_refl).
    reflexivity.
Qed.

Lemma transformStar_source (e : Engine) (fuel : nat) (type : string)
  (lst : JS.num) (s : Star) (ts : TStar) :
  transformStar e fuel type lst s = Some ts -> source ts = s.
Proof.
  unfold transformStar.
  destruct (if String.eqb type "stereographic" then _ else _) as [c |];
    intros H; [injection H as <-; reflexivity | discriminate H].
Qed.

(** X1: [transformStarsForProjection] returns (one unit of fuel suffices)
    one transformed record per catalog star, in catalog order, each carrying
    the unchanged catalog fields of its star; a null or empty catalog gives
    the empty list. *)
Theorem transformStars_keeps_catalog (e : Engine) (fuel : nat)
  (stars : option (list Star)) (type : string) (t : Date) :
  exists ts : list TStar,
    transformStarsForProjection e (S fuel) stars type t = Some ts /\
    List.map source ts = match stars with Some l => l | None => [] end.
Proof.
  destruct (transformStarsForProjection_total e fuel stars type t) as [ts Hts].
  exists ts. split; [exact Hts |].
  unfold transformStarsForProjection in Hts.
  destruct stars as [[| s l] |]; try (injection Hts as <-; reflexivity).
  eapply mapOpt_inverse; [| exact Hts].
  intros a b. apply transformStar_source.
Qed.

(** *** Canvas size *)

Lemma seq_eq (a b : JS.num) : JS.seq a b = true -> a = b.
Proof.
  destruct a, b; cbn [JS.seq]; try discriminate; try reflexivity.
  intros H. apply Reqb_true_iff in H. congruence.
Qed.

(** X2: after [resize] the drawing-buffer size of the canvas is its display
    size, nothing else of the state has changed, and a second [resize] in a
    row changes nothing more. *)
Theorem resize_adopts_display_size (e : Engine) :
  width (canvas (resize e)) = clientWidth (canvas e) /\
  height (canvas (resize e)) = clientHeight (canvas e) /\
  clientWidth (canvas (resize e)) = clientWidth (canvas e) /\
  clientHeight (canvas (resize e)) = clientHeight (canvas e) /\
  view (resize e) = view e /\ stars (resize e) = stars e /\
  activeStars (resize e) = activeStars e /\
  resize (resize e) = resize e.
Proof.
  destruct e as [lon [w h cw ch] v st act crt lct mv pr].
  unfold resize. cbn [canvas width height clientWidth clientHeight].
  destruct (JS.sneq w cw || JS.sneq h ch) eqn:Hc.
  - cbn [with_canvas canvas width height clientWidth clientHeight view stars
         activeStars].
    repeat (split; [reflexivity |]).
    destruct (JS.sneq cw cw || JS.sneq ch ch); reflexivity.
  - pose proof Hc as Hc'. apply orb_false_elim in Hc'. destruct Hc' as [Hw Hh].
    unfold JS.sneq in Hw, Hh. apply negb_false_iff in Hw, Hh.
    apply seq_eq in Hw, Hh. subst cw ch.
    cbn [canvas width height clientWidth clientHeight view stars activeStars].
    repeat (split; [reflexivity |]).
    rewrite Hc. reflexivity.
Qed.

(** *** Active stars *)

Local Abbreviation retargetStep :=
  (fun (m : list (string * ActiveStar)) (ts : TStar) =>
     if map_has (id (source ts)) m then map_retarget ts m else m).

Local Abbreviation entryStep :=
  (fun (ka : string * ActiveStar) (ts : TStar) =>
     if String.eqb (id (source ts)) (fst ka)
     then (fst ka, {| star := ts; timeCreated := timeCreated (snd ka) |})
     else ka).

Lemma map_retarget_absent (ts : TStar) (m : list (string * ActiveStar)) :
  map_has (id (source ts)) m = false -> map_retarget ts m = m.
Proof.
  unfold map_retarget. induction m as [| [k a] m IH]; [reflexivity |].
  cbn [map_has List.map fst]. intros H. apply orb_false_iff in H.
  destruct H as [H1 H2]. rewrite H1, (IH H2). reflexivity.
Qed.

Lemma retarget_fold_entries (l : list TStar) :
  forall m : list (string * ActiveStar),
    fold_left retargetStep l m
    = List.map (fun ka => fold_left entryStep l ka) m.
Proof.
  induction l as [| ts l IH]; intros m; cbn [fold_left].
  - symmetry. apply List.map_id.
  - rewrite IH.
    assert ((if map_has (id (source ts)) m then map_retarget ts m else m)
            = List.map (fun ka => entryStep ka ts) m) as ->.
    { destruct (map_has (id (source ts)) m) eqn:Hhas; [reflexivity |].
      rewrite <- (map_retarget_absent ts m Hhas) at 1. reflexivity. }
    rewrite List.map_map. reflexivity.
Qed.

Lemma entry_fold_keeps (l : list TStar) :
  forall ka : string * ActiveStar,
    fst (fold_left entryStep l ka) = fst ka /\
    timeCreated (snd (fold_left entryStep l ka)) = timeCreated (snd ka).
Proof.
  induction l as [| ts l IH]; intros ka; cbn [fold_left]; [auto |].
  destruct (IH (entryStep ka ts)) as [H1 H2]. rewrite H1, H2.
  destruct (String.eqb _ _); auto.
Qed.

Lemma entry_fold_no_match (l : list TStar) :
  forall ka : string * ActiveStar,
    existsb (fun ts => String.eqb (id (source ts)) (fst ka)) l = false ->
    fold_left entryStep l ka = ka.
Proof.
  induction l as [| ts l IH]; intros ka H; cbn [fold_left]; [reflexivity |].
  cbn [existsb] in H. apply orb_false_iff in H. destruct H as [H1 H2].
  rewrite H1. apply IH. exact H2.
Qed.

Lemma entry_fold_match (l : list TStar) :
  forall ka kb : string * ActiveStar,
    fst ka = fst kb ->
    timeCreated (snd ka) = timeCreated (snd kb) ->
    existsb (fun ts => String.eqb (id (source ts)) (fst ka)) l = true ->
    fold_left entryStep l ka = fold_left entryStep l kb.
Proof.
  induction l as [| ts l IH]; intros ka kb Hk Ht H; cbn [fold_left];
    [discriminate H |].
  cbn [existsb] in H. rewrite <- Hk, <- Ht.
  destruct (String.eqb (id (source ts)) (fst ka)) eqn:Hm; [reflexivity |].
  cbn [orb] in H.
  destruct ka as [k a], kb as [k' b]. cbn [fst snd] in *. subst k'.
  apply IH; [reflexivity | exact Ht | exact H].
Qed.

Lemma retarget_fold_twice (l : list TStar) (m : list (string * ActiveStar)) :
  fold_left retargetStep l (fold_left retargetStep l m)
  = fold_left retargetStep l m.
Proof.
  rewrite !retarget_fold_entries, List.map_map. apply List.map_ext.
  intros ka. destruct (entry_fold_keeps l ka) as [Hk Ht].
  destruct (existsb (fun ts => String.eqb (id (source ts)) (fst ka)) l)
    eqn:Hm.
  - apply entry_fold_match; [exact Hk | exact Ht |].
    rewrite Hk. exact Hm.
  - rewrite (entry_fold_no_match l ka Hm). apply entry_fold_no_match.
    exact Hm.
Qed.

(** Each entry ends with the last transformed record that carries its key,
    if there is one. *)
Lemma entry_fold_last (l : list TStar) :
  forall ka : string * ActiveStar,
    fold_left entryStep l ka
    = match List.find (fun r => String.eqb (id (source r)) (fst ka)) (rev l)
      with
      | Some r =>
          (fst ka, {| star := r; timeCreated := timeCreated (snd ka) |})
      | None => ka
      end.
Proof.
  induction l as [| r l IH] using rev_ind; intros ka; [reflexivity |].
  rewrite fold_left_app, rev_unit. cbn [fold_left List.find].
  destruct (entry_fold_keeps l ka) as [Hk Ht]. rewrite Hk, Ht.
  destruct (String.eqb (id (source r)) (fst ka)); [reflexivity |].
  apply IH.
Qed.

Lemma transformStars_sources (e : Engine) (fuel : nat)
  (stars : option (list Star)) (type : string) (t : Date) :
  exists ts : list TStar,
    transformStarsForProjection e (S fuel) stars type t = Some ts /\
    List.map source ts = match stars with Some l => l | None => [] end.
Proof.
  destruct (transformStarsForProjection_total e fuel stars type t)
    as [ts Hts].
  exists ts. split; [exact Hts |].
  unfold transformStarsForProjection in Hts.
  destruct stars as [[| s l] |];
    try (injection Hts as <-; reflexivity).
  eapply mapOpt_inverse; [| exact Hts].
  intros a b. apply transformStar_source.
Qed.


Lemma updateStarData_keys (e : Engine) (fuel : nat)
  (l : option (list Star)) (t : Date) :
  exists e' : Engine,
    updateStarData e (S fuel) l t = Some e' /\
    List.map fst (activeStars e') = List.map fst (activeStars e) /\
    view e' = view e.
Proof.
  unfold updateStarData.
  destruct l as [[| s l] |]; try (exists e; repeat split; reflexivity).
  destruct (transformStarsForProjection_total
              (with_stars e (Some (s :: l))) fuel (Some (s :: l))
              (projectionType (view (with_stars e (Some (s :: l))))) t)
    as [ts Hts].
  rewrite Hts. eexists. split; [reflexivity |].
  cbn [activeStars with_activeStars with_stars view].
  split; [| reflexivity].
  rewrite retarget_fold_entries, List.map_map. apply List.map_ext.
  intros ka. apply entry_fold_keeps.
Qed.

(** X3: [updateStarData] returns and leaves the camera and the canvas alone.
    With [ts] the records that [transformStarsForProjection] gives for the
    catalog at that instant, every entry of [activeStars] keeps its place,
    its key and its creation time, and its star becomes the transformed
    record of [ts] that carries the key (the last one, should several
    catalog stars share the id); an entry whose key no catalog star carries
    is left as it is.  With a null or empty catalog nothing changes at
    all. *)
Theorem updateStarData_keeps_active_entries (e : Engine) (fuel : nat)
  (l : option (list Star)) (t : Date) :
  exists (e' : Engine) (ts : list TStar),
    updateStarData e (S fuel) l t = Some e' /\
    transformStarsForProjection e (S fuel) l (projectionType (view e)) t
    = Some ts /\
    List.map source ts = match l with Some cat => cat | None => [] end /\
    activeStars e'
    = List.map
        (fun ka =>
           match List.find (fun r => String.eqb (id (source r)) (fst ka))
                   (rev ts) with
           | Some r =>
               (fst ka, {| star := r; timeCreated := timeCreated (snd ka) |})
           | None => ka
           end) (activeStars e) /\
    List.map fst (activeStars e') = List.map fst (activeStars e) /\
    List.map (fun ka => timeCreated (snd ka)) (activeStars e')
    = List.map (fun ka => timeCreated (snd ka)) (activeStars e) /\
    view e' = view e /\ canvas e' = canvas e /\
    (l = None \/ l = Some [] -> e' = e).
Proof.
  destruct (transformStars_sources e fuel l (projectionType (view e)) t)
    as (ts & Hts & Hsrc).
  assert (Hupd : updateStarData e (S fuel) l t
                 = Some (match l with
                         | Some (s :: cat) =>
                             with_activeStars (with_stars e l)
                               (fold_left retargetStep ts (activeStars e))
                         | _ => e
                         end)).
  { unfold updateStarData. destruct l as [[| s cat] |]; try reflexivity.
    assert (transformStarsForProjection
              (with_stars e (Some (s :: cat))) (S fuel) (Some (s :: cat))
              (projectionType (view (with_stars e (Some (s :: cat))))) t
            = Some ts) as -> by exact Hts.
    reflexivity. }
  assert (Hact : activeStars
                   (match l with
                    | Some (s :: cat) =>
                        with_activeStars (with_stars e l)
                          (fold_left retargetStep ts (activeStars e))
                    | _ => e
                    end)
                 = fold_left retargetStep ts (activeStars e)).
  { destruct l as [[| s cat] |]; try reflexivity;
      cbn in Hts; injection Hts as <-; reflexivity. }
  eexists _, ts. split; [exact Hupd |]. split; [exact Hts |].
  split; [exact Hsrc |]. rewrite Hact.
  split.
  { rewrite retarget_fold_entries. apply List.map_ext.
    intros ka. apply entry_fold_last. }
  split.
  { rewrite retarget_fold_entries, List.map_map. apply List.map_ext.
    intros ka. apply entry_fold_keeps. }
  split.
  { rewrite retarget_fold_entries, List.map_map. apply List.map_ext.
    intros ka. apply entry_fold_keeps. }
  split; [destruct l as [[| s cat] |]; reflexivity |].
  split; [destruct l as [[| s cat] |]; reflexivity |].
  intros [-> | ->]; reflexivity.
Qed.

Lemma render_keeps_keys (e : Engine) (fuel : nat) (t : Date) :
  exists e' : Engine,
    render e (S fuel) t = Some e' /\ view e' = view e /\
    List.map fst (activeStars e') = List.map fst (activeStars e).
Proof.
  unfold render.
  set (e1 := updateMatrices (resize (with_currentRenderTime e (Some t)))).
  assert (view e1 = view e /\ activeStars e1 = activeStars e) as [Hv Ha].
  { unfold e1. rewrite view_updateMatrices, view_resize. split; [reflexivity |].
    unfold updateMatrices, resize.
    destruct (mode_is _ "spherical"); cbn [activeStars with_matrices];
      destruct (_ || _); reflexivity. }
  destruct (stars e1).
  - destruct (updateStarData_keys e1 fuel (Some l) t)
      as (e' & He' & Hk & Hv').
    exists e'. split; [exact He' |]. split; congruence.
  - exists e1. split; [reflexivity |]. split; congruence.
Qed.

Lemma map_set_keys (k : string) (a : ActiveStar)
  (m : list (string * ActiveStar)) :
  (In k (List.map fst m) /\ List.map fst (map_set k a m) = List.map fst m)
  \/ (~ In k (List.map fst m) /\
      List.map fst (map_set k a m) = List.map fst m ++ [k]).
Proof.
  induction m as [| [k' a'] m IH]; cbn [map_set List.map fst].
  - right. split; [intros [] | reflexivity].
  - destruct (String.eqb k k') eqn:Hk.
    + apply String.eqb_eq in Hk. subst k'. left. split; [left |]; reflexivity.
    + apply String.eqb_neq in Hk.
      destruct IH as [[Hin Heq] | [Hnin Heq]].
      * left. split; [right; exact Hin |]. cbn. rewrite Heq. reflexivity.
      * right. split.
        -- intros [H | H]; [apply Hk; symmetry; exact H | exact (Hnin H)].
        -- cbn. rewrite Heq. reflexivity.
Qed.

(** X4: a click on a renderer with a loaded catalog returns, never changes
    the camera, and either leaves the keys of [activeStars] as they are or
    appends one key that was not present, the id of a star of the catalog:
    no active star is dropped and no key is duplicated. *)
Theorem click_adds_at_most_one_active_star (e0 : Engine) (fuel : nat)
  (clientX clientY rectLeft rectTop : JS.num) (now renderNow : Date)
  (l : list Star) :
  stars e0 = Some l ->
  exists e' : Engine,
    onClick e0 (S fuel) clientX clientY rectLeft rectTop now renderNow
      = Some e' /\
    view e' = view e0 /\
    (List.map fst (activeStars e') = List.map fst (activeStars e0) \/
     exists s : Star,
       In s l /\ ~ In (id s) (List.map fst (activeStars e0)) /\
       List.map fst (activeStars e')
       = List.map fst (activeStars e0) ++ [id s]).
Proof.
  intros Hl.
  destruct (onClick_steps e0 fuel clientX clientY rectLeft rectTop
              now renderNow l Hl)
    as (ts & Hts & _ & Hon & Hact & Hv & _).
  cbv zeta in Hon, Hact, Hv, Hts.
  set (e2 := updateMatrices
               (with_lastClickTime e0 (Some (pickInstant e0 now)))) in *.
  rewrite Hon.
  destruct (pickHit _) as [[s q] |] eqn:Hhit.
  - match goal with
    | |- context [render ?e3 (S fuel) renderNow] =>
        destruct (render_keeps_keys e3 fuel renderNow) as (e' & He' & Hv' & Hk)
    end.
    exists e'. split; [exact He' |].
    cbn [view with_activeStars activeStars] in Hv', Hk.
    split; [congruence |]. rewrite Hk.
    destruct (map_set_keys (id (source s))
                {| star := s; timeCreated := pickInstant e0 now |}
                (activeStars e0)) as [[_ Heq] | [Hnin Heq]];
      [left; exact Heq | right].
    exists (source s). split; [| split; assumption].
    destruct (transformStars_sources
                (with_lastClickTime e0 (Some (pickInstant e0 now))) fuel
                (Some l) (projectionType (view e0)) (pickInstant e0 now))
      as (ts' & Hts' & Hsrc).
    rewrite Hts in Hts'. injection Hts' as <-. rewrite <- Hsrc.
    apply in_map.
    pose proof (pickHit_first_nearest e2 (JS.sub clientX rectLeft)
                  (JS.sub clientY rectTop) ts) as Hfn.
    rewrite Hhit in Hfn. destruct Hfn as (i & d & (Hi & _) & _).
    apply nth_error_In in Hi. exact Hi.
  - exists e2. split; [reflexivity |]. split; [exact Hv |].
    left. rewrite Hact. reflexivity.
Qed.

Lemma click_adds_at_most_one_active_star_witness :
  stars clickScenario = Some [catalogStar "s" 12 0] /\
  exists e' : Engine,
    onClick clickScenario 1 500 500 0 0 (utc 6 0 0 0) (utc 6 0 0 1) = Some e' /\
    view e' = view clickScenario.
Proof.
  split; [reflexivity |].
  destruct (click_adds_at_most_one_active_star clickScenario 0%nat
              500 500 0 0 (utc 6 0 0 0) (utc 6 0 0 1)
              [catalogStar "s" 12 0] eq_refl) as (e' & He' & Hv & _).
  exists e'. split; assumption.
Defined.

(** *** Polylines *)

Lemma penPoints_app (a b : list PathCmd) :
  penPoints (a ++ b) = penPoints a ++ penPoints b.
Proof.
  induction a as [| c a IH]; [reflexivity |].
  destruct c; cbn [penPoints app]; rewrite IH; reflexivity.
Qed.

Lemma penRun_app (a b : list PathCmd) :
  penRun (a ++ b) = fold_left penStep b (penRun a).
Proof. unfold penRun. apply fold_left_app. Qed.

Lemma pathStep_skips_null (type : string) (W H : JS.num)
  (ps : list (option ScreenPoint)) :
  forall st : PathState,
    fold_left (pathStep type W H) ps st
    = fold_left (pathStep type W H) (List.map Some (projected ps)) st.
Proof.
  induction ps as [| [p |] ps IH]; intros st; [reflexivity | |].
  - cbn [projected flat_map app List.map fold_left]. apply IH.
  - cbn [projected flat_map app fold_left pathStep]. apply IH.
Qed.

Lemma pathStep_fold_inv (type : string) (W H : JS.num)
  (ps : list (option ScreenPoint)) :
  forall st : PathState,
    penRun (issued st) = Some (if first st then Begun else Drawing) ->
    let st' := fold_left (pathStep type W H) ps st in
    penRun (issued st') = Some (if first st' then Begun else Drawing) /\
    penPoints (issued st') = penPoints (issued st) ++ projected ps.
Proof.
  induction ps as [| [p |] ps IH]; intros st Hst; cbn [fold_left].
  - split; [exact Hst |]. cbn. rewrite app_nil_r. reflexivity.
  - set (st1 := pathStep type W H st (Some p)).
    assert (penRun (issued st1) = Some (if first st1 then Begun else Drawing)
            /\ penPoints (issued st1) = penPoints (issued st) ++ [p])
      as [H1 H2].
    { unfold st1, pathStep. destruct p as [a b]. cbn [sx sy].
      destruct (first st).
      - cbn [first issued]. rewrite penRun_app, penPoints_app, Hst.
        split; reflexivity.
      - destruct (shouldDraw type W H (lastPos st) _);
          cbn [first issued]; rewrite penRun_app, penPoints_app, Hst;
          split; reflexivity. }
    destruct (IH st1 H1) as [H3 H4]. split; [exact H3 |].
    cbv zeta in H4. rewrite H4, H2, <- app_assoc. reflexivity.
  - apply IH. exact Hst.
Qed.

(** X5: the commands issued for a polyline send the pen to every point that
    [projectPoint] returned, once and in order, also where a segment is
    suppressed; they form complete sub-paths, so no [lineTo] is issued before
    the [moveTo] of its sub-path; and the positions for which [projectPoint]
    returned null have no effect on the commands. *)
Theorem drawPolyline_visits_every_projected_point (type : string)
  (canvasWidth canvasHeight : JS.num) (positions : list (option ScreenPoint)) :
  penPoints (drawPolyline type canvasWidth canvasHeight positions)
  = projected positions /\
  wellFormedPath (drawPolyline type canvasWidth canvasHeight positions)
  = true /\
  drawPolyline type canvasWidth canvasHeight positions
  = drawPolyline type canvasWidth canvasHeight
      (List.map Some (projected positions)).
Proof.
  unfold drawPolyline, wellFormedPath.
  destruct (pathStep_fold_inv type canvasWidth canvasHeight positions
              {| first := true; lastPos := None; issued := [BeginPath] |}
              eq_refl) as [H1 H2].
  cbv zeta in H1, H2. split; [| split].
  - rewrite penPoints_app, H2. cbn. apply app_nil_r.
  - rewrite penRun_app, H1. destruct (first _); reflexivity.
  - rewrite <- pathStep_skips_null. reflexivity.
Qed.

Lemma pathStep_unbroken (type : string) (W H : JS.num) :
  type <> "hammer"%string -> type <> "mercator"%string ->
  forall (ps : list ScreenPoint) (st : PathState),
    first st = false ->
    issued (fold_left (pathStep type W H) (List.map Some ps) st)
    = issued st ++ List.map (fun p => LineTo (sx p) (sy p)) ps.
Proof.
  intros Hh Hm. induction ps as [| p ps IH]; intros st Hst.
  - cbn. rewrite app_nil_r. reflexivity.
  - cbn [List.map fold_left pathStep]. rewrite Hst.
    rewrite (shouldDraw_other type W H (lastPos st) p Hh Hm).
    rewrite IH by reflexivity. cbn [issued]. rewrite <- app_assoc.
    reflexivity.
Qed.

(** X6: in a mode other than Hammer and Mercator no segment is ever
    suppressed: a polyline is one sub-path, a [moveTo] to the first projected
    point followed by a [lineTo] to each later one. *)
Theorem drawPolyline_is_one_subpath_outside_flat_wrap_modes (type : string)
  (canvasWidth canvasHeight : JS.num) (positions : list (option ScreenPoint)) :
  type <> "hammer"%string -> type <> "mercator"%string ->
  drawPolyline type canvasWidth canvasHeight positions
  = BeginPath ::
    match projected positions with
    | [] => []
    | p :: rest =>
        MoveTo (sx p) (sy p)
        :: List.map (fun q => LineTo (sx q) (sy q)) rest
    end ++ [Stroke].
Proof.
  intros Hh Hm. unfold drawPolyline. rewrite pathStep_skips_null.
  destruct (projected positions) as [| p rest]; [reflexivity |].
  cbn [List.map fold_left pathStep first].
  rewrite (pathStep_unbroken type canvasWidth canvasHeight Hh Hm)
    by reflexivity.
  reflexivity.
Qed.

Lemma drawPolyline_is_one_subpath_outside_flat_wrap_modes_witness :
  drawPolyline "stereographic" 800 600
    [Some {| sx := 1; sy := 2 |}; None; Some {| sx := 700; sy := 5 |}]
  = [BeginPath; MoveTo 1 2; LineTo 700 5; Stroke].
Proof.
  apply (drawPolyline_is_one_subpath_outside_flat_wrap_modes
           "stereographic" 800 600
           [Some {| sx := 1; sy := 2 |}; None; Some {| sx := 700; sy := 5 |}]);
    discriminate.
Defined.

Lemma horizonPathStep_fold (e : Engine) (ps : list (option ScreenPoint)) :
  forall st : PathState,
    (first st = false -> lastPos st <> None) ->
    fold_left (horizonPathStep e) ps st
    = fold_left (pathStep (projectionType (view e))
                   (width (canvas e)) (height (canvas e))) ps st.
Proof.
  induction ps as [| [p |] ps IH]; intros st Hst; [reflexivity | |].
  - cbn [fold_left].
    assert (horizonPathStep e st (Some p)
            = pathStep (projectionType (view e))
                (width (canvas e)) (height (canvas e)) st (Some p)) as ->.
    { unfold horizonPathStep, pathStep. destruct (first st); [reflexivity |].
      destruct (lastPos st) as [q |]; [| destruct (Hst eq_refl eq_refl)].
      reflexivity. }
    apply IH. intros _. unfold pathStep.
    destruct (first st); [discriminate |].
    destruct (shouldDraw _ _ _ _ _); discriminate.
  - cbn [fold_left horizonPathStep pathStep]. apply IH. exact Hst.
Qed.

(** X7: the three loops of [drawHorizon], which cull with the helper
    [shouldDrawLine], issue exactly the commands that the loop of [drawGrid]
    issues for the same positions in the current mode on the current canvas:
    the helper's refusal of a null position is never reached, because
    [lastPos] is set by the time [first] is false. *)
Theorem drawHorizon_culls_like_drawGrid (e : Engine)
  (positions : list (option ScreenPoint)) :
  drawHorizonPolyline e positions
  = drawPolyline (projectionType (view e))
      (width (canvas e)) (height (canvas e)) positions.
Proof.
  unfold drawHorizonPolyline, drawPolyline.
  rewrite horizonPathStep_fold; [reflexivity |].
  cbn. discriminate.
Qed.

(** *** Star colours *)

(** X8: [colorIndexToRGB] always returns green and blue equal to 1 and a
    finite red: the first value given to [g] only feeds [r], and both [g] and
    [b] are then set above 1 and clamped.  Red is in [[0.1, 0.5)] for a
    negative colour index (minus infinity included) and 1 for every other
    argument, so the result is white unless the index is negative. *)
Theorem colorIndexToRGB_only_lowers_red (colorIndex : value) :
  exists r : R,
    colorIndexToRGB colorIndex = (Fin r, Fin 1, Fin 1) /\
    match colorIndex with
    | VNumber ci => if JS.lt ci (Fin 0) then 0.1 <= r < 0.5 else r = 1
    | _ => r = 1
    end.
Proof.
  assert (Hone : Rmax 0 (Rmin 1 1) = 1).
  { unfold Rmax, Rmin. repeat destruct (Rle_dec _ _); lra. }
  destruct colorIndex as [| | b | ci | s | ];
    try (exists 1; split; reflexivity).
  unfold colorIndexToRGB.
  destruct ci as [c | | |].
  - cbn [JS.lt]. destruct (JS.Rltb c 0) eqn:Hc.
    + apply Rltb_true_iff in Hc. js_fin.
      exists (Rmax 0 (Rmin 1 (Rmax 0.1 (Rmax 0.2 (1 + c * 1.2) * 0.5)))).
      split.
      * f_equal; [f_equal |]; f_equal;
          unfold Rmax, Rmin; repeat destruct (Rle_dec _ _); lra.
      * unfold Rmax, Rmin; repeat destruct (Rle_dec _ _); lra.
    + exists 1. js_fin. rewrite Hone. split; reflexivity.
  - exists 1. cbn [JS.lt]. js_fin. rewrite Hone. split; reflexivity.
  - exists 0.1. cbn [JS.lt]. cbv zeta.
    assert (Hinf : forall k : R, 0 < k -> JS.mul NInf (Fin k) = NInf).
    { intros k Hk. unfold JS.mul, JS.inf_of_sign.
      destruct (Req_dec_T k 0); [lra |].
      destruct (Rlt_dec 0 (- k)); [lra | reflexivity]. }
    rewrite !Hinf by lra.
    cbn [JS.sub JS.neg JS.add JS.max JS.min]. js_fin. split.
    + f_equal; [f_equal |]; f_equal;
        unfold Rmax, Rmin; repeat destruct (Rle_dec _ _); lra.
    + lra.
  - exists 1. cbn [JS.lt]. js_fin. rewrite Hone. split; reflexivity.
Qed.

(** *** The sidereal rotation *)

Lemma cos_turns (x : R) (k : Z) : cos (x + 2 * IZR k * PI) = cos x.
Proof.
  destruct (Z_le_gt_dec 0 k) as [Hk | Hk].
  - rewrite <- (Z2Nat.id k Hk), <- INR_IZR_INZ. apply cos_period.
  - rewrite <- (cos_period (x + 2 * IZR k * PI) (Z.to_nat (- k))).
    rewrite INR_IZR_INZ, Z2Nat.id by lia. rewrite opp_IZR.
    f_equal. ring.
Qed.

Lemma sin_turns (x : R) (k : Z) : sin (x + 2 * IZR k * PI) = sin x.
Proof.
  destruct (Z_le_gt_dec 0 k) as [Hk | Hk].
  - rewrite <- (Z2Nat.id k Hk), <- INR_IZR_INZ. apply sin_period.
  - rewrite <- (sin_period (x + 2 * IZR k * PI) (Z.to_nat (- k))).
    rewrite INR_IZR_INZ, Z2Nat.id by lia. rewrite opp_IZR.
    f_equal. ring.
Qed.

Lemma cos_deg_turns (u : R) (k : Z) :
  cos ((u + 360 * IZR k) * PI / 180) = cos (u * PI / 180).
Proof.
  rewrite <- (cos_turns (u * PI / 180) k). f_equal. field.
Qed.

Lemma sin_deg_turns (u : R) (k : Z) :
  sin ((u + 360 * IZR k) * PI / 180) = sin (u * PI / 180).
Proof.
  rewrite <- (sin_turns (u * PI / 180) k). f_equal. field.
Qed.

Lemma Rfmod_turns (x : R) : exists k : Z, JS.Rfmod x 360 = x + 360 * IZR k.
Proof.
  exists (- JS.Rtrunc (x / 360))%Z. unfold JS.Rfmod. rewrite opp_IZR. ring.
Qed.

Lemma transformStar_cartesian (e : Engine) (fuel : nat) (type : string)
  (lst : JS.num) (s : Star) :
  type <> "stereographic"%string -> type <> "mercator"%string ->
  type <> "hammer"%string ->
  transformStar e fuel type lst s
  = Some {| source := s;
            coords :=
              {| x := JS.mul (JS.cos (JS.div (JS.mul (dec s) JS.PI) (Fin 180)))
                        (JS.cos (JS.div (JS.mul (rotatedRA lst s) JS.PI)
                                   (Fin 180)));
                 y := JS.mul (JS.cos (JS.div (JS.mul (dec s) JS.PI) (Fin 180)))
                        (JS.sin (JS.div (JS.mul (rotatedRA lst s) JS.PI)
                                   (Fin 180)));
                 z := JS.sin (JS.div (JS.mul (dec s) JS.PI) (Fin 180)) |} |}.
Proof.
  intros H1 H2 H3. unfold transformStar.
  apply String.eqb_neq in H1. apply String.eqb_neq in H2.
  apply String.eqb_neq in H3. rewrite H1, H2, H3. reflexivity.
Qed.

(** X9: in spherical mode (and for any mode string that is none of the three
    flat ones) the pipeline turns the catalog direction of a star about the
    polar axis by the local sidereal time: with [(X, Y, Z)] the unit vector
    that [equatorialToCartesian] gives for the catalog coordinates and [L]
    the sidereal time in radians, the transformed point is
    [(X cos L + Y sin L, Y cos L - X sin L, Z)].  The [% 360] on the
    rotated right ascension, whatever its sign, does not show in it. *)
Theorem spherical_pipeline_turns_about_the_pole (e : Engine) (fuel : nat)
  (type : string) (lst r d : R) (s : Star) :
  type <> "stereographic"%string -> type <> "mercator"%string ->
  type <> "hammer"%string ->
  ra s = Fin r -> dec s = Fin d ->
  let L := lst * PI / 180 in
  exists X Y Z : R,
    equatorialToCartesian (ra s) (dec s)
      = {| x := Fin X; y := Fin Y; z := Fin Z |} /\
    X * X + Y * Y + Z * Z = 1 /\
    transformStar e fuel type (Fin lst) s
    = Some {| source := s;
              coords := {| x := Fin (X * cos L + Y * sin L);
                           y := Fin (Y * cos L - X * sin L);
                           z := Fin Z |} |}.
Proof.
  intros H1 H2 H3 Hr Hd L.
  exists (cos (d * PI / 180) * cos (r * PI / 12)),
         (cos (d * PI / 180) * sin (r * PI / 12)),
         (sin (d * PI / 180)).
  split; [| split].
  - unfold equatorialToCartesian. rewrite Hr, Hd. js_fin. reflexivity.
  - pose proof (sin2_cos2 (d * PI / 180)) as Hd2.
    pose proof (sin2_cos2 (r * PI / 12)) as Hr2.
    unfold Rsqr in Hd2, Hr2. nra.
  - rewrite (transformStar_cartesian e fuel type (Fin lst) s H1 H2 H3).
    rewrite (rotatedRA_fin lst r s Hr), Hd. js_fin.
    destruct (Rfmod_turns (r * 15 - lst + 360)) as [k ->].
    replace (r * 15 - lst + 360 + 360 * IZR k)
      with ((r * 15 - lst) + 360 * IZR (1 + k))
      by (rewrite plus_IZR; ring).
    rewrite cos_deg_turns, sin_deg_turns.
    replace ((r * 15 - lst) * PI / 180) with (r * PI / 12 - L)
      by (unfold L; field).
    rewrite cos_minus, sin_minus.
    do 3 f_equal; f_equal; ring.
Qed.

Lemma spherical_pipeline_turns_about_the_pole_witness :
  exists X Y Z : R,
    X * X + Y * Y + Z * Z = 1 /\
    transformStar (constructed 800 600) 0 "spherical" (Fin 470)
      (catalogStar "s" 1 0)
    = Some {| source := catalogStar "s" 1 0;
              coords :=
                {| x := Fin (X * cos (470 * PI / 180)
                             + Y * sin (470 * PI / 180));
                   y := Fin (Y * cos (470 * PI / 180)
                             - X * sin (470 * PI / 180));
                   z := Fin Z |} |}.
Proof.
  destruct (spherical_pipeline_turns_about_the_pole
              (constructed 800 600) 0%nat "spherical" 470 1 0
              (catalogStar "s" 1 0)
              ltac:(discriminate) ltac:(discriminate) ltac:(discriminate)
              eq_refl eq_refl) as (X & Y & Z & _ & Hs & Ht).
  exists X, Y, Z. split; assumption.
Defined.

Lemma unique_in_turn (a b : R) (m : Z) :
  0 <= a < 360 -> 0 <= b < 360 -> a = b + 360 * IZR m -> a = b.
Proof.
  intros Ha Hb Hab.
  assert (m = 0%Z) as ->.
  { assert (IZR (-1) < IZR m) as H1 by (apply Rmult_lt_reg_l with 360; lra).
    assert (IZR m < IZR 1) as H2 by (apply Rmult_lt_reg_l with 360; lra).
    apply lt_IZR in H1, H2. lia. }
  lra.
Qed.

Lemma rotatedRA_period (lst r : R) (s : Star) :
  ra s = Fin r ->
  exists (v1 v2 : R) (m : Z),
    rotatedRA (Fin (lst + 360)) s = Fin v1 /\
    rotatedRA (Fin lst) s = Fin v2 /\
    v1 = v2 + 360 * IZR m /\ -360 < v1 < 360 /\ -360 < v2 < 360.
Proof.
  intros Hr. rewrite !(rotatedRA_fin _ r s Hr).
  destruct (Rfmod_turns (r * 15 - (lst + 360) + 360)) as [k1 H1].
  destruct (Rfmod_turns (r * 15 - lst + 360)) as [k2 H2].
  exists (JS.Rfmod (r * 15 - (lst + 360) + 360) 360),
         (JS.Rfmod (r * 15 - lst + 360) 360), (k1 - k2 - 1)%Z.
  split; [reflexivity |]. split; [reflexivity |]. split.
  - rewrite H1, H2, !minus_IZR. ring.
  - split; apply Rfmod_bounds; lra.
Qed.

Lemma hammer_loops_of_rotated (fuel : nat) (v : R) :
  -360 < v < 360 ->
  exists z : R,
    whileAbove360 (S fuel) (Fin (v / 15 * 15)) = Some (Fin (v / 15 * 15)) /\
    whileBelow0 (S fuel) (Fin (v / 15 * 15)) = Some (Fin z) /\
    0 <= z < 360 /\ exists j : Z, z = v + 360 * IZR j.
Proof.
  intros Hv. destruct (Rlt_dec (v / 15 * 15) 0) as [Hn | Hn].
  - exists (v / 15 * 15 + 360). split; [| split; [| split]].
    + apply whileAbove360_done. unfold JS.gt. cbn [JS.lt].
      apply Rltb_false_iff. lra.
    + cbn [whileBelow0 JS.lt]. rewrite (proj2 (Rltb_true_iff _ _) Hn).
      apply whileBelow0_done. cbn [JS.add JS.lt]. apply Rltb_false_iff. lra.
    + lra.
    + exists 1%Z. field.
  - exists (v / 15 * 15). split; [| split; [| split]].
    + apply whileAbove360_done. unfold JS.gt. cbn [JS.lt].
      apply Rltb_false_iff. lra.
    + apply whileBelow0_done. cbn [JS.lt]. apply Rltb_false_iff. lra.
    + lra.
    + exists 0%Z. field.
Qed.

Lemma Rfmod_twice_turns (x : R) (m : Z) :
  JS.Rfmod (JS.Rfmod (x + 360 * IZR m) 360 + 360) 360
  = JS.Rfmod (JS.Rfmod x 360 + 360) 360.
Proof.
  destruct (Rfmod_turns (x + 360 * IZR m)) as [k1 H1].
  destruct (Rfmod_turns (JS.Rfmod (x + 360 * IZR m) 360 + 360)) as [k2 H2].
  destruct (Rfmod_turns x) as [k3 H3].
  destruct (Rfmod_turns (JS.Rfmod x 360 + 360)) as [k4 H4].
  apply (unique_in_turn _ _ (m + k1 + k2 - k3 - k4)%Z);
    try apply Rfmod_twice_range.
  rewrite H2, H4, H1, H3, !minus_IZR, !plus_IZR. ring.
Qed.

(** X10: the pipeline is periodic in the local sidereal time, which the code
    never reduces: in every mode a star with a finite right ascension gets
    the same coordinates at [lst + 360] as at [lst] degrees.  So the sign of
    the rotated right ascension, which [% 360] lets follow the dividend,
    never shows in a projected position. *)
Theorem pipeline_periodic_in_sidereal_time (e : Engine) (fuel : nat)
  (type : string) (lst r : R) (s : Star) :
  ra s = Fin r ->
  transformStar e (S fuel) type (Fin (lst + 360)) s
  = transformStar e (S fuel) type (Fin lst) s.
Proof.
  intros Hr.
  destruct (rotatedRA_period lst r s Hr)
    as (v1 & v2 & m & Hv1 & Hv2 & Hm & Hr1 & Hr2).
  unfold transformStar. rewrite Hv1, Hv2.
  destruct (String.eqb type "stereographic").
  { unfold equatorialToStereographic. js_fin.
    replace (v1 / 15 * 15) with (v2 + 360 * IZR m) by (rewrite Hm; field).
    rewrite cos_deg_turns, sin_deg_turns.
    replace (v2 / 15 * 15) with v2 by field. reflexivity. }
  destruct (String.eqb type "mercator").
  { unfold equatorialToMercator. js_fin.
    assert (Hmod : forall c : JS.num,
               JS.rem (JS.add (JS.rem (JS.sub (Fin (v1 / 15 * 15)) c)
                                 (Fin 360)) (Fin 360)) (Fin 360)
               = JS.rem (JS.add (JS.rem (JS.sub (Fin (v2 / 15 * 15)) c)
                                   (Fin 360)) (Fin 360)) (Fin 360)).
    { intros [c | | |]; try reflexivity. js_fin.
      replace (v1 / 15 * 15 - c) with ((v2 / 15 * 15 - c) + 360 * IZR m)
        by (rewrite Hm; field).
      rewrite Rfmod_twice_turns. reflexivity. }
    destruct (mode_is e "mercator").
    - rewrite Hmod. reflexivity.
    - pose proof (Hmod (Fin 0)) as H0. revert H0. js_fin.
      rewrite !Rminus_0_r. intros H0. injection H0 as ->. reflexivity. }
  destruct (String.eqb type "hammer").
  { unfold equatorialToHammer. js_fin.
    destruct (hammer_loops_of_rotated fuel v1 Hr1)
      as (z1 & Ha1 & Hb1 & Hz1 & j1 & Hj1).
    destruct (hammer_loops_of_rotated fuel v2 Hr2)
      as (z2 & Ha2 & Hb2 & Hz2 & j2 & Hj2).
    rewrite Ha1, Hb1, Ha2, Hb2.
    assert (z1 = z2) as ->; [| reflexivity].
    apply (unique_in_turn z1 z2 (m + j1 - j2)%Z Hz1 Hz2).
    rewrite Hj1, Hj2, Hm, minus_IZR, plus_IZR. ring. }
  js_fin.
  replace v1 with (v2 + 360 * IZR m) by (rewrite Hm; reflexivity).
  rewrite cos_deg_turns, sin_deg_turns. reflexivity.
Qed.

Lemma pipeline_periodic_in_sidereal_time_witness :
  transformStar (inMode (constructed 800 600) "hammer") 1 "hammer"
    (Fin (110 + 360)) (catalogStar "s" 1 0)
  = transformStar (inMode (constructed 800 600) "hammer") 1 "hammer"
      (Fin 110) (catalogStar "s" 1 0).
Proof.
  apply (pipeline_periodic_in_sidereal_time
           (inMode (constructed 800 600) "hammer") 0%nat "hammer" 110 1
           (catalogStar "s" 1 0)).
  reflexivity.
Defined.

(** *** The extent of the flat projections *)

Lemma hammer_ellipse_identity (c1 s1 c2 s2 : R) :
  s1 * s1 + c1 * c1 = 1 -> s2 * s2 + c2 * c2 = 1 -> 0 < 1 + c1 * c2 ->
  let D := sqrt (1 + c1 * c2) in
  let X := 2 * sqrt 2 * c1 * s2 / D in
  let Y := sqrt 2 * s1 / D in
  X * X / 8 + Y * Y / 2 = 1 - c1 * c2.
Proof.
  intros H1 H2 Hq D X Y.
  assert (HD : D * D = 1 + c1 * c2) by (apply sqrt_sqrt; lra).
  assert (Hr : sqrt 2 * sqrt 2 = 2) by (apply sqrt_sqrt; lra).
  assert (D <> 0) as HD0 by (intros H0; rewrite H0 in HD; lra).
  transitivity ((sqrt 2 * sqrt 2) * (c1 * c1 * (s2 * s2) + s1 * s1)
                / (2 * (D * D))).
  { unfold X, Y. field. exact HD0. }
  rewrite HD, Hr.
  replace (s2 * s2) with (1 - c2 * c2) by lra.
  replace (s1 * s1) with (1 - c1 * c1) by lra.
  field. lra.
Qed.

(** X11: a point that [equatorialToHammer] returns satisfies
    [x * x / 8 + y * y / 2 < 2] for every finite input and polar rotation;
    and when no polar rotation applies (the mode is not Hammer, or
    [hammerRotation] is 0) and the declination is within +-90 degrees, the
    point lies in the ellipse of the Hammer map, [x * x / 8 + y * y / 2 <= 1],
    with semi-axes [2 sqrt 2] and [sqrt 2]. *)
Theorem equatorialToHammer_stays_in_the_ellipse (e : Engine) (a d h : R) :
  hammerRotation (view e) = Fin h ->
  exists fuel0 : nat, forall fuel : nat, (fuel0 <= fuel)%nat ->
  exists X Y : R,
    equatorialToHammer e fuel (Fin a) (Fin d)
      = Some {| x := Fin X; y := Fin Y; z := Fin 0 |} /\
    X * X / 8 + Y * Y / 2 < 2 /\
    ((mode_is e "hammer" = true -> h = 0) -> -90 <= d <= 90 ->
     X * X / 8 + Y * Y / 2 <= 1).
Proof.
  intros Hh. destruct (normalisation_loops (a * 15)) as [fuel0 Hloops].
  exists fuel0. intros fuel Hfuel.
  destruct (Hloops fuel Hfuel) as (y0 & z0 & j & Ha & Hb & _ & Hz).
  rewrite (hammer_after_loops e fuel a d h y0 z0 Hh Ha Hb). cbv zeta.
  set (turned := if mode_is e "hammer" && JS.sneq (Fin h) (Fin 0)
                 then JS.Rfmod (z0 + h * 180 / PI) 360 else z0).
  set (n := JS.Rfmod (turned + 180) 360 - 180).
  set (alpha := n * PI / 180 / 2). set (delta := d * PI / 180).
  pose proof (hammer_radicand_nonneg delta alpha) as Hq.
  destruct (Req_dec_T (sqrt (1 + cos delta * cos alpha)) 0) as [H0 | H0].
  - exists 0, 0. split; [reflexivity |]. split; [lra |]. intros _ _. lra.
  - assert (0 < 1 + cos delta * cos alpha) as Hpos.
    { destruct Hq as [Hq | Hq]; [exact Hq |].
      rewrite <- Hq, sqrt_0 in H0. contradiction. }
    eexists _, _. split; [reflexivity |].
    pose proof (sin2_cos2 delta) as Hd2. pose proof (sin2_cos2 alpha) as Ha2.
    unfold Rsqr in Hd2, Ha2.
    rewrite (hammer_ellipse_identity (cos delta) (sin delta)
               (cos alpha) (sin alpha) Hd2 Ha2 Hpos).
    split; [lra |]. intros Hrot Hd.
    assert (turned = z0) as Hturned.
    { unfold turned. destruct (mode_is e "hammer"); [| reflexivity].
      rewrite (Hrot eq_refl). unfold JS.sneq. cbn [JS.seq].
      rewrite (proj2 (Reqb_true_iff 0 0) eq_refl). reflexivity. }
    assert (-180 <= n < 180) as Hn.
    { unfold n. rewrite Hturned.
      pose proof (Rfmod_nonneg (z0 + 180) 360 ltac:(lra) ltac:(lra)). lra. }
    assert (0 <= cos alpha) as Hca.
    { pose proof PI_RGT_0.
      apply cos_ge_0; unfold alpha; nra. }
    assert (0 <= cos delta) as Hcd.
    { pose proof PI_RGT_0.
      apply cos_ge_0; unfold delta; nra. }
    nra.
Qed.

Lemma equatorialToHammer_stays_in_the_ellipse_witness :
  exists fuel0 : nat, forall fuel : nat, (fuel0 <= fuel)%nat ->
  exists X Y : R,
    equatorialToHammer (constructed 800 600) fuel (Fin 30) (Fin 45)
      = Some {| x := Fin X; y := Fin Y; z := Fin 0 |} /\
    X * X / 8 + Y * Y / 2 <= 1.
Proof.
  destruct (equatorialToHammer_stays_in_the_ellipse
              (constructed 800 600) 30 45 0 eq_refl) as [fuel0 H].
  exists fuel0. intros fuel Hfuel.
  destruct (H fuel Hfuel) as (X & Y & HXY & _ & Hin).
  exists X, Y. split; [exact HXY |].
  apply Hin; [intros _; reflexivity | lra].
Defined.

(** *** The flat modes on screen *)

Ltac js_nonzero :=
  first [ js_side
        | let Hz := fresh "Hz" in
          intros Hz;
          match goal with
          | H : ?t <> 0 |- _ => apply H; lra
          end ].

Create Rewrite HintDb js_flat.
#[local] Hint Rewrite add_fin sub_fin mul_fin neg_fin : js_flat.
#[local] Hint Rewrite div_fin using js_nonzero : js_flat.

Lemma Rdiv_neq_0 (a b : R) : a <> 0 -> b <> 0 -> a / b <> 0.
Proof.
  intros Ha Hb. unfold Rdiv. apply Rmult_integral_contrapositive_currified;
    [exact Ha | apply Rinv_neq_0_compat; exact Hb].
Qed.

(** The matrices that [updateMatrices] stores in a flat mode, applied to a
    finite point: the clip coordinates before the divide. *)
Lemma clipCoords_flat (e : Engine) (s px py cw ch a b c : R) :
  mode_is e "spherical" = false ->
  scale (view e) = Fin s -> s <> 0 ->
  pan_x (view e) = Fin px -> pan_y (view e) = Fin py ->
  clientWidth (canvas e) = Fin cw -> clientHeight (canvas e) = Fin ch ->
  cw <> 0 -> ch <> 0 ->
  clipCoords (updateMatrices e) {| x := Fin a; y := Fin b; z := Fin c |}
  = GlMatrix.Vec4
      (Fin ((s * a + (if mode_is e "mercator" then 0 else px)) / 2))
      (Fin (cw / ch * (s * b + py) / 2))
      (Fin (- c)) (Fin 1).
Proof.
  intros Hmode Hs Hs0 Hpx Hpy Hcw Hch Hcw0 Hch0.
  pose proof (Rdiv_neq_0 cw ch Hcw0 Hch0) as HA.
  pose proof (Rdiv_neq_0 4 (cw / ch) ltac:(lra) HA) as HV.
  unfold clipCoords, updateMatrices. rewrite Hmode. cbv zeta.
  rewrite Hs, Hpx, Hpy, Hcw, Hch.
  destruct (mode_is e "mercator");
    unfold GlMatrix.transformMat4, GlMatrix.translate, GlMatrix.scale,
      GlMatrix.identity, GlMatrix.ortho;
    cbn [negb with_matrices currentModelView currentProjection x y z
         GlMatrix.v0 GlMatrix.v1 GlMatrix.v2 GlMatrix.v3
         GlMatrix.m0 GlMatrix.m1 GlMatrix.m2 GlMatrix.m3
         GlMatrix.m4 GlMatrix.m5 GlMatrix.m6 GlMatrix.m7
         GlMatrix.m8 GlMatrix.m9 GlMatrix.m10 GlMatrix.m11
         GlMatrix.m12 GlMatrix.m13 GlMatrix.m14 GlMatrix.m15];
    cbv iota zeta; unfold GlMatrix.zero, GlMatrix.one;
    autorewrite with js_flat;
    f_equal; f_equal; field; repeat split; first [assumption | lra].
Qed.

(** X12: in a flat mode (any mode other than spherical) the matrices of
    [updateMatrices] give every finite point the homogeneous [w = 1], so
    [projectPoint] never returns null there and never looks at [z]; the
    pixel position is affine in the point, and in Mercator mode it does not
    depend on [pan.x], which that mode spends on the longitude instead. *)
Theorem flat_projectPoint_never_null (e : Engine)
  (s px py cw ch W H a b c : R) :
  mode_is e "spherical" = false ->
  scale (view e) = Fin s -> s <> 0 ->
  pan_x (view e) = Fin px -> pan_y (view e) = Fin py ->
  clientWidth (canvas e) = Fin cw -> clientHeight (canvas e) = Fin ch ->
  cw <> 0 -> ch <> 0 ->
  width (canvas e) = Fin W -> height (canvas e) = Fin H ->
  projectPoint (updateMatrices e) {| x := Fin a; y := Fin b; z := Fin c |}
  = Some {| sx := Fin (((s * a + (if mode_is e "mercator" then 0 else px)) / 2
                        + 1) * W / 2);
            sy := Fin ((1 - cw / ch * (s * b + py) / 2) * H / 2) |}.
Proof.
  intros Hmode Hs Hs0 Hpx Hpy Hcw Hch Hcw0 Hch0 HW HH.
  rewrite projectPoint_unfold.
  rewrite (clipCoords_flat e s px py cw ch a b c) by assumption.
  cbv zeta. cbn [GlMatrix.v0 GlMatrix.v1 GlMatrix.v3 JS.le].
  rewrite (proj2 (Rleb_false_iff 1 0)) by lra.
  assert (canvas (updateMatrices e) = canvas e) as ->.
  { unfold updateMatrices. destruct (mode_is e "spherical"); reflexivity. }
  rewrite HW, HH. js_fin. do 2 f_equal; f_equal; field; assumption.
Qed.

Lemma flat_projectPoint_never_null_witness :
  projectPoint (updateMatrices (inMode (constructed 800 600) "mercator"))
    {| x := Fin 1; y := Fin 1; z := Fin (-5) |}
  = Some {| sx := Fin (((1 * 1 + 0) / 2 + 1) * 800 / 2);
            sy := Fin ((1 - 800 / 600 * (1 * 1 + 0) / 2) * 600 / 2) |}.
Proof.
  apply (flat_projectPoint_never_null
           (inMode (constructed 800 600) "mercator")
           1 0 0 800 600 800 600 1 1 (-5));
    first [reflexivity | lra].
Defined.

(** *** Stereographic projection and the sphere *)

Lemma mul_PInf_fin_fin (c s : R) :
  JS.isFinite (JS.mul (JS.mul PInf (Fin c)) (Fin s)) = false.
Proof.
  unfold JS.mul at 2. destruct (Req_dec_T c 0); [reflexivity |].
  unfold JS.inf_of_sign. destruct (Rlt_dec 0 c);
    unfold JS.mul, JS.inf_of_sign;
    destruct (Req_dec_T s 0); try reflexivity;
    destruct (Rlt_dec 0 _); reflexivity.
Qed.

(** X13: [equatorialToStereographic] is the projection of the unit vector of
    [equatorialToCartesian] from the point [(-1, 0, 0)] onto the plane
    [x = 1]: with [(X, Y, Z)] that vector, the result is
    [(2 Y / (1 + X), 2 Z / (1 + X), 0)] whenever [X <> -1], and it is a
    finite point exactly then. *)
Theorem equatorialToStereographic_projects_the_sphere (a d : R) :
  exists X Y Z : R,
    equatorialToCartesian (Fin a) (Fin d)
      = {| x := Fin X; y := Fin Y; z := Fin Z |} /\
    (point_finite (equatorialToStereographic (Fin a) (Fin d)) = true
     <-> X <> -1) /\
    (X <> -1 ->
     equatorialToStereographic (Fin a) (Fin d)
     = {| x := Fin (2 * Y / (1 + X)); y := Fin (2 * Z / (1 + X));
          z := Fin 0 |}).
Proof.
  exists (cos (d * PI / 180) * cos (a * PI / 12)),
         (cos (d * PI / 180) * sin (a * PI / 12)),
         (sin (d * PI / 180)).
  assert (Hang : a * 15 * PI / 180 = a * PI / 12) by field.
  split; [unfold equatorialToCartesian; js_fin; reflexivity |].
  assert (Hform :
            cos (d * PI / 180) * cos (a * PI / 12) <> -1 ->
            equatorialToStereographic (Fin a) (Fin d)
            = {| x := Fin (2 * (cos (d * PI / 180) * sin (a * PI / 12))
                           / (1 + cos (d * PI / 180) * cos (a * PI / 12)));
                 y := Fin (2 * sin (d * PI / 180)
                           / (1 + cos (d * PI / 180) * cos (a * PI / 12)));
                 z := Fin 0 |}).
  { intros HX. unfold equatorialToStereographic. js_fin. rewrite Hang.
    rewrite div_fin by lra. js_fin. f_equal; f_equal; field; lra. }
  split; [| exact Hform].
  split.
  - intros Hfin HX. revert Hfin.
    unfold equatorialToStereographic, point_finite. js_fin. rewrite Hang.
    cbn [x y z]. rewrite HX.
    replace (1 + -1) with 0 by ring. rewrite div_fin_zero by lra.
    rewrite mul_PInf_fin_fin. discriminate.
  - intros HX. rewrite (Hform HX). reflexivity.
Qed.

Lemma equatorialToStereographic_projects_the_sphere_witness :
  exists Y Z : R,
    equatorialToCartesian (Fin 0) (Fin 0)
      = {| x := Fin 1; y := Fin Y; z := Fin Z |} /\
    equatorialToStereographic (Fin 0) (Fin 0)
    = {| x := Fin (2 * Y / (1 + 1)); y := Fin (2 * Z / (1 + 1));
         z := Fin 0 |}.
Proof.
  destruct (equatorialToStereographic_projects_the_sphere 0 0)
    as (X & Y & Z & Hc & _ & Hform).
  assert (X = 1) as HX.
  { revert Hc. unfold equatorialToCartesian. js_fin.
    intros Hc. injection Hc as <- _ _.
    replace (0 * PI / 180) with 0 by field.
    replace (0 * PI / 12) with 0 by field.
    rewrite cos_0. ring. }
  subst X. exists Y, Z. split; [exact Hc |]. apply Hform. lra.
Defined.

(** *** Navigation *)

Lemma easing_at_start (t0 : R) :
  1 - (1 - Rmin ((t0 - t0) / 1000) 1)
      * ((1 - Rmin ((t0 - t0) / 1000) 1)
         * ((1 - Rmin ((t0 - t0) / 1000) 1) * 1)) = 0.
Proof.
  replace ((t0 - t0) / 1000) with 0 by field.
  rewrite Rmin_left by lra. ring.
Qed.

Lemma easing_at_end (t0 t : R) :
  t0 + 1000 <= t ->
  1 - (1 - Rmin ((t - t0) / 1000) 1)
      * ((1 - Rmin ((t - t0) / 1000) 1)
         * ((1 - Rmin ((t - t0) / 1000) 1) * 1)) = 1.
Proof.
  intros Ht. rewrite Rmin_right by lra. ring.
Qed.

(** X14: a navigation started in spherical mode on a star with finite
    coordinates, from a camera with finite parameters.  A frame at the start
    instant shows the camera values taken at the start; from one second on
    a frame sets the rotation to [(- dec, - ra)] in radians, [zoom] to 2 and
    [scale] to 1 (the number model is exact); the pan, the polar rotation
    and the mode are those of the state the frame runs on; and another frame
    is requested exactly while less than a second has passed. *)
Theorem spherical_navigation_endpoints (e current : Engine) (s : Star)
  (r d rx ry zm sc t0 t : R) (fuel : nat) (now : Date) :
  mode_is e "spherical" = true -> mode_is current "spherical" = true ->
  ra s = Fin r -> dec s = Fin d ->
  rotation_x (view e) = Fin rx -> rotation_y (view e) = Fin ry ->
  zoom (view e) = Fin zm -> scale (view e) = Fin sc ->
  let a := navigateToStar e s (Fin t0) in
  animateView a current (Fin t0)
  = with_scale (with_zoom (with_rotation (view current) (Fin rx) (Fin ry))
                  (Fin zm)) (Fin sc) /\
  (t0 + 1000 <= t ->
   animateView a current (Fin t)
   = with_scale
       (with_zoom
          (with_rotation (view current)
             (Fin (- (d * PI / 180))) (Fin (- (r * PI / 12))))
          (Fin 2)) (Fin 1)) /\
  exists (e' : Engine) (again : bool),
    animate a current (S fuel) (Fin t) now = Some (e', again) /\
    view e' = animateView a current (Fin t) /\
    (again = true <-> t < t0 + 1000).
Proof.
  intros He Hc Hr Hd Hrx Hry Hzm Hsc a.
  assert (Ha : a = {| startRotX := Fin rx; startRotY := Fin ry;
                      startZoom := Fin zm; startScale := Fin sc;
                      startPanX := pan_x (view e);
                      startPanY := pan_y (view e);
                      targetRotX := Fin (- (d * PI / 180));
                      targetRotY := Fin (- (r * PI / 12));
                      targetPanX := Fin 0; targetPanY := Fin 0;
                      startTime := Fin t0 |}).
  { unfold a, navigateToStar. rewrite He, Hr, Hd, Hrx, Hry, Hzm, Hsc.
    js_fin. reflexivity. }
  assert (Hview : forall u : R,
             animateView a current (Fin u)
             = let E := 1 - (1 - Rmin ((u - t0) / 1000) 1)
                            * ((1 - Rmin ((u - t0) / 1000) 1)
                               * ((1 - Rmin ((u - t0) / 1000) 1) * 1)) in
               with_scale
                 (with_zoom
                    (with_rotation (view current)
                       (Fin (rx + (- (d * PI / 180) - rx) * E))
                       (Fin (ry + (- (r * PI / 12) - ry) * E)))
                    (Fin (zm + (2 - zm) * E)))
                 (Fin (sc + (1 - sc) * E))).
  { intros u. rewrite Ha. unfold animateView. rewrite Hc.
    cbn [startRotX startRotY startZoom startScale targetRotX targetRotY
         startTime].
    cbv zeta. rewrite easing_fin. js_fin. reflexivity. }
  split; [| split].
  - rewrite Hview. cbv zeta. rewrite easing_at_start.
    repeat f_equal; ring.
  - intros Ht. rewrite Hview. cbv zeta. rewrite (easing_at_end t0 t Ht).
    repeat f_equal; ring.
  - unfold animate.
    destruct (render_keeps_keys
                (updateMatrices (with_view current
                                   (animateView a current (Fin t))))
                fuel now) as (e' & He' & Hv & _).
    rewrite He'. eexists _, _. split; [reflexivity |].
    split; [rewrite Hv, view_updateMatrices; reflexivity |].
    rewrite Ha. cbn [startTime]. unfold duration. js_fin.
    cbn [JS.lt]. rewrite Rltb_true_iff.
    unfold Rmin. destruct (Rle_dec ((t - t0) / 1000) 1); lra.
Qed.

Lemma spherical_navigation_endpoints_witness :
  let e := constructed 800 600 in
  let a := navigateToStar e (catalogStar "s" 6 30) (Fin 100) in
  animateView a e (Fin 100) = view e /\
  animateView a e (Fin 1100)
  = with_scale
      (with_zoom
         (with_rotation (view e)
            (Fin (- (30 * PI / 180))) (Fin (- (6 * PI / 12))))
         (Fin 2)) (Fin 1).
Proof.
  intros e a.
  destruct (spherical_navigation_endpoints e e (catalogStar "s" 6 30)
              6 30 0 0 2 1 100 1100 0%nat (utc 0 0 0 0)
              eq_refl eq_refl eq_refl eq_refl eq_refl eq_refl eq_refl eq_refl)
    as (H0 & H1 & _).
  split; [exact H0 | apply H1; lra].
Defined.

(** *** A rendered frame *)

Lemma updateMatrices_with (e : Engine) :
  updateMatrices e
  = with_matrices e (currentModelView (updateMatrices e))
      (currentProjection (updateMatrices e)).
Proof. unfold updateMatrices. destruct (mode_is e "spherical"); reflexivity. Qed.

Lemma updateMatrices_reads (e1 e2 : Engine) :
  view e1 = view e2 ->
  clientWidth (canvas e1) = clientWidth (canvas e2) ->
  clientHeight (canvas e1) = clientHeight (canvas e2) ->
  currentModelView (updateMatrices e1) = currentModelView (updateMatrices e2)
  /\ currentProjection (updateMatrices e1)
     = currentProjection (updateMatrices e2).
Proof.
  intros Hv Hw Hh. unfold updateMatrices, mode_is. rewrite Hv, Hw, Hh.
  destruct (String.eqb (projectionType (view e2)) "spherical");
    split; reflexivity.
Qed.

Lemma updateMatrices_settled (e0 e : Engine) :
  view e = view e0 ->
  clientWidth (canvas e) = clientWidth (canvas e0) ->
  clientHeight (canvas e) = clientHeight (canvas e0) ->
  currentModelView e = currentModelView (updateMatrices e0) ->
  currentProjection e = currentProjection (updateMatrices e0) ->
  updateMatrices e = e.
Proof.
  intros Hv Hw Hh Hmv Hpr. rewrite updateMatrices_with.
  destruct (updateMatrices_reads e e0 Hv Hw Hh) as [-> ->].
  rewrite <- Hmv, <- Hpr. destruct e; reflexivity.
Qed.

Lemma resize_settled (e : Engine) :
  width (canvas e) = clientWidth (canvas e) ->
  height (canvas e) = clientHeight (canvas e) ->
  resize e = e.
Proof.
  intros Hw Hh. unfold resize. destruct (_ || _); [| reflexivity].
  destruct e as [lon [w h cw ch] v st act crt lct mv pr].
  cbn in *. subst. reflexivity.
Qed.

Lemma resize_canvas (e : Engine) :
  width (canvas (resize e)) = clientWidth (canvas e) /\
  height (canvas (resize e)) = clientHeight (canvas e) /\
  clientWidth (canvas (resize e)) = clientWidth (canvas e) /\
  clientHeight (canvas (resize e)) = clientHeight (canvas e).
Proof.
  unfold resize.
  destruct (JS.sneq (width (canvas e)) (clientWidth (canvas e))) eqn:Hw;
    destruct (JS.sneq (height (canvas e)) (clientHeight (canvas e))) eqn:Hh;
    cbn [orb canvas with_canvas width height clientWidth clientHeight];
    try (repeat split; reflexivity).
  unfold JS.sneq in Hw, Hh. apply negb_false_iff in Hw, Hh.
  apply seq_eq in Hw, Hh. repeat split; auto.
Qed.

Lemma with_currentRenderTime_settled (e : Engine) (t : Date) :
  currentRenderTime e = Some t -> with_currentRenderTime e (Some t) = e.
Proof. destruct e. cbn. intros ->. reflexivity. Qed.

Lemma updateMatrices_keeps (e : Engine) :
  canvas (updateMatrices e) = canvas e /\
  stars (updateMatrices e) = stars e /\
  activeStars (updateMatrices e) = activeStars e /\
  currentRenderTime (updateMatrices e) = currentRenderTime e /\
  longitude (updateMatrices e) = longitude e.
Proof.
  unfold updateMatrices. destruct (mode_is e "spherical");
    repeat split; reflexivity.
Qed.

Lemma resize_keeps (e : Engine) :
  stars (resize e) = stars e /\
  activeStars (resize e) = activeStars e /\
  currentRenderTime (resize e) = currentRenderTime e /\
  longitude (resize e) = longitude e.
Proof. unfold resize. destruct (_ || _); repeat split; reflexivity. Qed.

Lemma render_settled (e : Engine) (fuel : nat) (t : Date) :
  exists e' : Engine,
    render e (S fuel) t = Some e' /\
    currentRenderTime e' = Some t /\
    width (canvas e') = clientWidth (canvas e) /\
    height (canvas e') = clientHeight (canvas e) /\
    updateMatrices e' = e' /\
    render e' (S fuel) t = Some e'.
Proof.
  set (e0 := resize (with_currentRenderTime e (Some t))).
  set (e1 := updateMatrices e0).
  destruct (resize_canvas (with_currentRenderTime e (Some t)))
    as (Hw & Hh & Hcw & Hch).
  fold e0 in Hw, Hh, Hcw, Hch.
  cbn [canvas with_currentRenderTime] in Hw, Hh, Hcw, Hch.
  destruct (resize_keeps (with_currentRenderTime e (Some t)))
    as (_ & _ & Hcrt0 & _).
  fold e0 in Hcrt0. cbn [currentRenderTime with_currentRenderTime] in Hcrt0.
  destruct (updateMatrices_keeps e0) as (Hc1 & Hs1 & Ha1 & Hcrt1 & _).
  fold e1 in Hc1, Hs1, Ha1, Hcrt1.
  assert (Hsettled :
            forall e' : Engine,
              view e' = view e1 -> canvas e' = canvas e1 ->
              currentRenderTime e' = Some t ->
              currentModelView e' = currentModelView e1 ->
              currentProjection e' = currentProjection e1 ->
              updateMatrices (resize (with_currentRenderTime e' (Some t)))
              = e' /\ updateMatrices e' = e').
  { intros e' Hv Hc Hcrt Hmv Hpr.
    assert (updateMatrices e' = e') as Hu.
    { apply (updateMatrices_settled e0); unfold e1 in *;
        rewrite ?Hv, ?Hc, ?Hc1, ?view_updateMatrices; auto. }
    rewrite with_currentRenderTime_settled by exact Hcrt.
    rewrite resize_settled; [auto | |];
      rewrite Hc, Hc1; congruence. }
  unfold render. fold e0. fold e1.
  destruct (stars e1) as [[| s l] |] eqn:Hst.
  - exists e1. cbn [updateStarData].
    destruct (Hsettled e1) as [H1 H2]; try reflexivity;
      [congruence |].
    rewrite Hc1. repeat (split; [first [reflexivity | congruence] |]).
    rewrite H1, Hst. reflexivity.
  - destruct (transformStarsForProjection_total
                (with_stars e1 (Some (s :: l))) fuel (Some (s :: l))
                (projectionType (view (with_stars e1 (Some (s :: l))))) t)
      as [ts Hts].
    unfold updateStarData. rewrite Hts.
    set (e' := with_activeStars (with_stars e1 (Some (s :: l)))
                 (fold_left retargetStep ts
                    (activeStars (with_stars e1 (Some (s :: l)))))).
    exists e'. split; [reflexivity |].
    destruct (Hsettled e') as [H1 H2]; try reflexivity;
      [unfold e'; cbn [currentRenderTime with_activeStars with_stars];
       congruence |].
    split; [unfold e'; cbn [currentRenderTime with_activeStars with_stars];
            congruence |].
    split; [unfold e'; cbn [canvas with_activeStars with_stars];
            rewrite Hc1; exact Hw |].
    split; [unfold e'; cbn [canvas with_activeStars with_stars];
            rewrite Hc1; exact Hh |].
    split; [exact H2 |].
    rewrite H1.
    assert (stars e' = Some (s :: l)) as -> by reflexivity.
    assert (transformStarsForProjection
              (with_stars e' (Some (s :: l))) (S fuel) (Some (s :: l))
              (projectionType (view (with_stars e' (Some (s :: l))))) t
            = Some ts) as -> by exact Hts.
    f_equal. unfold e'.
    cbn [activeStars with_activeStars with_stars].
    rewrite retarget_fold_twice.
    destruct e1; reflexivity.
  - exists e1.
    destruct (Hsettled e1) as [H1 H2]; try reflexivity;
      [congruence |].
    rewrite Hc1. repeat (split; [first [reflexivity | congruence] |]).
    rewrite H1, Hst. reflexivity.
Qed.

(** X15: [render] returns, and it leaves the fields of the renderer that are
    modelled here settled: it records the instant, the backing size of the
    canvas is the display size, the stored matrices are those that
    [updateMatrices] computes for the current camera, and a second [render]
    at the same instant returns with the observer's longitude, the canvas,
    the camera, the catalog, the active stars, the two recorded instants and
    the two matrices as the first left them.  The list [hoverAreas], to
    which [drawGrid] appends while it draws the marked points of the
    ecliptic, is not a field of [Engine] and is not covered: every point
    drawn so makes it longer. *)
Theorem render_leaves_a_settled_state (e : Engine) (fuel : nat) (t : Date) :
  exists e' : Engine,
    render e (S fuel) t = Some e' /\
    currentRenderTime e' = Some t /\
    width (canvas e') = clientWidth (canvas e) /\
    height (canvas e') = clientHeight (canvas e) /\
    currentModelView (updateMatrices e') = currentModelView e' /\
    currentProjection (updateMatrices e') = currentProjection e' /\
    exists e'' : Engine,
      render e' (S fuel) t = Some e'' /\
      longitude e'' = longitude e' /\ canvas e'' = canvas e' /\
      view e'' = view e' /\ stars e'' = stars e' /\
      activeStars e'' = activeStars e' /\
      currentRenderTime e'' = currentRenderTime e' /\
      lastClickTime e'' = lastClickTime e' /\
      currentModelView e'' = currentModelView e' /\
      currentProjection e'' = currentProjection e'.
Proof.
  destruct (render_settled e fuel t)
    as (e' & Hrun & Hcrt & Hw & Hh & Hsync & Hagain).
  exists e'. split; [exact Hrun |]. split; [exact Hcrt |].
  split; [exact Hw |]. split; [exact Hh |].
  rewrite Hsync. split; [reflexivity |]. split; [reflexivity |].
  exists e'. split; [exact Hagain |]. repeat split; reflexivity.
Qed.

(** *** Gestures on a flat picture *)

Lemma pixel_of_flat_point (e : Engine) (s px py cw ch W H a b c : R) :
  mode_is e "spherical" = false -> mode_is e "mercator" = false ->
  view e = {| rotation_x := rotation_x (view e);
              rotation_y := rotation_y (view e);
              zoom := zoom (view e);
              pan_x := Fin px; pan_y := Fin py; scale := Fin s;
              hammerRotation := hammerRotation (view e);
              projectionType := projectionType (view e) |} ->
  s <> 0 ->
  canvas e = {| width := Fin W; height := Fin H;
                clientWidth := Fin cw; clientHeight := Fin ch |} ->
  cw <> 0 -> ch <> 0 ->
  projectPoint (updateMatrices e) {| x := Fin a; y := Fin b; z := Fin c |}
  = Some {| sx := Fin (((s * a + px) / 2 + 1) * W / 2);
            sy := Fin ((1 - cw / ch * (s * b + py) / 2) * H / 2) |}.
Proof.
  intros Hsph Hmer Hv Hs0 Hc Hcw0 Hch0.
  rewrite projectPoint_unfold.
  rewrite (clipCoords_flat e s px py cw ch a b c);
    try assumption; try (rewrite Hv; reflexivity);
    try (rewrite Hc; reflexivity).
  rewrite Hmer. cbv zeta. cbn [GlMatrix.v0 GlMatrix.v1 GlMatrix.v3 JS.le].
  rewrite (proj2 (Rleb_false_iff 1 0)) by lra.
  assert (canvas (updateMatrices e) = canvas e) as ->.
  { unfold updateMatrices. destruct (mode_is e "spherical"); reflexivity. }
  rewrite Hc. cbn [width height]. js_fin.
  do 2 f_equal; f_equal; field; assumption.
Qed.

(** X16: in stereographic and Hammer mode a wheel step that does not hit a
    bound of [scale] dilates the picture by the zoom factor (0.9 for a
    positive [deltaY], 1.1 otherwise) about a fixed pixel: the pixel of every
    point moves away from, or towards, the point
    [(mouseX / 2 + W / 4, H / 2 + (cw / ch) (mouseY - H / 2) / 2)], which
    lies halfway between the centre of the canvas and the pointer when the
    display is square. *)
Theorem wheel_dilates_the_flat_picture (e : Engine)
  (s px py cw ch W H deltaY clientX clientY rectLeft rectTop a b c : R) :
  mode_is e "spherical" = false -> mode_is e "mercator" = false ->
  scale (view e) = Fin s ->
  pan_x (view e) = Fin px -> pan_y (view e) = Fin py ->
  canvas e = {| width := Fin W; height := Fin H;
                clientWidth := Fin cw; clientHeight := Fin ch |} ->
  cw <> 0 -> ch <> 0 -> W <> 0 -> H <> 0 ->
  let f := if JS.gt (Fin deltaY) (Fin 0) then 0.9 else 1.1 in
  0.1 <= s * f <= 10 ->
  let e' :=
    updateMatrices
      (with_view e (wheelView e (Fin deltaY) (Fin clientX) (Fin clientY)
                      (Fin rectLeft) (Fin rectTop))) in
  let ox := (clientX - rectLeft) / 2 + W / 4 in
  let oy := H / 2 + cw / ch * ((clientY - rectTop) - H / 2) / 2 in
  exists qx qy qx' qy' : R,
    projectPoint (updateMatrices e) {| x := Fin a; y := Fin b; z := Fin c |}
      = Some {| sx := Fin qx; sy := Fin qy |} /\
    projectPoint e' {| x := Fin a; y := Fin b; z := Fin c |}
      = Some {| sx := Fin qx'; sy := Fin qy' |} /\
    qx' - ox = f * (qx - ox) /\ qy' - oy = f * (qy - oy).
Proof.
  intros Hsph Hmer Hs Hpx Hpy Hc Hcw0 Hch0 HW0 HH0 f Hrange e' ox oy.
  assert (Hf : f = 0.9 \/ f = 1.1).
  { unfold f. destruct (JS.gt _ _); auto. }
  assert (Hs0 : s <> 0) by (destruct Hf as [Hf | Hf]; rewrite Hf in Hrange; nra).
  assert (Hview : wheelView e (Fin deltaY) (Fin clientX) (Fin clientY)
                    (Fin rectLeft) (Fin rectTop)
                  = with_scale
                      (with_pan (view e)
                         (Fin ((px - ((clientX - rectLeft) / W * 2 - 1)) * f
                               + ((clientX - rectLeft) / W * 2 - 1)))
                         (Fin ((py - (1 - (clientY - rectTop) / H * 2)) * f
                               + (1 - (clientY - rectTop) / H * 2))))
                      (Fin (s * f))).
  { unfold wheelView. rewrite Hsph, Hs, Hpx, Hpy, Hc. cbn [width height].
    fold f. cbv zeta.
    assert (JS.mul (Fin s) (if JS.gt (Fin deltaY) (Fin 0) then Fin 0.9
                            else Fin 1.1) = Fin (s * f)) as Hsf.
    { unfold f. destruct (JS.gt _ _); reflexivity. }
    assert ((if JS.gt (Fin deltaY) (Fin 0) then Fin 0.9 else Fin 1.1)
            = Fin f) as Hff.
    { unfold f. destruct (JS.gt _ _); reflexivity. }
    rewrite Hff. js_fin.
    rewrite Rmin_left by lra. rewrite Rmax_right by lra. reflexivity. }
  set (px' := (px - ((clientX - rectLeft) / W * 2 - 1)) * f
              + ((clientX - rectLeft) / W * 2 - 1)) in *.
  set (py' := (py - (1 - (clientY - rectTop) / H * 2)) * f
              + (1 - (clientY - rectTop) / H * 2)) in *.
  exists (((s * a + px) / 2 + 1) * W / 2),
         ((1 - cw / ch * (s * b + py) / 2) * H / 2),
         (((s * f * a + px') / 2 + 1) * W / 2),
         ((1 - cw / ch * (s * f * b + py') / 2) * H / 2).
  split; [| split].
  - apply pixel_of_flat_point; try assumption.
    destruct (view e); cbn in *; subst; reflexivity.
  - unfold e'. rewrite Hview.
    apply (pixel_of_flat_point _ (s * f) px' py' cw ch W H); try assumption;
      try reflexivity.
    destruct Hf as [Hf | Hf]; rewrite Hf; nra.
  - split; unfold ox, oy, px', py'; field; repeat split; assumption.
Qed.

Lemma wheel_dilates_the_flat_picture_witness :
  exists qx qy qx' qy' : R,
    projectPoint
      (updateMatrices (inMode (constructed 800 600) "stereographic"))
      {| x := Fin 1; y := Fin 1; z := Fin 0 |}
      = Some {| sx := Fin qx; sy := Fin qy |} /\
    projectPoint
      (updateMatrices
         (with_view (inMode (constructed 800 600) "stereographic")
            (wheelView (inMode (constructed 800 600) "stereographic")
               (Fin 100) (Fin 400) (Fin 300) (Fin 0) (Fin 0))))
      {| x := Fin 1; y := Fin 1; z := Fin 0 |}
      = Some {| sx := Fin qx'; sy := Fin qy' |} /\
    qx' - ((400 - 0) / 2 + 800 / 4)
    = 0.9 * (qx - ((400 - 0) / 2 + 800 / 4)).
Proof.
  assert (Hgt : JS.gt (Fin 100) (Fin 0) = true).
  { unfold JS.gt. cbn [JS.lt]. apply Rltb_true_iff. lra. }
  destruct (wheel_dilates_the_flat_picture
              (inMode (constructed 800 600) "stereographic")
              1 0 0 800 600 800 600 100 400 300 0 0 1 1 0
              eq_refl eq_refl eq_refl eq_refl eq_refl eq_refl
              ltac:(lra) ltac:(lra) ltac:(lra) ltac:(lra)
              ltac:(rewrite Hgt; lra))
    as (qx & qy & qx' & qy' & H1 & H2 & H3 & _).
  rewrite Hgt in H3.
  exists qx, qy, qx', qy'. split; [exact H1 |]. split; [exact H2 | exact H3].
Defined.

(** X17: in stereographic mode, and in Hammer mode without the shift key, a
    drag step translates the picture: the pixel of every point moves by
    [deltaX / (2 scale)] horizontally and by
    [deltaY (cw H) / (ch W) / (2 scale)] vertically, that is by half the
    pointer displacement at scale 1 on a canvas whose backing size is its
    display size. *)
Theorem drag_translates_the_flat_picture (e : Engine) (shiftKey : bool)
  (s px py cw ch W H deltaX deltaY a b c : R) :
  mode_is e "stereographic" = true
  \/ (mode_is e "hammer" = true /\ shiftKey = false) ->
  scale (view e) = Fin s -> s <> 0 ->
  pan_x (view e) = Fin px -> pan_y (view e) = Fin py ->
  canvas e = {| width := Fin W; height := Fin H;
                clientWidth := Fin cw; clientHeight := Fin ch |} ->
  cw <> 0 -> ch <> 0 -> W <> 0 ->
  let e' :=
    updateMatrices
      (with_view e (dragView e (Fin deltaX) (Fin deltaY) shiftKey)) in
  exists qx qy qx' qy' : R,
    projectPoint (updateMatrices e) {| x := Fin a; y := Fin b; z := Fin c |}
      = Some {| sx := Fin qx; sy := Fin qy |} /\
    projectPoint e' {| x := Fin a; y := Fin b; z := Fin c |}
      = Some {| sx := Fin qx'; sy := Fin qy' |} /\
    qx' = qx + deltaX / (2 * s) /\
    qy' = qy + deltaY * (cw * H) / (ch * W) / (2 * s).
Proof.
  intros Hmode Hs Hs0 Hpx Hpy Hc Hcw0 Hch0 HW0 e'.
  assert (HsW : s * W <> 0) by (apply Rmult_integral_contrapositive_currified;
                                assumption).
  assert (mode_is e "spherical" = false /\ mode_is e "mercator" = false /\
          dragView e (Fin deltaX) (Fin deltaY) shiftKey
          = with_pan (view e)
              (Fin (px + deltaX * (2 / (s * W))))
              (Fin (py - deltaY * (2 / (s * W))))) as (Hsph & Hmer & Hview).
  { unfold dragView, mode_is in *.
    destruct Hmode as [Hm | [Hm ->]]; apply String.eqb_eq in Hm;
      rewrite Hm; cbn [String.eqb Ascii.eqb Bool.eqb];
      rewrite Hs, Hpx, Hpy, Hc; cbn [width]; js_fin; auto. }
  set (px' := px + deltaX * (2 / (s * W))) in *.
  set (py' := py - deltaY * (2 / (s * W))) in *.
  exists (((s * a + px) / 2 + 1) * W / 2),
         ((1 - cw / ch * (s * b + py) / 2) * H / 2),
         (((s * a + px') / 2 + 1) * W / 2),
         ((1 - cw / ch * (s * b + py') / 2) * H / 2).
  split; [| split].
  - apply pixel_of_flat_point; try assumption.
    destruct (view e); cbn in *; subst; reflexivity.
  - unfold e'. rewrite Hview.
    apply (pixel_of_flat_point _ s px' py' cw ch W H); try assumption.
    + cbn [with_view view]. unfold with_pan.
      cbn [pan_x pan_y scale rotation_x rotation_y zoom hammerRotation
           projectionType].
      rewrite Hs. reflexivity.
  - split; unfold px', py'; field; repeat split; assumption.
Qed.

Lemma drag_translates_the_flat_picture_witness :
  exists qx qy qx' qy' : R,
    projectPoint
      (updateMatrices (inMode (constructed 800 600) "stereographic"))
      {| x := Fin 1; y := Fin 1; z := Fin 0 |}
      = Some {| sx := Fin qx; sy := Fin qy |} /\
    projectPoint
      (updateMatrices
         (with_view (inMode (constructed 800 600) "stereographic")
            (dragView (inMode (constructed 800 600) "stereographic")
               (Fin 10) (Fin 20) false)))
      {| x := Fin 1; y := Fin 1; z := Fin 0 |}
      = Some {| sx := Fin qx'; sy := Fin qy' |} /\
    qx' = qx + 10 / (2 * 1).
Proof.
  destruct (drag_translates_the_flat_picture
              (inMode (constructed 800 600) "stereographic") false
              1 0 0 800 600 800 600 10 20 1 1 0
              (or_introl eq_refl) eq_refl ltac:(lra) eq_refl eq_refl eq_refl
              ltac:(lra) ltac:(lra) ltac:(lra))
    as (qx & qy & qx' & qy' & H1 & H2 & H3 & _).
  exists qx, qy, qx', qy'. split; [exact H1 |]. split; [exact H2 | exact H3].
Defined.

(** *** The Mercator scroll *)

(** X18: in Mercator mode [equatorialToMercator] has period 24 h in the right
    ascension and period [2 PI] in [pan.x]: the horizontal scroll, which the
    drag never clamps, wraps around. *)
Theorem mercator_scroll_wraps (e1 e2 : Engine) (a d p : R) (k m : Z) :
  mode_is e1 "mercator" = true -> mode_is e2 "mercator" = true ->
  pan_x (view e1) = Fin p ->
  pan_x (view e2) = Fin (p + 2 * IZR k * PI) ->
  equatorialToMercator e2 (Fin (a + 24 * IZR m)) (Fin d)
  = equatorialToMercator e1 (Fin a) (Fin d).
Proof.
  intros H1 H2 Hp1 Hp2.
  rewrite (equatorialToMercator_fin e2 _ d _ Hp2).
  rewrite (equatorialToMercator_fin e1 a d p Hp1).
  rewrite H1, H2.
  replace ((a + 24 * IZR m) * 15 - (p + 2 * IZR k * PI) * 180 / PI)
    with ((a * 15 - p * 180 / PI) + 360 * IZR (m - k))
    by (rewrite minus_IZR; field; apply PI_neq0).
  rewrite Rfmod_twice_turns. reflexivity.
Qed.

Lemma mercator_scroll_wraps_witness :
  equatorialToMercator
    (with_view (constructed 800 600)
       (with_pan (with_projectionType (view (constructed 800 600)) "mercator")
          (Fin (0.5 + 2 * IZR 3 * PI)) (Fin 0)))
    (Fin (3 + 24 * IZR (-1))) (Fin 40)
  = equatorialToMercator
      (with_view (constructed 800 600)
         (with_pan
            (with_projectionType (view (constructed 800 600)) "mercator")
            (Fin 0.5) (Fin 0)))
      (Fin 3) (Fin 40).
Proof.
  apply (mercator_scroll_wraps _ _ 3 40 0.5 3 (-1)); reflexivity.
Defined.

(** *** The two versions of the flat projections *)

Lemma Rfmod_twice_in_turn (v : R) :
  0 <= v < 360 -> JS.Rfmod (JS.Rfmod v 360 + 360) 360 = v.
Proof.
  intros Hv.
  destruct (Rfmod_turns v) as [k1 H1].
  destruct (Rfmod_turns (JS.Rfmod v 360 + 360)) as [k2 H2].
  apply (unique_in_turn _ _ (k1 + k2 + 1)%Z);
    [apply Rfmod_twice_range | exact Hv |].
  rewrite H2, H1, !plus_IZR. ring.
Qed.

(** X19: for a right ascension in [[0 h, 24 h)], outside Mercator mode (where
    the pan offset is not applied), the current [equatorialToMercator]
    returns what the earlier version returns: the normalisation it added
    extends the earlier map periodically and changes nothing on the range of
    a catalog. *)
Theorem equatorialToMercator_extends_the_earlier_version (e : Engine)
  (a d p : R) :
  pan_x (view e) = Fin p -> mode_is e "mercator" = false ->
  0 <= a < 24 ->
  equatorialToMercator e (Fin a) (Fin d)
  = Legacy.equatorialToMercator (Fin a) (Fin d).
Proof.
  intros Hp Hm Ha.
  rewrite (equatorialToMercator_fin e a d p Hp), Hm.
  rewrite Rfmod_twice_in_turn by lra.
  unfold Legacy.equatorialToMercator.
  pose proof (clamp_range (d * PI / 180) (-1.4835) 1.4835 ltac:(lra)) as Hc.
  apply mercator_angle_range in Hc.
  js_fin.
  rewrite tan_fin
    by (apply Rgt_not_eq, cos_gt_0; pose proof PI_RGT_0; lra).
  rewrite log_fin by (apply tan_gt_0; lra).
  reflexivity.
Qed.

Lemma equatorialToMercator_extends_the_earlier_version_witness :
  equatorialToMercator (constructed 800 600) (Fin 3) (Fin 40)
  = Legacy.equatorialToMercator (Fin 3) (Fin 40).
Proof.
  apply (equatorialToMercator_extends_the_earlier_version
           (constructed 800 600) 3 40 0); [reflexivity | reflexivity | lra].
Defined.

Lemma div_by_zero_not_finite (v : R) :
  JS.isFinite (JS.div (Fin v) (Fin 0)) = false.
Proof.
  cbn [JS.div]. destruct (Req_dec_T 0 0) as [_ | H]; [| now elim H].
  destruct (Req_dec_T v 0); [reflexivity |].
  unfold JS.inf_of_sign. destruct (Rlt_dec 0 v); reflexivity.
Qed.

(** X20: with no polar rotation, for a right ascension in [[0 h, 24 h)], the
    current [equatorialToHammer] returns what the earlier version returns
    for the right ascension 12 h away (the map is now centred on 0 h, it was
    centred on 12 h), whenever the denominator is not zero; where it is zero
    the current version returns the origin and the earlier one, which has no
    guard, a point that is not finite. *)
Theorem equatorialToHammer_recentres_the_earlier_version (e : Engine)
  (fuel : nat) (a d : R) :
  hammerRotation (view e) = Fin 0 -> 0 <= a < 24 ->
  let a' := if Rlt_dec a 12 then a + 12 else a - 12 in
  let denom := sqrt (1 + cos (d * PI / 180)
                         * cos ((a' * 15 - 180) * PI / 180 / 2)) in
  (denom <> 0 ->
   equatorialToHammer e fuel (Fin a) (Fin d)
   = Some (Legacy.equatorialToHammer (Fin a') (Fin d))) /\
  (denom = 0 ->
   equatorialToHammer e fuel (Fin a) (Fin d)
   = Some {| x := Fin 0; y := Fin 0; z := Fin 0 |} /\
   point_finite (Legacy.equatorialToHammer (Fin a') (Fin d)) = false).
Proof.
  intros Hh Ha a' denom.
  pose proof (hammer_after_loops e fuel a d 0 (a * 15) (a * 15) Hh) as E.
  rewrite whileAbove360_done in E
    by (unfold JS.gt; cbn [JS.lt]; apply Rltb_false_iff; lra).
  rewrite whileBelow0_done in E
    by (cbn [JS.lt]; apply Rltb_false_iff; lra).
  specialize (E eq_refl eq_refl). cbv zeta in E.
  assert (JS.sneq (Fin 0) (Fin 0) = false) as Hs.
  { unfold JS.sneq. cbn [JS.seq].
    rewrite (proj2 (Reqb_true_iff 0 0) eq_refl). reflexivity. }
  rewrite Hs, andb_false_r in E.
  assert (JS.Rfmod (a * 15 + 180) 360 - 180 = a' * 15 - 180) as Hn.
  { unfold a'. destruct (Rlt_dec a 12) as [Hlt | Hge].
    - rewrite Rfmod_small; lra.
    - rewrite (Rfmod_eq _ 360 1); [lra | lra | intros; lra | intros; lra]. }
  rewrite Hn in E. fold denom in E.
  assert (HL : Legacy.equatorialToHammer (Fin a') (Fin d)
               = {| x := JS.div
                           (Fin (2 * sqrt 2
                                 * (cos (d * PI / 180)
                                    * sin ((a' * 15 - 180) * PI / 180 / 2))))
                           (Fin denom);
                    y := JS.div (Fin (sqrt 2 * sin (d * PI / 180)))
                           (Fin denom);
                    z := Fin 0 |}).
  { unfold Legacy.equatorialToHammer. js_fin.
    rewrite (sqrt_fin (1 + _)) by apply hammer_radicand_nonneg.
    reflexivity. }
  split.
  - intros HD. rewrite E, HL.
    destruct (Req_dec_T denom 0) as [H0 | _]; [contradiction |].
    rewrite !div_fin by exact HD.
    do 2 f_equal. f_equal. field. exact HD.
  - intros HD. split.
    + rewrite E. destruct (Req_dec_T denom 0) as [_ | H0];
        [reflexivity | contradiction].
    + rewrite HL, HD. unfold point_finite. cbn [x].
      rewrite div_by_zero_not_finite. reflexivity.
Qed.

Lemma equatorialToHammer_recentres_the_earlier_version_witness :
  equatorialToHammer (constructed 800 600) 0 (Fin 0) (Fin 0)
  = Some (Legacy.equatorialToHammer (Fin (0 + 12)) (Fin 0)).
Proof.
  pose proof (equatorialToHammer_recentres_the_earlier_version
                (constructed 800 600) 0%nat 0 0 eq_refl ltac:(lra)) as H.
  cbv zeta in H. destruct (Rlt_dec 0 12) as [_ | Hn]; [| lra].
  apply H.
  replace ((0 + 12) * 15 - 180) with 0 by lra.
  replace (0 * PI / 180 / 2) with 0 by lra.
  replace (0 * PI / 180) with 0 by lra.
  rewrite cos_0. replace (1 + 1 * 1) with 2 by lra.
  intros H2. apply sqrt_eq_0 in H2; lra.
Defined.

(** *** Stars and grid *)

(** X21: a star is placed where the projection switch of [drawGrid], the one
    used for the marked points of the ecliptic, puts the point whose right
    ascension is the rotated one: in every mode the coordinates the pipeline
    gives a star with a finite right ascension are those of the switch at
    [(starRA / 15, dec)].  The switch takes the catalog coordinates of its
    points as they are, so for a right ascension in [[0 h, 24 h)] the two
    agree at the catalog position itself when the sidereal time is 0. *)
Theorem pipeline_agrees_with_the_grid_switch (e : Engine) (fuel : nat)
  (type : string) (lst r : R) (s : Star) :
  ra s = Fin r ->
  exists v : R,
    rotatedRA (Fin lst) s = Fin v /\
    match transformStar e fuel type (Fin lst) s with
    | Some ts => Some (coords ts)
    | None => None
    end = specialPointCoords e fuel type (Fin (v / 15)) (dec s) /\
    (lst = 0 -> 0 <= r < 24 -> v / 15 = r).
Proof.
  intros Hr. exists (JS.Rfmod (r * 15 - lst + 360) 360).
  split; [apply rotatedRA_fin; exact Hr |]. split.
  - unfold transformStar, specialPointCoords.
    rewrite (rotatedRA_fin lst r s Hr). rewrite div_fin by lra.
    set (v := JS.Rfmod (r * 15 - lst + 360) 360).
    destruct (String.eqb type "spherical") eqn:Hsph.
    + apply String.eqb_eq in Hsph. subst type.
      cbn [String.eqb Ascii.eqb Bool.eqb negb].
      unfold equatorialToCartesian. js_fin.
      replace (v / 15 * PI / 12) with (v * PI / 180) by field.
      reflexivity.
    + cbn [negb].
      destruct (String.eqb type "stereographic"); [reflexivity |].
      destruct (String.eqb type "mercator"); [reflexivity |].
      destruct (String.eqb type "hammer").
      * destruct (equatorialToHammer e fuel (Fin (v / 15)) (dec s));
          reflexivity.
      * unfold equatorialToCartesian. js_fin.
        replace (v / 15 * PI / 12) with (v * PI / 180) by field.
        reflexivity.
  - intros -> Hrange.
    replace (r * 15 - 0 + 360) with (r * 15 + 360) by ring.
    rewrite (Rfmod_eq _ 360 1); [field | lra | intros; lra | intros; lra].
Qed.

Lemma pipeline_agrees_with_the_grid_switch_witness :
  exists v : R,
    rotatedRA (Fin 0) (catalogStar "s" 6 30) = Fin v /\
    v / 15 = 6.
Proof.
  destruct (pipeline_agrees_with_the_grid_switch
              (constructed 800 600) 1%nat "mercator" 0 6
              (catalogStar "s" 6 30) eq_refl) as (v & Hv & _ & H0).
  exists v. split; [exact Hv | apply H0; lra].
Defined.

(** *** A drag gesture *)

Lemma last_cons {A : Type} (a d : A) (l : list A) :
  last (a :: l) d = last l a.
Proof.
  revert a d. induction l as [| b l IH]; intros a d; [reflexivity |].
  change (last (a :: b :: l) d) with (last (b :: l) d).
  rewrite (IH b d), (IH b a). reflexivity.
Qed.

Lemma dragAlong_spherical (fuel : nat) (shiftKey : bool) (now : Date)
  (moves : list (R * R)) :
  forall (e : Engine) (d : Drag) (lx ly rx ry : R),
    mode_is e "spherical" = true ->
    isDragging d = true -> lastX d = Fin lx -> lastY d = Fin ly ->
    rotation_x (view e) = Fin rx -> rotation_y (view e) = Fin ry ->
    exists (e' : Engine) (d' : Drag),
      dragAlong e d (S fuel) shiftKey now
        (List.map (fun p => (Fin (fst p), Fin (snd p))) moves)
      = Some (e', d') /\
      rotation_x (view e')
      = Fin (rx + (snd (last moves (lx, ly)) - ly) * 0.005) /\
      rotation_y (view e')
      = Fin (ry + (fst (last moves (lx, ly)) - lx) * 0.005) /\
      with_rotation (view e') (Fin rx) (Fin ry) = view e /\
      d' = {| isDragging := true;
              lastX := Fin (fst (last moves (lx, ly)));
              lastY := Fin (snd (last moves (lx, ly))) |}.
Proof.
  induction moves as [| [cx cy] moves IH];
    intros e d lx ly rx ry Hmode Hd Hlx Hly Hrx Hry.
  - exists e, d. cbn [List.map dragAlong last fst snd].
    split; [reflexivity |].
    split; [rewrite Hrx; f_equal; ring |].
    split; [rewrite Hry; f_equal; ring |].
    split.
    + rewrite <- Hrx, <- Hry. destruct (view e); reflexivity.
    + destruct d; cbn in *; subst; reflexivity.
  - cbn [List.map dragAlong fst snd]. unfold onMouseMove.
    rewrite Hd. cbn [negb]. rewrite Hlx, Hly.
    assert (dragView e (JS.sub (Fin cx) (Fin lx)) (JS.sub (Fin cy) (Fin ly))
              shiftKey
            = with_rotation (view e)
                (Fin (rx + (cy - ly) * 0.005))
                (Fin (ry + (cx - lx) * 0.005))) as ->.
    { unfold dragView. rewrite Hmode, Hrx, Hry. js_fin. reflexivity. }
    set (e1 := with_view e _).
    destruct (render_total e1 fuel now) as (e2 & He2 & Hv2).
    rewrite He2.
    destruct (IH e2 {| isDragging := true; lastX := Fin cx; lastY := Fin cy |}
                cx cy (rx + (cy - ly) * 0.005) (ry + (cx - lx) * 0.005))
      as (e' & d' & Hrun & Hx & Hy & Hrest & Hd');
      try reflexivity; try (rewrite Hv2; reflexivity).
    { unfold mode_is. rewrite Hv2. exact Hmode. }
    exists e', d'. rewrite last_cons.
    split; [exact Hrun |].
    split; [rewrite Hx; f_equal; ring |].
    split; [rewrite Hy; f_equal; ring |].
    split; [| exact Hd'].
    transitivity (with_rotation (with_rotation (view e')
                                   (Fin (rx + (cy - ly) * 0.005))
                                   (Fin (ry + (cx - lx) * 0.005)))
                    (Fin rx) (Fin ry)); [reflexivity |].
    rewrite Hrest, Hv2. unfold e1. cbn [view with_view].
    rewrite <- Hrx, <- Hry. destruct (view e); reflexivity.
Qed.

(** X22: a drag gesture in spherical mode, from the [mousedown] at
    [(x0, y0)] through any sequence of pointer positions: the listener
    returns at every step, and the rotation it leaves depends only on the
    last position, [rotation.x + (y - y0) * 0.005] and
    [rotation.y + (x - x0) * 0.005] (the number model is exact), so a
    gesture that ends where it began restores the camera; no other camera
    parameter changes; and after the [mouseup] a pointer move changes
    nothing. *)
Theorem spherical_drag_depends_on_the_endpoints (e : Engine) (fuel : nat)
  (shiftKey : bool) (now : Date) (x0 y0 rx ry : R) (moves : list (R * R)) :
  mode_is e "spherical" = true ->
  rotation_x (view e) = Fin rx -> rotation_y (view e) = Fin ry ->
  exists (e' : Engine) (d' : Drag),
    dragAlong e (onMouseDown (Fin x0) (Fin y0)) (S fuel) shiftKey now
      (List.map (fun p => (Fin (fst p), Fin (snd p))) moves)
    = Some (e', d') /\
    rotation_x (view e')
    = Fin (rx + (snd (last moves (x0, y0)) - y0) * 0.005) /\
    rotation_y (view e')
    = Fin (ry + (fst (last moves (x0, y0)) - x0) * 0.005) /\
    with_rotation (view e') (Fin rx) (Fin ry) = view e /\
    (last moves (x0, y0) = (x0, y0) -> view e' = view e) /\
    forall clientX clientY : JS.num,
      onMouseMove e' (onMouseUp d') (S fuel) clientX clientY shiftKey now
      = Some (e', onMouseUp d').
Proof.
  intros Hmode Hrx Hry.
  destruct (dragAlong_spherical fuel shiftKey now moves e
              (onMouseDown (Fin x0) (Fin y0)) x0 y0 rx ry
              Hmode eq_refl eq_refl eq_refl Hrx Hry)
    as (e' & d' & Hrun & Hx & Hy & Hrest & Hd').
  exists e', d'. split; [exact Hrun |]. split; [exact Hx |].
  split; [exact Hy |]. split; [exact Hrest |]. split.
  - intros Hlast. rewrite Hlast in Hx, Hy. cbn [fst snd] in Hx, Hy.
    rewrite <- Hrest.
    replace (rx + (y0 - y0) * 0.005) with rx in Hx by ring.
    replace (ry + (x0 - x0) * 0.005) with ry in Hy by ring.
    rewrite <- Hx, <- Hy. destruct (view e'); reflexivity.
  - intros clientX clientY. reflexivity.
Qed.

Lemma spherical_drag_depends_on_the_endpoints_witness :
  exists (e' : Engine) (d' : Drag),
    dragAlong (constructed 800 600) (onMouseDown (Fin 10) (Fin 20)) 1 false
      (utc 0 0 0 0)
      (List.map (fun p => (Fin (fst p), Fin (snd p)))
         [(30, 5); (-4, 50); (10, 20)])
    = Some (e', d') /\
    view e' = view (constructed 800 600).
Proof.
  destruct (spherical_drag_depends_on_the_endpoints
              (constructed 800 600) 0%nat false (utc 0 0 0 0) 10 20 0 0
              [(30, 5); (-4, 50); (10, 20)] eq_refl eq_refl eq_refl)
    as (e' & d' & Hrun & _ & _ & _ & Hback & _).
  exists e', d'. split; [exact Hrun | apply Hback; reflexivity].
Defined.
